(** * Classification forest (ranger): TreeClassification.cpp and
      ForestClassification.cpp

    A shallow embedding of the classification tree grower
    ([TreeClassification]) and of the forest-level evaluation and loading
    code ([ForestClassification]), followed by the properties proved about
    them.

    Conventions of the embedding.
    - [double] is an IEEE binary64 number: Rocq's primitive [float], with
      [==], [<], [<=] the primitive [eqb], [ltb], [leb] (so NaN compares
      false with everything, and [0 == -0]).
    - [size_t] is an [N] below [2^64]; [++], [--] and [*] wrap around.
    - [std::vector<T>] is a [list T] indexed by [N.to_nat]; an index out of
      range is undefined behaviour in C++ and is modelled as "read the
      default" / "write nothing".
    - [std::unordered_set<size_t>] is the list of its elements in iteration
      order; [std::unordered_map<double, size_t>] is an association list in
      insertion order, keys compared with [==]. C++ leaves the iteration
      order of both containers unspecified: the properties below are stated
      so that they hold for any order (a tie among the most frequent values
      is settled by the index drawn, in whatever order the map lists them).
    - A forest holds its [num_trees] trees: reading [trees[tree_idx]] beyond
      the vector is undefined behaviour like any other index out of range,
      and a loop over the trees ends with the vector.
    - Code that dereferences nothing sensible (the most frequent value of an
      empty map) returns [None]. *)

From Stdlib Require Import ZArith NArith Lia Bool Uint63 Floats String.
From stdpp Require Import base list.

Set Default Proof Using "Type".
Open Scope N_scope.

(** ** Machine numbers *)

Module SizeT.
Definition modulus : N := 2 ^ 64.
Definition wrap (n : N) : N := n mod modulus.
(** [++n] *)
Definition incr (n : N) : N := wrap (n + 1).
(** [--n]: [0 - 1] is [2^64 - 1] *)
Definition decr (n : N) : N := wrap (n + modulus - 1).
(** [a * b] *)
Definition mul (a b : N) : N := wrap (a * b).
End SizeT.

(** [uint] *)
Module UInt.
Definition modulus : N := 2 ^ 32.
Definition wrap (n : N) : N := n mod modulus.
End UInt.

Definition double : Type := float.

Module Double.
(** [(double) n] for an unsigned integer [n]: round to nearest even. The
    primitive conversion takes 63 bits; a number with the top bit set is
    halved first, keeping its lowest bit as a sticky bit. *)
Definition of_size_t (n : N) : double :=
  if n <? 2 ^ 63 then PrimFloat.of_uint63 (Uint63.of_Z (Z.of_N n))
  else PrimFloat.mul 2%float
         (PrimFloat.of_uint63 (Uint63.of_Z (Z.of_N (N.lor (N.div2 n) (n mod 2))))).
(** [a != b] *)
Definition neb (a b : double) : bool := negb (PrimFloat.eqb a b).
(** [a > b] *)
Definition gtb (a b : double) : bool := PrimFloat.ltb b a.
Definition NAN : double := PrimFloat.nan.
(** [(int) a]: the fractional part is discarded; the conversion of a NaN, of
    an infinity or of a number out of the range of [int] is undefined in
    C++. *)
Definition to_int (a : double) : Z :=
  match Prim2SF a with
  | S754_finite s m e =>
      let magnitude := if (0 <=? e)%Z then (Z.pos m * 2 ^ e)%Z
                       else (Z.pos m / 2 ^ (- e))%Z in
      if s then (- magnitude)%Z else magnitude
  | _ => 0%Z
  end.
Definition isnan (a : double) : bool := PrimFloat.is_nan a.
End Double.

(** ** Collaborators declared outside the two source files *)

(** Modelled from the spec: the enumeration [ImportanceMode] of
    [globals.h]; the spec lists [importance_mode ∈ {NONE, GINI}]. *)
Inductive ImportanceMode := IMP_NONE | IMP_GINI.

Definition ImportanceMode_eqb (a b : ImportanceMode) : bool :=
  match a, b with
  | IMP_NONE, IMP_NONE | IMP_GINI, IMP_GINI => true
  | _, _ => false
  end.

(** Modelled from the spec: the tree-type tag of [globals.h]; the spec's
    persistence format has [u32 tree_type_tag // 1 = classification]. *)
Definition TreeType : Type := N.
Definition TREE_CLASSIFICATION : TreeType := 1.

(** Modelled from the spec: [DEFAULT_MIN_NODE_SIZE_CLASSIFICATION] of
    [globals.h]; the spec has [min_node_size (0 ⇒ 1)]. *)
Definition DEFAULT_MIN_NODE_SIZE_CLASSIFICATION : N := 1.

(** Modelled from the spec: the [Data] accessor of [Data.h], an immutable
    matrix read by [get(row, col)]. *)
Record Data := mkData {
  get : N -> N -> double
}.

(** Modelled from the spec: the insertion step of [Data::getAllValues],
    which keeps the values sorted ascending and free of duplicates. *)
Fixpoint insert_unique (x : double) (l : list double) : list double :=
  match l with
  | [] => [x]
  | y :: l' =>
      if PrimFloat.ltb x y then x :: l
      else if PrimFloat.eqb x y then l
      else y :: insert_unique x l'
  end.

(** Modelled from the spec: [Data::getAllValues] of [Data.h], the spec's
    [unique_values(col, sample_subset)]: the sorted ascending sequence of
    the distinct values taken by column [varID] over [sampleIDs],
    duplicates removed. *)
Definition getAllValues (data : Data) (sampleIDs : list N) (varID : N)
  : list double :=
  fold_left (fun all_values sampleID => insert_unique (get data sampleID varID) all_values)
            sampleIDs [].

(** The random number generator ([std::mt19937_64]) is used by the code
    below only to draw an index; it is modelled by the draw it answers to
    [std::uniform_int_distribution<size_t>(lo, hi)]. *)
Record mt19937_64 := mkRng {
  uniform_int : nat -> nat -> nat
}.

(** A generator is well behaved when its draw lies in the requested range. *)
Definition rng_in_range (g : mt19937_64) : Prop :=
  forall lo hi : nat, (lo <= hi)%nat -> (lo <= uniform_int g lo hi <= hi)%nat.

(** [std::unordered_map<double, size_t>] *)
Definition class_count_map : Type := list (double * N).

(** [++class_count[value]]: [operator[]] inserts [0] for a key that is not
    found (a NaN key is never found), then the count is incremented. *)
Fixpoint incr_count (class_count : class_count_map) (value : double)
  : class_count_map :=
  match class_count with
  | [] => [(value, SizeT.incr 0)]
  | (k, c) :: rest =>
      if PrimFloat.eqb k value then (k, SizeT.incr c) :: rest
      else (k, c) :: incr_count rest value
  end.

(** Modelled from the spec: the largest count of the map, for
    [mostFrequentValue]. *)
Definition max_count (class_count : class_count_map) : N :=
  fold_left (fun m kc => N.max m (snd kc)) class_count 0.

(** Modelled from the spec: the "tied maxima" of [mostFrequentValue], the
    keys whose count is the largest, in the order of the map. *)
Definition major_classes (class_count : class_count_map) : list double :=
  map fst (List.filter (fun kc => snd kc =? max_count class_count) class_count).

(** Modelled from the spec: [mostFrequentValue] of [utility.h]: the value
    with the largest count, "ties broken via the RNG by uniformly choosing
    among tied maxima". No value can be chosen from an empty map. *)
Definition mostFrequentValue (class_count : class_count_map)
    (random_number_generator : mt19937_64) : option double :=
  match major_classes class_count with
  | [] => None
  | [v] => Some v
  | majors => majors !! uniform_int random_number_generator 0 (length majors - 1)
  end.

(** ** TreeClassification *)

(** The members of [Tree] and [TreeClassification] that the code reads or
    writes. *)
Record TreeClassification := mkTree {
  data : Data;
  dependent_varID : N;
  min_node_size : N;
  importance_mode : ImportanceMode;
  no_split_variables : list N;
  random_number_generator : mt19937_64;
  sampleIDs : list (list N);
  child_nodeIDs : list (list N);
  split_varIDs : list N;
  split_values : list double;
  variable_importance : list double;
  oob_sampleIDs : list N;
  num_samples_oob : N;
  predictions : list (list double);
  class_values : list double;
  response_classIDs : list N
}.

Definition with_split_values (t : TreeClassification) (v : list double) :=
  mkTree (data t) (dependent_varID t) (min_node_size t) (importance_mode t)
         (no_split_variables t) (random_number_generator t) (sampleIDs t)
         (child_nodeIDs t) (split_varIDs t) v (variable_importance t)
         (oob_sampleIDs t) (num_samples_oob t) (predictions t)
         (class_values t) (response_classIDs t).

Definition with_split_varIDs (t : TreeClassification) (v : list N) :=
  mkTree (data t) (dependent_varID t) (min_node_size t) (importance_mode t)
         (no_split_variables t) (random_number_generator t) (sampleIDs t)
         (child_nodeIDs t) v (split_values t) (variable_importance t)
         (oob_sampleIDs t) (num_samples_oob t) (predictions t)
         (class_values t) (response_classIDs t).

Definition with_variable_importance (t : TreeClassification) (v : list double) :=
  mkTree (data t) (dependent_varID t) (min_node_size t) (importance_mode t)
         (no_split_variables t) (random_number_generator t) (sampleIDs t)
         (child_nodeIDs t) (split_varIDs t) (split_values t) v
         (oob_sampleIDs t) (num_samples_oob t) (predictions t)
         (class_values t) (response_classIDs t).

Definition getPredictions (t : TreeClassification) : list (list double) :=
  predictions t.
Definition getOobSampleIDs (t : TreeClassification) : list N := oob_sampleIDs t.
Definition getNumSamplesOob (t : TreeClassification) : N := num_samples_oob t.

(** [split_values[nodeID] = v] *)
Definition set_split_value (t : TreeClassification) (nodeID : N) (v : double) :=
  with_split_values t (<[N.to_nat nodeID := v]> (split_values t)).

(** [split_varIDs[nodeID] = v] *)
Definition set_split_varID (t : TreeClassification) (nodeID : N) (v : N) :=
  with_split_varIDs t (<[N.to_nat nodeID := v]> (split_varIDs t)).

(** [sampleIDs[nodeID]] *)
Definition node_samples (t : TreeClassification) (nodeID : N) : list N :=
  default [] (sampleIDs t !! N.to_nat nodeID).

(** [data->get(sampleID, dependent_varID)] *)
Definition response (t : TreeClassification) (sampleID : N) : double :=
  get (data t) sampleID (dependent_varID t).

(** The class ID of a sample: [response_classIDs] read at [sampleID]. *)
Definition sample_classID (t : TreeClassification) (sampleID : N) : N :=
  default 0 (response_classIDs t !! N.to_nat sampleID).

(** The loop of [estimate]: count classes over the samples in the node. *)
Definition count_classes (t : TreeClassification) (samples : list N)
  : class_count_map :=
  fold_left (fun class_count sampleID => incr_count class_count (response t sampleID))
            samples [].

Definition estimate (t : TreeClassification) (nodeID : N) : option double :=
  mostFrequentValue (count_classes t (node_samples t nodeID))
                    (random_number_generator t).

(** [counts[i]++] on an array of [size_t] *)
Definition array_incr (counts : list N) (i : N) : list N :=
  alter SizeT.incr (N.to_nat i) counts.

(** The state of the counting loop of [findBestSplit]. *)
Record SplitCounts := mkCounts {
  n_left : N;
  n_right : N;
  class_counts_left : list N;
  class_counts_right : list N
}.

(** "Virtually split at this value. Count overall and for classes." *)
Definition count_split (t : TreeClassification) (samples : list N)
    (varID : N) (split_value : double) : SplitCounts :=
  let num_classes := length (class_values t) in
  fold_left
    (fun c sampleID =>
       let value := get (data t) sampleID varID in
       let classID := sample_classID t sampleID in
       if PrimFloat.leb value split_value
       then mkCounts (SizeT.incr (n_left c)) (n_right c)
                     (array_incr (class_counts_left c) classID)
                     (class_counts_right c)
       else mkCounts (n_left c) (SizeT.incr (n_right c))
                     (class_counts_left c)
                     (array_incr (class_counts_right c) classID))
    samples
    (mkCounts 0 0 (replicate num_classes 0) (replicate num_classes 0)).

(** "Sum of squares": [sum += counts[i] * counts[i]] over the classes; the
    product is a [size_t], the sum a [double]. *)
Definition sum_of_squares (counts : list N) : double :=
  fold_left (fun sum c => PrimFloat.add sum (Double.of_size_t (SizeT.mul c c)))
            counts 0%float.

(** "Decrease of impurity" *)
Definition decrease_of (c : SplitCounts) : double :=
  PrimFloat.add
    (PrimFloat.div (sum_of_squares (class_counts_left c)) (Double.of_size_t (n_left c)))
    (PrimFloat.div (sum_of_squares (class_counts_right c)) (Double.of_size_t (n_right c))).

Record BestSplit := mkBest {
  best_value : double;
  best_varID : N;
  best_decrease : double
}.

Definition no_best : BestSplit := mkBest 0%float 0 (-1)%float.

(** The body of the loop over the possible split values. *)
Definition try_split_value (t : TreeClassification) (samples : list N)
    (varID : N) (best : BestSplit) (split_value : double) : BestSplit :=
  let c := count_split t samples varID split_value in
  if (n_left c =? 0) || (n_right c =? 0) then best
  else
    let decrease := decrease_of c in
    if Double.gtb decrease (best_decrease best)
    then mkBest split_value varID decrease
    else best.

(** The body of the loop over the possible split variables. *)
Definition try_variable (t : TreeClassification) (samples : list N)
    (best : BestSplit) (varID : N) : BestSplit :=
  let possible_split_values := getAllValues (data t) samples varID in
  if (length possible_split_values <? 2)%nat then best
  else fold_left (try_split_value t samples varID) possible_split_values best.

Definition search_best_split (t : TreeClassification) (nodeID : N)
    (possible_split_varIDs : list N) : BestSplit :=
  fold_left (try_variable t (node_samples t nodeID)) possible_split_varIDs no_best.

(** The class counts of [addGiniImportance]. *)
Definition count_node_classes (t : TreeClassification) (samples : list N) : list N :=
  fold_left (fun class_counts sampleID => array_incr class_counts (sample_classID t sampleID))
            samples (replicate (length (class_values t)) 0).

(** "No variable importance for no split variables" *)
Definition skip_no_split (no_split : list N) (varID : N) : N :=
  fold_left (fun tempvarID skip => if skip <=? varID then SizeT.decr tempvarID else tempvarID)
            no_split varID.

Definition addGiniImportance (t : TreeClassification) (nodeID varID : N)
    (decrease : double) : TreeClassification :=
  let samples := node_samples t nodeID in
  let sum_node := sum_of_squares (count_node_classes t samples) in
  let best_gini :=
    PrimFloat.sub decrease
      (PrimFloat.div sum_node (Double.of_size_t (N.of_nat (length samples)))) in
  let tempvarID := skip_no_split (no_split_variables t) varID in
  with_variable_importance t
    (alter (fun x => PrimFloat.add x best_gini) (N.to_nat tempvarID)
           (variable_importance t)).

(** Returns [(stop, tree)]. *)
Definition findBestSplit (t : TreeClassification) (nodeID : N)
    (possible_split_varIDs : list N) : bool * TreeClassification :=
  let best := search_best_split t nodeID possible_split_varIDs in
  if PrimFloat.ltb (best_decrease best) 0%float then (true, t)
  else
    let t1 := set_split_varID t nodeID (best_varID best) in
    let t2 := set_split_value t1 nodeID (best_value best) in
    let t3 := if ImportanceMode_eqb (importance_mode t2) IMP_GINI
              then addGiniImportance t2 nodeID (best_varID best) (best_decrease best)
              else t2 in
    (false, t3).

(** The purity loop of [splitNodeInternal]: [first] is [i == 0]; the result
    is [(pure, pure_value)]. *)
Fixpoint purity_loop (values : list double) (first : bool) (pure_value : double)
  : bool * double :=
  match values with
  | [] => (true, pure_value)
  | value :: rest =>
      if negb first && Double.neb value pure_value then (false, pure_value)
      else purity_loop rest false value
  end.

(** Returns [(is_leaf, tree)]; [None] when the estimate is undefined. *)
Definition splitNodeInternal (t : TreeClassification) (nodeID : N)
    (possible_split_varIDs : list N) : option (bool * TreeClassification) :=
  let samples := node_samples t nodeID in
  if N.of_nat (length samples) <=? min_node_size t then
    v ← estimate t nodeID; Some (true, set_split_value t nodeID v)
  else
    let '(pure, pure_value) := purity_loop (map (response t) samples) true 0%float in
    if pure then Some (true, set_split_value t nodeID pure_value)
    else
      let '(stop, t') := findBestSplit t nodeID possible_split_varIDs in
      if stop then
        v ← estimate t' nodeID; Some (true, set_split_value t' nodeID v)
      else Some (false, t').

(** ** ForestClassification *)

(** Modelled from the spec: the constructor of [Tree] that
    [loadForest] and [loadFromFileInternal] call (declared in [Tree.h]); it
    stores the three loaded arrays, and every other member starts empty. *)
Definition loaded_tree (child_nodeIDs : list (list N)) (split_varIDs : list N)
    (split_values : list double) (class_values : list double)
    (response_classIDs : list N) : TreeClassification :=
  mkTree (mkData (fun _ _ => 0%float)) 0 0 IMP_NONE [] (mkRng (fun lo _ => lo)) []
         child_nodeIDs split_varIDs split_values [] [] 0 []
         class_values response_classIDs.

(** What [loadFromFileInternal] reads from [infile], field by field (the
    byte-level readers [readVector1D] and [readVector2D] are in
    [utility.h]). *)
Record SavedTree := mkSavedTree {
  saved_child_nodeIDs : list (list N);
  saved_split_varIDs : list N;
  saved_split_values : list double
}.

Record SavedForest := mkSavedForest {
  num_variables_saved : N;
  treetype : TreeType;
  saved_class_values : list double;
  saved_trees : list SavedTree
}.

(** [std::map<std::pair<double, double>, size_t>] *)
Definition table : Type := list ((double * double) * N).

(** [std::less] on [std::pair<double, double>] and the key equivalence that
    [std::map] derives from it. *)
Definition pair_lt (a b : double * double) : bool :=
  PrimFloat.ltb (fst a) (fst b)
  || (negb (PrimFloat.ltb (fst b) (fst a)) && PrimFloat.ltb (snd a) (snd b)).

Definition pair_equiv (a b : double * double) : bool :=
  negb (pair_lt a b) && negb (pair_lt b a).

(** [++classification_table[key]] *)
Fixpoint table_incr (tbl : table) (key : double * double) : table :=
  match tbl with
  | [] => [(key, SizeT.incr 0)]
  | (k, c) :: rest =>
      if pair_equiv k key then (k, SizeT.incr c) :: rest
      else (k, c) :: table_incr rest key
  end.

(** [classification_table[key]] read without inserting *)
Fixpoint table_get (tbl : table) (key : double * double) : N :=
  match tbl with
  | [] => 0
  | (k, c) :: rest => if pair_equiv k key then c else table_get rest key
  end.

Inductive result (A : Type) :=
  | Ok (a : A)
  | runtime_error (what : string).
Arguments Ok {A} a.
Arguments runtime_error {A} what.

Module Forest.

Record ForestClassification := mkForest {
  num_trees : N;
  num_samples : N;
  num_variables : N;
  mtry : N;
  min_node_size : N;
  prediction_mode : bool;
  dependent_varID : N;
  data : Data;
  random_number_generator : mt19937_64;
  trees : list TreeClassification;
  class_values : list double;
  response_classIDs : list N;
  predictions : list (list double);
  classification_table : table;
  overall_prediction_error : double
}.

(** [find(class_values.begin(), class_values.end(), value)
     - class_values.begin()] *)
Fixpoint find_index (class_values : list double) (value : double) : nat :=
  match class_values with
  | [] => 0%nat
  | c :: rest =>
      if PrimFloat.eqb c value then 0%nat else S (find_index rest value)
  end.

(** The body of the loop of [initInternal] that creates [class_values] and
    [response_classIDs]; [classID] is a [uint]. *)
Definition add_class (data : Data) (dependent_varID : N)
    (st : list double * list N) (i : nat) : list double * list N :=
  let value := get data (N.of_nat i) dependent_varID in
  let classID := UInt.wrap (N.of_nat (find_index (fst st) value)) in
  (if classID =? N.of_nat (length (fst st)) then fst st ++ [value] else fst st,
   snd st ++ [classID]).

Definition create_classes (f : ForestClassification) : list double * list N :=
  fold_left (add_class (data f) (dependent_varID f))
            (seq 0 (N.to_nat (num_samples f)))
            (class_values f, response_classIDs f).

Definition initInternal (f : ForestClassification) : ForestClassification :=
  let mtry' :=
    if mtry f =? 0 then
      let temp :=
        Double.to_int (PrimFloat.sqrt (Double.of_size_t (SizeT.decr (num_variables f)))) in
      UInt.wrap (Z.to_N (Z.max 1 temp))
    else mtry f in
  let min_node_size' :=
    if min_node_size f =? 0 then DEFAULT_MIN_NODE_SIZE_CLASSIFICATION
    else min_node_size f in
  let classes :=
    if prediction_mode f then (class_values f, response_classIDs f)
    else create_classes f in
  mkForest (num_trees f) (num_samples f) (num_variables f)
           mtry' min_node_size' (prediction_mode f)
           (dependent_varID f) (data f) (random_number_generator f) (trees f)
           (fst classes) (snd classes)
           (predictions f) (classification_table f) (overall_prediction_error f).

(** "For each tree loop over OOB samples and count classes": the votes of
    one tree, [class_counts[sampleID][value]++] for its first
    [getNumSamplesOob()] OOB samples. *)
Definition count_tree_votes (class_counts : list class_count_map)
    (tree : TreeClassification) : list class_count_map :=
  fold_left
    (fun cc '(sampleID, value) =>
       alter (fun m => incr_count m value) (N.to_nat sampleID) cc)
    (take (N.to_nat (getNumSamplesOob tree))
          (zip (getOobSampleIDs tree) (default [] (getPredictions tree !! 0%nat))))
    class_counts.

Definition count_oob_votes (f : ForestClassification) : list class_count_map :=
  fold_left count_tree_votes
    (take (N.to_nat (num_trees f)) (trees f))
    (replicate (N.to_nat (num_samples f)) []).

(** "Compute majority vote for each sample" *)
Definition majority_vote (g : mt19937_64) (class_count : class_count_map)
  : option (list double) :=
  match class_count with
  | [] => Some [Double.NAN]
  | _ => v ← mostFrequentValue class_count g; Some [v]
  end.

(** The state of the loop "Compare predictions with true data". *)
Record Tally := mkTally {
  num_missclassifications : N;
  tally_table : table
}.

Definition compare_prediction (f : ForestClassification) (acc : Tally)
    (i : nat) (prediction : list double) : Tally :=
  let predicted_value := default 0%float (prediction !! 0%nat) in
  if negb (Double.isnan predicted_value) then
    let real_value := get (data f) (N.of_nat i) (dependent_varID f) in
    mkTally
      (if Double.neb predicted_value real_value
       then SizeT.incr (num_missclassifications acc)
       else num_missclassifications acc)
      (table_incr (tally_table acc) (real_value, predicted_value))
  else acc.

Fixpoint compare_predictions (f : ForestClassification) (acc : Tally)
    (i : nat) (predictions : list (list double)) : Tally :=
  match predictions with
  | [] => acc
  | p :: rest => compare_predictions f (compare_prediction f acc i p) (S i) rest
  end.

Definition computePredictionErrorInternal (f : ForestClassification)
  : option ForestClassification :=
  votes ← mapM (majority_vote (random_number_generator f)) (count_oob_votes f);
  let predictions' := predictions f ++ votes in
  let tally := compare_predictions f (mkTally 0 (classification_table f)) 0 predictions' in
  Some (mkForest (num_trees f) (num_samples f) (num_variables f)
          (mtry f) (min_node_size f) (prediction_mode f)
          (dependent_varID f) (data f) (random_number_generator f) (trees f)
          (class_values f) (response_classIDs f)
          predictions'
          (tally_table tally)
          (PrimFloat.div (Double.of_size_t (num_missclassifications tally))
                         (Double.of_size_t (N.of_nat (length predictions'))))).

(** "If dependent variable not in test data, change variable IDs
    accordingly" *)
Definition adjust_varIDs (f : ForestClassification) (num_variables_saved : N)
    (split_varIDs : list N) : list N :=
  if num_variables f <? num_variables_saved then
    map (fun varID => if dependent_varID f <=? varID then SizeT.decr varID else varID)
        split_varIDs
  else split_varIDs.

Definition load_tree (f : ForestClassification) (infile : SavedForest)
    (st : SavedTree) : TreeClassification :=
  loaded_tree (saved_child_nodeIDs st)
              (adjust_varIDs f (num_variables_saved infile) (saved_split_varIDs st))
              (saved_split_values st)
              (saved_class_values infile) (response_classIDs f).

Definition loadFromFileInternal (f : ForestClassification) (infile : SavedForest)
  : result ForestClassification :=
  if negb (treetype infile =? TREE_CLASSIFICATION) then
    runtime_error "Wrong treetype. Loaded file is not a classification forest."
  else
    Ok (mkForest (num_trees f) (num_samples f) (num_variables f)
          (mtry f) (min_node_size f) (prediction_mode f)
          (dependent_varID f) (data f) (random_number_generator f)
          (trees f ++ map (load_tree f infile)
                          (take (N.to_nat (num_trees f)) (saved_trees infile)))
          (saved_class_values infile) (response_classIDs f)
          (predictions f) (classification_table f)
          (overall_prediction_error f)).

End Forest.

(** ** Concrete data sets used to run the code *)

Definition matrix (rows : list (list double)) : Data :=
  mkData (fun row col =>
            default 0%float (rows !! N.to_nat row ≫= fun r => r !! N.to_nat col)).

Definition first_draw : mt19937_64 := mkRng (fun lo _ => lo).

(** Six samples, one feature (column 0), response in column 1: classes 0
    and 1 separated at 3.0. The root node holds every sample. *)
Definition separable_data : Data :=
  matrix [[1; 0]; [2; 0]; [3; 0]; [4; 1]; [5; 1]; [6; 1]]%float.

Definition separable_tree : TreeClassification :=
  mkTree separable_data 1 1 IMP_GINI [1] first_draw
         [[0; 1; 2; 3; 4; 5]] [[0]; [0]] [0] [0%float] [0%float] [] 0 []
         [0; 1]%float [0; 0; 0; 1; 1; 1].

(** Five samples that all have response 7.0. *)
Definition constant_data : Data :=
  matrix [[1; 7]; [2; 7]; [3; 7]; [4; 7]; [5; 7]]%float.

Definition constant_tree (min_node_size : N) : TreeClassification :=
  mkTree constant_data 1 min_node_size IMP_NONE [1] first_draw
         [[0; 1; 2; 3; 4]] [[0]; [0]] [0] [0%float] [0%float] [] 0 []
         [7%float] [0; 0; 0; 0; 0].

(** Four samples whose only feature is constant, with two classes: no
    threshold separates them. *)
Definition unsplittable_data : Data :=
  matrix [[5; 0]; [5; 1]; [5; 1]; [5; 0]]%float.

Definition unsplittable_tree : TreeClassification :=
  mkTree unsplittable_data 1 1 IMP_GINI [1] first_draw
         [[0; 1; 2; 3]] [[0]; [0]] [0] [0%float] [0%float] [] 0 []
         [0; 1]%float [0; 1; 1; 0].

(** ** The notions of the specification

    These follow the words of the specification, not the loops of the code;
    the properties below relate the two. *)

(** The routing predicate: a sample goes left iff its value of the split
    variable is [<=] the threshold. *)
Definition goes_left (t : TreeClassification) (varID : N) (threshold : double)
    (sampleID : N) : bool :=
  PrimFloat.leb (get (data t) sampleID varID) threshold.

(** [L = {s : Data[s,v] <= θ}] and [R], its complement in the node. *)
Definition left_samples (t : TreeClassification) (samples : list N)
    (varID : N) (threshold : double) : list N :=
  List.filter (goes_left t varID threshold) samples.

Definition right_samples (t : TreeClassification) (samples : list N)
    (varID : N) (threshold : double) : list N :=
  List.filter (fun s => negb (goes_left t varID threshold s)) samples.

(** [L_k]: the number of samples of class [k] in a set of samples. *)
Definition class_size (t : TreeClassification) (part : list N) (k : N) : N :=
  N.of_nat (length (List.filter (fun s => sample_classID t s =? k) part)).

(** [Σ_k c_k²], the classes taken in the order of their IDs. *)
Definition sum_squared_counts (t : TreeClassification) (part : list N) : double :=
  fold_left
    (fun sum k =>
       PrimFloat.add sum (Double.of_size_t (class_size t part k * class_size t part k)))
    (map N.of_nat (seq 0 (length (class_values t)))) 0%float.

(** [score(θ,v) = (Σ_k L_k²)/|L| + (Σ_k R_k²)/|R|] *)
Definition score (t : TreeClassification) (samples : list N)
    (c : N * double) : double :=
  let L := left_samples t samples (fst c) (snd c) in
  let R := right_samples t samples (fst c) (snd c) in
  PrimFloat.add
    (PrimFloat.div (sum_squared_counts t L) (Double.of_size_t (N.of_nat (length L))))
    (PrimFloat.div (sum_squared_counts t R) (Double.of_size_t (N.of_nat (length R)))).

(** The candidate (variable, threshold) pairs in the order in which they are
    tried; a variable with fewer than two distinct values has none. *)
Definition candidates (t : TreeClassification) (samples : list N)
    (possible_split_varIDs : list N) : list (N * double) :=
  flat_map
    (fun varID =>
       let values := getAllValues (data t) samples varID in
       if (length values <? 2)%nat then [] else map (pair varID) values)
    possible_split_varIDs.

(** Neither partition is empty. *)
Definition nonempty_children (t : TreeClassification) (samples : list N)
    (c : N * double) : bool :=
  match left_samples t samples (fst c) (snd c),
        right_samples t samples (fst c) (snd c) with
  | _ :: _, _ :: _ => true
  | _, _ => false
  end.

(** The number of samples of a node whose response equals [x]. *)
Definition votes_for (t : TreeClassification) (samples : list N) (x : double) : nat :=
  length (List.filter (fun s => PrimFloat.eqb (response t s) x) samples).

(** The output index of a split variable: the variable ID minus the number
    of no-split variables less than it. *)
Definition importance_index (no_split : list N) (varID : N) : N :=
  varID - N.of_nat (length (List.filter (fun skip => skip <? varID) no_split)).

(** [I = Δ − sum_node / |samples(n)|] *)
Definition gini_importance (t : TreeClassification) (samples : list N)
    (decrease : double) : double :=
  PrimFloat.sub decrease
    (PrimFloat.div (sum_squared_counts t samples)
                   (Double.of_size_t (N.of_nat (length samples)))).

(** Selecting the maximal score, the first seen winning ties: the outcome of
    running through the scored candidates [cs] in order, starting from the
    score [-1]. [None]: no candidate scored above [-1]. [Some c]: [c] is in
    the list, scores above [-1], every candidate before it scores strictly
    less (is not [>=]) and no candidate after it scores strictly more. *)
Definition first_maximum {C : Type} (sc : C -> double) (cs : list C)
    (r : option C) : Prop :=
  match r with
  | None => Forall (fun c => PrimFloat.ltb (-1)%float (sc c) = false) cs
  | Some c =>
      exists pre post,
        cs = pre ++ c :: post
        /\ PrimFloat.ltb (-1)%float (sc c) = true
        /\ Forall (fun c' => PrimFloat.leb (sc c) (sc c') = false) pre
        /\ Forall (fun c' => PrimFloat.ltb (sc c) (sc c') = false) post
  end.

(** The record that [findBestSplit] keeps for a candidate. *)
Definition best_of (sc : N * double -> double) (r : option (N * double)) : BestSplit :=
  match r with
  | None => no_best
  | Some c => mkBest (snd c) (fst c) (sc c)
  end.

(** "If better than before, use this" *)
Definition improve (sc : N * double -> double) (best : BestSplit)
    (c : N * double) : BestSplit :=
  if Double.gtb (sc c) (best_decrease best)
  then mkBest (snd c) (fst c) (sc c)
  else best.

(** The sign bit is clear, or the number is NaN. *)
Definition sf_unsigned (x : spec_float) : Prop :=
  match x with
  | S754_nan => True
  | S754_zero s | S754_infinity s | S754_finite s _ _ => s = false
  end.

Definition unsigned (x : double) : Prop := sf_unsigned (Prim2SF x).

(** The array of class counts that the counting loops hold after running
    over the samples [part]. *)
Definition counts_of (t : TreeClassification) (part : list N) : list N :=
  map (fun k => SizeT.wrap (class_size t part (N.of_nat k)))
      (seq 0 (length (class_values t))).

(** The test and the score of the loop body of [findBestSplit], as functions
    of the candidate. *)
Definition counted_nonempty (t : TreeClassification) (samples : list N)
    (c : N * double) : bool :=
  let k := count_split t samples (fst c) (snd c) in
  negb ((n_left k =? 0) || (n_right k =? 0)).

Definition counted_score (t : TreeClassification) (samples : list N)
    (c : N * double) : double :=
  decrease_of (count_split t samples (fst c) (snd c)).

(** "Save best values" and, in GINI mode, the importance update: the tree
    that [findBestSplit] returns when it found the split [c] with decrease
    [decrease]. *)
Definition store_split (t : TreeClassification) (nodeID : N) (c : N * double)
    (decrease : double) : TreeClassification :=
  let t2 := set_split_value (set_split_varID t nodeID (fst c)) nodeID (snd c) in
  if ImportanceMode_eqb (importance_mode t2) IMP_GINI
  then addGiniImportance t2 nodeID (fst c) decrease
  else t2.

(** The outcome of [findBestSplit] for the selection [r]. *)
Definition split_outcome (t : TreeClassification) (nodeID : N)
    (sc : N * double -> double) (r : option (N * double))
  : bool * TreeClassification :=
  match r with
  | None => (true, t)
  | Some c => (false, store_split t nodeID c (sc c))
  end.

(** No two keys of the map are [==]. *)
Fixpoint keys_distinct (m : class_count_map) : Prop :=
  match m with
  | [] => True
  | (k, _) :: rest =>
      (forall k' c', In (k', c') rest -> PrimFloat.eqb k k' = false)
      /\ keys_distinct rest
  end.

(** The index that [mostFrequentValue] takes among [n] tied maxima. *)
Definition drawn_index (g : mt19937_64) (n : nat) : nat :=
  match n with
  | 1%nat => 0%nat
  | _ => uniform_int g 0 (n - 1)
  end.

(** The map built from the samples [seen]: its keys are pairwise different
    responses of [seen], each with its number of votes, and every response
    has a key. *)
Definition counts_votes (t : TreeClassification) (m : class_count_map)
    (seen : list N) : Prop :=
  keys_distinct m
  /\ (forall k c, In (k, c) m ->
        (exists s, In s seen /\ k = response t s)
        /\ c = SizeT.wrap (N.of_nat (votes_for t seen k)))
  /\ (forall s, In s seen ->
        exists k c, In (k, c) m /\ PrimFloat.eqb k (response t s) = true).

(** The four samples of [unsplittable_data] in a node that is small enough
    to be a leaf at once: two votes for each class. *)
Definition tied_tree : TreeClassification :=
  mkTree unsplittable_data 1 4 IMP_GINI [1] first_draw
         [[0; 1; 2; 3]] [[0]; [0]] [0] [0%float] [0%float] [] 0 []
         [0; 1]%float [0; 1; 1; 0].

(** ** The OOB error in the words of the specification *)

(** The votes that sample [i] receives: one from every tree for which it is
    out of bag. *)
Definition oob_votes (f : Forest.ForestClassification) (i : N) : list double :=
  flat_map
    (fun tree =>
       map snd
         (List.filter (fun sv => fst sv =? i)
            (take (N.to_nat (getNumSamplesOob tree))
                  (zip (getOobSampleIDs tree) (default [] (getPredictions tree !! 0%nat))))))
    (take (N.to_nat (Forest.num_trees f)) (Forest.trees f)).

(** The defined samples: those with at least one OOB vote. *)
Definition defined_samples (f : Forest.ForestClassification) : list N :=
  List.filter (fun i => match oob_votes f i with [] => false | _ => true end)
              (map N.of_nat (seq 0 (N.to_nat (Forest.num_samples f)))).

(** The prediction recorded for sample [i]. *)
Definition prediction_of (f : Forest.ForestClassification) (i : N) : double :=
  default Double.NAN (Forest.predictions f !! N.to_nat i ≫= fun p => p !! 0%nat).

(** The defined samples whose prediction differs from the true response. *)
Definition misclassified_samples (f f' : Forest.ForestClassification) : list N :=
  List.filter
    (fun i => Double.neb (prediction_of f' i)
                         (get (Forest.data f) i (Forest.dependent_varID f)))
    (defined_samples f).

(** [(# misclassified defined samples) / (# defined samples)] *)
Definition oob_error (f f' : Forest.ForestClassification) : double :=
  PrimFloat.div
    (Double.of_size_t (N.of_nat (length (misclassified_samples f f'))))
    (Double.of_size_t (N.of_nat (length (defined_samples f)))).

(** Two samples with responses 0 and 1, and one tree whose bootstrap drew
    sample 1 twice: sample 0 is out of bag and the tree, a single leaf of
    value 1, predicts 1 for it; sample 1 is never out of bag. *)
Definition two_samples : Data := matrix [[1; 0]; [2; 1]]%float.

Definition leaf_tree : TreeClassification :=
  mkTree two_samples 1 1 IMP_NONE [1] first_draw
         [[1; 1]] [[0]; [0]] [0] [1%float] [0%float] [0] 1 [[1%float]]
         [0; 1]%float [0; 1].

Definition one_tree_forest : Forest.ForestClassification :=
  Forest.mkForest 1 2 2 1 1 false 1 two_samples first_draw [leaf_tree]
                  [0; 1]%float [0; 1] [] [] 0%float.

(** A forest saved with three variables (the dependent one at index 1),
    loaded for a data set of two variables. *)
Definition saved_forest (tag : TreeType) : SavedForest :=
  mkSavedForest 3 tag [0; 1]%float
    [mkSavedTree [[1; 0; 0]; [2; 0; 0]] [2; 0; 0] [3; 0; 1]%float;
     mkSavedTree [[0]; [0]] [0] [1%float]].

Definition empty_forest (num_trees num_variables : N) : Forest.ForestClassification :=
  Forest.mkForest num_trees 2 num_variables 1 1 true 1 two_samples first_draw []
                  [] [] [] [] 0%float.

(** A number that is not NaN and whose sign bit is clear: [+0], a positive
    finite number or [+∞]. *)
Definition sf_nonneg (x : spec_float) : Prop :=
  match x with
  | S754_nan => False
  | S754_zero s | S754_infinity s | S754_finite s _ _ => s = false
  end.

Definition sf_positive_finite (x : spec_float) : Prop :=
  match x with
  | S754_finite false _ _ => True
  | _ => False
  end.

Definition nonneg (x : double) : Prop := sf_nonneg (Prim2SF x).

Definition positive_finite (x : double) : Prop := sf_positive_finite (Prim2SF x).

(** The first maximum of the scores [sc] over the candidates [cs]: [None]
    when there is no candidate; [Some c] when [c] is a candidate, every
    candidate before it scores strictly less and every candidate after it
    scores less or the same. *)
Definition first_argmax {C : Type} (sc : C -> double) (cs : list C)
    (r : option C) : Prop :=
  match r with
  | None => cs = []
  | Some c =>
      exists pre post,
        cs = pre ++ c :: post
        /\ Forall (fun c' => PrimFloat.ltb (sc c') (sc c) = true) pre
        /\ Forall (fun c' => PrimFloat.leb (sc c') (sc c) = true) post
  end.

(** A forest before [initInternal], for a data set of ten variables. *)
Definition fresh_forest (data : Data) (num_samples num_variables : N)
  : Forest.ForestClassification :=
  Forest.mkForest 1 num_samples num_variables 0 0 false 1 data first_draw []
                  [] [] [] [] 0%float.

(** ** Further definitions *)

(** The sum of an array of counts. *)
Definition sum_counts (counts : list N) : N := fold_right N.add 0 counts.

(** [t'] differs from [t] at most in the entries of node [nodeID] in
    [split_varIDs] and [split_values] and in the values of
    [variable_importance]: every other member is the same, no array has
    changed its length, and the entries of the other nodes are the same. *)
Definition writes_only_node (t t' : TreeClassification) (nodeID : N) : Prop :=
  data t' = data t
  /\ dependent_varID t' = dependent_varID t
  /\ min_node_size t' = min_node_size t
  /\ importance_mode t' = importance_mode t
  /\ no_split_variables t' = no_split_variables t
  /\ random_number_generator t' = random_number_generator t
  /\ sampleIDs t' = sampleIDs t
  /\ child_nodeIDs t' = child_nodeIDs t
  /\ oob_sampleIDs t' = oob_sampleIDs t
  /\ num_samples_oob t' = num_samples_oob t
  /\ predictions t' = predictions t
  /\ class_values t' = class_values t
  /\ response_classIDs t' = response_classIDs t
  /\ length (split_varIDs t') = length (split_varIDs t)
  /\ length (split_values t') = length (split_values t)
  /\ length (variable_importance t') = length (variable_importance t)
  /\ forall j, j <> N.to_nat nodeID ->
       split_varIDs t' !! j = split_varIDs t !! j
       /\ split_values t' !! j = split_values t !! j.

(** The sum of the counts of a confusion table. *)
Definition table_total (tbl : table) : N := sum_counts (map snd tbl).

(** [predictions[i][0]] *)
Definition first_value (prediction : list double) : double :=
  default 0%float (prediction !! 0%nat).

(** The predictions that are not NaN. *)
Definition defined_predictions (predictions : list (list double)) : list (list double) :=
  List.filter (fun p => negb (Double.isnan (first_value p))) predictions.

(** The number of values of a list that are [==] to [x]. *)
Definition value_votes (values : list double) (x : double) : nat :=
  length (List.filter (fun v => PrimFloat.eqb v x) values).

(** ** Further functions of the two files *)

(** [trees[tree_idx]->getPredictions()[0][sample_idx]] *)
Definition tree_prediction (tree : TreeClassification) (sample_idx : nat) : double :=
  default 0%float (default [] (getPredictions tree !! 0%nat) !! sample_idx).

(** The votes of the trees for one sample, in the order of the trees. *)
Definition tree_votes (f : Forest.ForestClassification) (sample_idx : nat) : list double :=
  map (fun tree => tree_prediction tree sample_idx)
      (take (N.to_nat (Forest.num_trees f)) (Forest.trees f)).

(** The body of the loop of [predictInternal] over the samples: "Count
    classes over trees and save class with maximum count". *)
Definition predict_sample (f : Forest.ForestClassification) (sample_idx : nat)
  : option (list double) :=
  let class_count :=
    fold_left (fun class_count tree => incr_count class_count (tree_prediction tree sample_idx))
              (take (N.to_nat (Forest.num_trees f)) (Forest.trees f)) [] in
  v ← mostFrequentValue class_count (Forest.random_number_generator f); Some [v].

(** [ForestClassification::predictInternal]; the number of samples is read
    from [trees[0]], which has to exist. *)
Definition predictInternal (f : Forest.ForestClassification)
  : option Forest.ForestClassification :=
  tree0 ← Forest.trees f !! 0%nat;
  let num_prediction_samples := length (default [] (getPredictions tree0 !! 0%nat)) in
  votes ← mapM (predict_sample f) (seq 0 num_prediction_samples);
  Some (Forest.mkForest (Forest.num_trees f) (Forest.num_samples f) (Forest.num_variables f)
          (Forest.mtry f) (Forest.min_node_size f) (Forest.prediction_mode f)
          (Forest.dependent_varID f) (Forest.data f) (Forest.random_number_generator f)
          (Forest.trees f) (Forest.class_values f) (Forest.response_classIDs f)
          (Forest.predictions f ++ votes)
          (Forest.classification_table f) (Forest.overall_prediction_error f)).

(** The loop of [TreeClassification::computePredictionAccuracyInternal]:
    [i] is the index of the first prediction of [predictions]. *)
Fixpoint count_missclassifications (t : TreeClassification) (i : nat)
    (predictions : list double) (num_missclassifications : N) : N :=
  match predictions with
  | [] => num_missclassifications
  | predicted_value :: rest =>
      let real_value := response t (default 0 (oob_sampleIDs t !! i)) in
      count_missclassifications t (S i) rest
        (if Double.neb predicted_value real_value
         then SizeT.incr num_missclassifications
         else num_missclassifications)
  end.

Definition computePredictionAccuracyInternal (t : TreeClassification) : double :=
  let predictions0 := default [] (predictions t !! 0%nat) in
  let num_predictions := N.of_nat (length predictions0) in
  let num_missclassifications := count_missclassifications t 0 predictions0 0 in
  PrimFloat.sub 1%float
    (PrimFloat.div (Double.of_size_t num_missclassifications)
                   (Double.of_size_t num_predictions)).

(** [TreeClassification::addPrediction] *)
Definition addPrediction (t : TreeClassification) (nodeID sampleID : N)
  : TreeClassification :=
  mkTree (data t) (dependent_varID t) (min_node_size t) (importance_mode t)
         (no_split_variables t) (random_number_generator t) (sampleIDs t)
         (child_nodeIDs t) (split_varIDs t) (split_values t) (variable_importance t)
         (oob_sampleIDs t) (num_samples_oob t)
         (alter (fun predictions0 =>
                   <[N.to_nat sampleID := default 0%float (split_values t !! N.to_nat nodeID)]>
                     predictions0)
                0%nat (predictions t))
         (class_values t) (response_classIDs t).

(** [ForestClassification::saveToFileInternal]: the three fields it writes,
    in the order in which [loadFromFileInternal] reads them; [outfile] holds
    the trees that follow them in the file. *)
Definition saveToFileInternal (f : Forest.ForestClassification) (outfile : list SavedTree)
  : SavedForest :=
  mkSavedForest (Forest.num_variables f) TREE_CLASSIFICATION (Forest.class_values f) outfile.

(** ** Further notions and data *)

(** A data set without its column [col]: the columns after it move down by
    one. *)
Definition drop_column (d : Data) (col : N) : Data :=
  mkData (fun row c => get d row (if c <? col then c else c + 1)).

(** Two samples of the same class; the tree drew sample 1 twice and is a
    single leaf of value 0, which it predicts for the out-of-bag sample 0. *)
Definition same_class_samples : Data := matrix [[1; 0]; [2; 0]]%float.

Definition same_class_tree : TreeClassification :=
  mkTree same_class_samples 1 1 IMP_NONE [1] first_draw
         [[1; 1]] [[0]; [0]] [0] [0%float] [0%float] [0] 1 [[0%float]]
         [0%float] [0; 0].

Definition same_class_forest : Forest.ForestClassification :=
  Forest.mkForest 1 2 2 1 1 false 1 same_class_samples first_draw [same_class_tree]
                  [0%float] [0; 0] [] [] 0%float.

(** A loaded tree that has predicted the values [p] for the samples of a
    prediction run. *)
Definition voting_tree (p : list double) : TreeClassification :=
  mkTree two_samples 1 1 IMP_NONE [1] first_draw
         [] [[0]; [0]] [0] [1%float] [] [] 0 [p]
         [0; 1]%float [].

(** Three trees that vote 0, 1, 1 for the first sample and 1, 1, 0 for the
    second. *)
Definition three_tree_forest : Forest.ForestClassification :=
  Forest.mkForest 3 2 2 1 1 true 1 two_samples first_draw
                  [voting_tree [0; 1]%float; voting_tree [1; 1]%float;
                   voting_tree [1; 0]%float]
                  [0; 1]%float [] [] [] 0%float.

(** The tree [t] with another random number generator: every other member is
    the same. *)
Definition with_random_number_generator (t : TreeClassification) (g : mt19937_64)
  : TreeClassification :=
  mkTree (data t) (dependent_varID t) (min_node_size t) (importance_mode t)
         (no_split_variables t) g (sampleIDs t)
         (child_nodeIDs t) (split_varIDs t) (split_values t) (variable_importance t)
         (oob_sampleIDs t) (num_samples_oob t) (predictions t)
         (class_values t) (response_classIDs t).

(** Three samples, the second of which has no value of the feature (NaN):
    [value <= split_value] is false for it at every threshold. *)
Definition nan_data : Data := matrix [[1; 0]; [Double.NAN; 1]; [2; 0]]%float.

Definition nan_tree : TreeClassification :=
  mkTree nan_data 1 1 IMP_NONE [1] first_draw
         [[0; 1; 2]] [[0]; [0]] [0] [0%float] [0%float] [] 0 []
         [0; 1]%float [0; 1; 0].

(** A forest over a data set without rows: its one tree has no out-of-bag
    sample and no prediction. *)
Definition no_sample_tree : TreeClassification :=
  mkTree (matrix []) 1 1 IMP_NONE [1] first_draw
         [[]] [[0]; [0]] [0] [0%float] [0%float] [] 0 [[]]
         [] [].

Definition no_sample_forest : Forest.ForestClassification :=
  Forest.mkForest 1 0 2 1 1 false 1 (matrix []) first_draw [no_sample_tree]
                  [] [] [] [] 0%float.

(** * Properties *)

(** ** Order facts about [double] *)

Module SFOrder.

Ltac cmp_cases :=
  repeat match goal with
  | H : context [Z.compare ?a ?b] |- _ => destruct (Z.compare_spec a b)
  | |- context [Z.compare ?a ?b] => destruct (Z.compare_spec a b)
  | H : context [PosDef.Pos.compare_cont Eq ?a ?b] |- _ =>
      change (PosDef.Pos.compare_cont Eq a b) with (Pos.compare a b) in *;
      destruct (Pos.compare_spec a b)
  | |- context [PosDef.Pos.compare_cont Eq ?a ?b] =>
      change (PosDef.Pos.compare_cont Eq a b) with (Pos.compare a b) in *;
      destruct (Pos.compare_spec a b)
  end.

Ltac sf_destruct x := destruct x as [[]|[]| |[] ? ?].

Ltac sf_solve :=
  unfold SFltb, SFleb, SFeqb; simpl; intros; cmp_cases; simpl in *;
  subst; try discriminate; try reflexivity; try lia.

Lemma SFltb_trans x y z :
  SFltb x y = true -> SFltb y z = true -> SFltb x z = true.
Proof. sf_destruct x; sf_destruct y; try (sf_solve; fail); sf_destruct z; sf_solve. Qed.

Lemma SFltb_leb_trans x y z :
  SFltb x y = true -> SFleb y z = true -> SFltb x z = true.
Proof. sf_destruct x; sf_destruct y; try (sf_solve; fail); sf_destruct z; sf_solve. Qed.

Lemma SFltb_leb x y : SFltb x y = true -> SFleb x y = true.
Proof. sf_destruct x; sf_destruct y; sf_solve. Qed.

Lemma SFltb_not_leb x y : SFltb x y = true -> SFleb y x = false.
Proof. sf_destruct x; sf_destruct y; sf_solve. Qed.

Lemma SFnot_leb_ltb x y :
  SFleb x y = false -> SFeqb x x = true -> SFeqb y y = true -> SFltb y x = true.
Proof. sf_destruct x; sf_destruct y; sf_solve. Qed.

Lemma SFleb_not_nan x y :
  SFleb x y = true -> SFeqb x x = true /\ SFeqb y y = true.
Proof. sf_destruct x; sf_destruct y; sf_solve; split; sf_solve. Qed.

Lemma SFeqb_sym x y : SFeqb x y = SFeqb y x.
Proof. sf_destruct x; sf_destruct y; sf_solve. Qed.

Lemma SFeqb_trans x y z :
  SFeqb x y = true -> SFeqb y z = true -> SFeqb x z = true.
Proof. sf_destruct x; sf_destruct y; try (sf_solve; fail); sf_destruct z; sf_solve. Qed.

Lemma SFeqb_refl_l x y : SFeqb x y = true -> SFeqb x x = true.
Proof. sf_destruct x; sf_destruct y; sf_solve. Qed.

Lemma SFunsigned_round_aux mx ex lx :
  sf_unsigned (binary_round_aux prec emax false mx ex lx).
Proof.
  unfold binary_round_aux.
  destruct (shr_fexp prec emax mx ex lx) as [mrs' e'].
  destruct (shr_fexp _ _ _ e' loc_Exact) as [mrs'' e''].
  destruct (shr_m mrs''); simpl; [reflexivity | | exact I].
  destruct (_ <=? _)%Z; reflexivity.
Qed.

Lemma SFunsigned_round mx ex : sf_unsigned (binary_round prec emax false mx ex).
Proof. unfold binary_round. destruct (shl_align _ _ _). apply SFunsigned_round_aux. Qed.

Lemma SFunsigned_normalize m e : (0 <= m)%Z ->
  sf_unsigned (binary_normalize prec emax m e false).
Proof.
  destruct m as [|p|p]; intros Hm; simpl; [reflexivity | | lia].
  apply SFunsigned_round.
Qed.

Lemma SFunsigned_add x y : sf_unsigned x -> sf_unsigned y -> sf_unsigned (SF64add x y).
Proof.
  destruct x as [sx|sx| |sx mx ex], y as [sy|sy| |sy my ey]; simpl;
    intros Hx Hy; subst; simpl; try reflexivity; try exact I.
  apply SFunsigned_round.
Qed.

Lemma SFunsigned_div x y : sf_unsigned x -> sf_unsigned y -> sf_unsigned (SF64div x y).
Proof.
  destruct x as [sx|sx| |sx mx ex], y as [sy|sy| |sy my ey]; simpl;
    intros Hx Hy; subst; simpl; try reflexivity; try exact I.
  destruct (SFdiv_core_binary _ _ _ _ _ _) as [[mz ez] lz].
  apply SFunsigned_round_aux.
Qed.

Lemma SFunsigned_mul x y : sf_unsigned x -> sf_unsigned y -> sf_unsigned (SF64mul x y).
Proof.
  destruct x as [sx|sx| |sx mx ex], y as [sy|sy| |sy my ey]; simpl;
    intros Hx Hy; subst; simpl; try reflexivity; try exact I.
  apply SFunsigned_round_aux.
Qed.

Lemma SFunsigned_not_negative x : sf_unsigned x -> SFltb x (S754_zero false) = false.
Proof. destruct x as [s|s| |s m e]; simpl; intros Hx; subst; reflexivity. Qed.


Lemma SFnot_ltb_leb x y :
  SFltb x y = false -> SFeqb x x = true -> SFeqb y y = true -> SFleb y x = true.
Proof. sf_destruct x; sf_destruct y; sf_solve. Qed.

End SFOrder.

(** ** Rounding never produces NaN from a non-negative number *)

Module SFRound.

Lemma shr_1_nonneg mrs : (0 <= shr_m mrs)%Z -> (0 <= shr_m (shr_1 mrs))%Z.
Proof. destruct mrs as [[|[p|p|]|[p|p|]] r s]; simpl; lia. Qed.

Lemma iter_shr_1_nonneg n mrs :
  (0 <= shr_m mrs)%Z -> (0 <= shr_m (SpecFloat.iter_pos shr_1 n mrs))%Z.
Proof.
  revert mrs. induction n as [n IH|n IH|]; intros mrs H; simpl;
    auto using shr_1_nonneg.
Qed.

Lemma shr_record_of_loc_m m l : shr_m (shr_record_of_loc m l) = m.
Proof. destruct l as [|[]]; reflexivity. Qed.

Lemma shr_fexp_nonneg m e l :
  (0 <= m)%Z -> (0 <= shr_m (fst (shr_fexp prec emax m e l)))%Z.
Proof.
  intros H. unfold shr_fexp, shr.
  destruct (_ - e)%Z; simpl; rewrite ?shr_record_of_loc_m; try assumption.
  apply iter_shr_1_nonneg. now rewrite shr_record_of_loc_m.
Qed.

Lemma round_nearest_even_nonneg m l : (0 <= m)%Z -> (0 <= round_nearest_even m l)%Z.
Proof. intros H. destruct l as [|[]]; simpl; try destruct (Z.even m); lia. Qed.

Lemma round_aux_nonneg m e l :
  (0 <= m)%Z -> sf_nonneg (binary_round_aux prec emax false m e l).
Proof.
  intros H. unfold binary_round_aux.
  pose proof (shr_fexp_nonneg m e l H) as H1.
  destruct (shr_fexp prec emax m e l) as [mrs' e']. simpl in H1.
  pose proof (shr_fexp_nonneg _ e' loc_Exact
                (round_nearest_even_nonneg _ (loc_of_shr_record mrs') H1)) as H2.
  destruct (shr_fexp prec emax _ e' loc_Exact) as [mrs'' e'']. simpl in H2.
  destruct (shr_m mrs''); simpl; [reflexivity | | lia].
  destruct (_ <=? _)%Z; reflexivity.
Qed.

Lemma round_nonneg p e : sf_nonneg (binary_round prec emax false p e).
Proof. unfold binary_round. destruct (shl_align _ _ _). now apply round_aux_nonneg. Qed.

Lemma normalize_nonneg m e : (0 <= m)%Z -> sf_nonneg (binary_normalize prec emax m e false).
Proof. destruct m; simpl; intros H; [reflexivity | apply round_nonneg | lia]. Qed.

Lemma add_nonneg x y : sf_nonneg x -> sf_nonneg y -> sf_nonneg (SF64add x y).
Proof.
  destruct x as [sx|sx| |sx mx ex], y as [sy|sy| |sy my ey]; simpl;
    intros Hx Hy; subst; simpl; try reflexivity; try contradiction.
  apply round_nonneg.
Qed.

Lemma mul_finite_nonneg x y :
  sf_positive_finite x -> sf_nonneg y -> sf_nonneg (SF64mul x y).
Proof.
  destruct x as [sx|sx| |[] mx ex], y as [sy|sy| |sy my ey]; simpl;
    intros Hx Hy; subst; simpl; try reflexivity; try contradiction.
  now apply round_aux_nonneg.
Qed.

Lemma div_core_nonneg m1 e1 m2 e2 :
  (0 <= fst (fst (SFdiv_core_binary prec emax (Z.pos m1) e1 (Z.pos m2) e2)))%Z.
Proof.
  unfold SFdiv_core_binary.
  set (s := (e1 - e2 - _)%Z).
  set (m' := match s with Z.pos _ => _ | Z0 => _ | Z.neg _ => _ end).
  assert (0 <= m')%Z as Hm'.
  { subst m'. destruct s; try lia. apply Z.shiftl_nonneg. lia. }
  pose proof (Z_div_mod m' (Z.pos m2) ltac:(lia)) as Hdiv.
  destruct (Z.div_eucl m' (Z.pos m2)) as [q r]. simpl.
  destruct Hdiv as [Heq Hr]. nia.
Qed.

Lemma div_nonneg x y :
  sf_nonneg x -> sf_positive_finite y -> sf_nonneg (SF64div x y).
Proof.
  destruct x as [sx|sx| |sx mx ex], y as [sy|sy| |[] my ey]; simpl;
    intros Hx Hy; subst; simpl; try reflexivity; try contradiction.
  pose proof (div_core_nonneg mx ex my ey) as H.
  destruct (SFdiv_core_binary _ _ _ _ _ _) as [[mz ez] lz]. simpl in H.
  now apply round_aux_nonneg.
Qed.

Lemma sf_nonneg_not_nan x : sf_nonneg x -> SFeqb x x = true.
Proof.
  destruct x as [s|s| |s m e]; simpl; intros H; subst; try contradiction;
    unfold SFeqb; simpl; try reflexivity.
  now rewrite Z.compare_refl, Pos.compare_cont_refl.
Qed.

Lemma nonneg_above_negative x m e :
  sf_nonneg x -> SFltb (S754_finite true m e) x = true.
Proof. destruct x as [s|s| |s m' e']; simpl; intros H; subst; try contradiction; reflexivity. Qed.

(** The conversion of a positive integer below [2^53] is exact: the result
    is finite and positive. *)
Lemma digits2_pos_lower p : (2 ^ (Z.pos (digits2_pos p) - 1) <= Z.pos p)%Z.
Proof.
  induction p as [p IH|p IH|]; simpl digits2_pos; try rewrite Pos2Z.inj_succ.
  - replace (Z.succ (Z.pos (digits2_pos p)) - 1)%Z with (Z.succ (Z.pos (digits2_pos p) - 1))%Z by lia.
    rewrite Z.pow_succ_r by lia. lia.
  - replace (Z.succ (Z.pos (digits2_pos p)) - 1)%Z with (Z.succ (Z.pos (digits2_pos p) - 1))%Z by lia.
    rewrite Z.pow_succ_r by lia. lia.
  - simpl. lia.
Qed.

Lemma digits2_pos_small p : (Z.pos p < 2 ^ 53)%Z -> (Z.pos (digits2_pos p) <= 53)%Z.
Proof.
  intros H. pose proof (digits2_pos_lower p) as Hl.
  destruct (Z_le_gt_dec (Z.pos (digits2_pos p)) 53) as [|Hgt]; [assumption|].
  exfalso. assert (2 ^ 53 <= 2 ^ (Z.pos (digits2_pos p) - 1))%Z.
  { apply Z.pow_le_mono_r; lia. }
  lia.
Qed.

Lemma digits2_pos_iter p k :
  digits2_pos (Pos.iter xO p k) = (digits2_pos p + k)%positive.
Proof.
  induction k as [|k IH] using Pos.peano_ind.
  - simpl. lia.
  - rewrite Pos.iter_succ. simpl. rewrite IH. lia.
Qed.

Lemma round_small p :
  (Z.pos p < 2 ^ 53)%Z -> sf_positive_finite (binary_round prec emax false p 0).
Proof.
  intros Hp. pose proof (digits2_pos_small p Hp) as Hd.
  unfold binary_round.
  assert (exists mz ez,
            shl_align p 0 (fexp prec emax (Z.pos (digits2_pos p) + 0)) = (mz, ez)
            /\ Z.pos (digits2_pos mz) = 53%Z /\ (ez = Z.pos (digits2_pos p) - 53)%Z)
    as (mz & ez & -> & Hmz & Hez).
  { unfold shl_align, fexp, emin. rewrite Z.add_0_r, Z.sub_0_r.
    rewrite Z.max_l by (unfold prec, emax; lia). unfold prec.
    destruct (Z.pos (digits2_pos p) - 53)%Z as [|q|q] eqn:Hq.
    - exists p, 0%Z. repeat split; lia.
    - lia.
    - eexists _, _. split; [reflexivity|]. split; [|reflexivity].
      rewrite digits2_pos_iter. lia. }
  unfold binary_round_aux, shr_fexp. simpl Zdigits2. rewrite Hmz.
  assert (fexp prec emax (53 + ez) - ez = 0)%Z as ->.
  { unfold fexp, emin, prec, emax. lia. }
  simpl. rewrite Hmz.
  assert (fexp prec emax (53 + ez) - ez = 0)%Z as ->.
  { unfold fexp, emin, prec, emax. lia. }
  simpl.
  assert ((ez <=? emax - prec)%Z = true) as ->.
  { apply Z.leb_le. unfold emax, prec. lia. }
  exact I.
Qed.

End SFRound.

Module DoubleFacts.

Lemma ltb_trans (x y z : double) :
  PrimFloat.ltb x y = true -> PrimFloat.ltb y z = true -> PrimFloat.ltb x z = true.
Proof. rewrite !ltb_spec. apply SFOrder.SFltb_trans. Qed.

Lemma ltb_leb_trans (x y z : double) :
  PrimFloat.ltb x y = true -> PrimFloat.leb y z = true -> PrimFloat.ltb x z = true.
Proof. rewrite !ltb_spec, leb_spec. apply SFOrder.SFltb_leb_trans. Qed.

Lemma ltb_leb (x y : double) : PrimFloat.ltb x y = true -> PrimFloat.leb x y = true.
Proof. rewrite ltb_spec, leb_spec. apply SFOrder.SFltb_leb. Qed.

Lemma ltb_not_leb (x y : double) :
  PrimFloat.ltb x y = true -> PrimFloat.leb y x = false.
Proof. rewrite ltb_spec, leb_spec. apply SFOrder.SFltb_not_leb. Qed.

Lemma isnan_false (x : double) :
  Double.isnan x = false <-> SFeqb (Prim2SF x) (Prim2SF x) = true.
Proof.
  unfold Double.isnan, is_nan. rewrite FloatAxioms.eqb_spec.
  destruct (SFeqb _ _); simpl; intuition congruence.
Qed.

Lemma not_leb_ltb (x y : double) :
  PrimFloat.leb x y = false -> Double.isnan x = false -> Double.isnan y = false ->
  PrimFloat.ltb y x = true.
Proof.
  rewrite ltb_spec, leb_spec. intros H Hx%isnan_false Hy%isnan_false.
  now apply SFOrder.SFnot_leb_ltb.
Qed.

Lemma leb_not_nan (x y : double) :
  PrimFloat.leb x y = true -> Double.isnan x = false /\ Double.isnan y = false.
Proof.
  rewrite leb_spec. intros H%SFOrder.SFleb_not_nan.
  split; apply isnan_false; tauto.
Qed.

Lemma eqb_sym (x y : double) : PrimFloat.eqb x y = PrimFloat.eqb y x.
Proof. rewrite !FloatAxioms.eqb_spec. apply SFOrder.SFeqb_sym. Qed.

Lemma eqb_trans (x y z : double) :
  PrimFloat.eqb x y = true -> PrimFloat.eqb y z = true -> PrimFloat.eqb x z = true.
Proof. rewrite !FloatAxioms.eqb_spec. apply SFOrder.SFeqb_trans. Qed.

Lemma eqb_refl (x : double) : Double.isnan x = false -> PrimFloat.eqb x x = true.
Proof. rewrite isnan_false, FloatAxioms.eqb_spec. trivial. Qed.


Lemma unsigned_zero : unsigned 0%float.
Proof. reflexivity. Qed.

Lemma unsigned_of_uint63 i : unsigned (PrimFloat.of_uint63 i).
Proof.
  unfold unsigned. rewrite of_uint63_spec.
  apply SFOrder.SFunsigned_normalize. apply Uint63.to_Z_bounded.
Qed.

Lemma unsigned_of_size_t n : unsigned (Double.of_size_t n).
Proof.
  unfold Double.of_size_t. destruct (n <? 2 ^ 63).
  - apply unsigned_of_uint63.
  - unfold unsigned. rewrite mul_spec. apply SFOrder.SFunsigned_mul.
    + reflexivity.
    + apply unsigned_of_uint63.
Qed.

Lemma unsigned_add x y : unsigned x -> unsigned y -> unsigned (PrimFloat.add x y).
Proof. unfold unsigned. rewrite add_spec. apply SFOrder.SFunsigned_add. Qed.

Lemma unsigned_div x y : unsigned x -> unsigned y -> unsigned (PrimFloat.div x y).
Proof. unfold unsigned. rewrite div_spec. apply SFOrder.SFunsigned_div. Qed.

Lemma unsigned_not_negative x : unsigned x -> PrimFloat.ltb x 0%float = false.
Proof. unfold unsigned. rewrite ltb_spec. apply SFOrder.SFunsigned_not_negative. Qed.

Lemma not_ltb_leb (x y : double) :
  PrimFloat.ltb x y = false -> Double.isnan x = false -> Double.isnan y = false ->
  PrimFloat.leb y x = true.
Proof.
  rewrite ltb_spec, leb_spec. intros H Hx%isnan_false Hy%isnan_false.
  now apply SFOrder.SFnot_ltb_leb.
Qed.

Lemma nonneg_zero : nonneg 0%float.
Proof. reflexivity. Qed.

Lemma nonneg_of_uint63 i : nonneg (PrimFloat.of_uint63 i).
Proof.
  unfold nonneg. rewrite of_uint63_spec.
  apply SFRound.normalize_nonneg. apply Uint63.to_Z_bounded.
Qed.

Lemma positive_finite_two : positive_finite 2%float.
Proof. exact I. Qed.

Lemma nonneg_of_size_t n : nonneg (Double.of_size_t n).
Proof.
  unfold Double.of_size_t. destruct (n <? 2 ^ 63).
  - apply nonneg_of_uint63.
  - unfold nonneg. rewrite mul_spec. apply SFRound.mul_finite_nonneg.
    + exact positive_finite_two.
    + apply nonneg_of_uint63.
Qed.

Lemma positive_finite_of_size_t n :
  0 < n < 2 ^ 53 -> positive_finite (Double.of_size_t n).
Proof.
  intros Hn. unfold Double.of_size_t.
  assert ((n <? 2 ^ 63) = true) as ->.
  { apply N.ltb_lt. assert (2 ^ 53 < 2 ^ 63) by reflexivity. lia. }
  unfold positive_finite. rewrite of_uint63_spec, Uint63.of_Z_spec.
  assert (2 ^ 53 < wB)%Z as HwB by reflexivity.
  assert (Z.of_N (2 ^ 53) = 2 ^ 53)%Z as H53 by reflexivity.
  rewrite Z.mod_small by lia.
  destruct n as [|p]; [lia|]. simpl.
  apply SFRound.round_small. lia.
Qed.

Lemma nonneg_add x y : nonneg x -> nonneg y -> nonneg (PrimFloat.add x y).
Proof. unfold nonneg. rewrite add_spec. apply SFRound.add_nonneg. Qed.

Lemma nonneg_div x y : nonneg x -> positive_finite y -> nonneg (PrimFloat.div x y).
Proof. unfold nonneg, positive_finite. rewrite div_spec. apply SFRound.div_nonneg. Qed.

Lemma nonneg_not_nan x : nonneg x -> Double.isnan x = false.
Proof. intros H. apply isnan_false. now apply SFRound.sf_nonneg_not_nan. Qed.

Lemma nonneg_above_minus_one x : nonneg x -> PrimFloat.ltb (-1)%float x = true.
Proof.
  unfold nonneg. rewrite ltb_spec.
  change (Prim2SF (-1)%float) with (S754_finite true 4503599627370496 (-52)).
  apply SFRound.nonneg_above_negative.
Qed.

End DoubleFacts.

(** ** Facts about [size_t] arithmetic *)

Module SizeTFacts.


Lemma wrap_small n : n < SizeT.modulus -> SizeT.wrap n = n.
Proof. apply N.mod_small. Qed.


Lemma incr_wrap n : SizeT.incr (SizeT.wrap n) = SizeT.wrap (n + 1).
Proof.
  unfold SizeT.incr, SizeT.wrap.
  rewrite N.Div0.add_mod_idemp_l. reflexivity.
Qed.



Lemma decr_pos n : 0 < n < SizeT.modulus -> SizeT.decr n = n - 1.
Proof.
  intros H. unfold SizeT.decr, SizeT.wrap.
  replace (n + SizeT.modulus - 1) with ((n - 1) + 1 * SizeT.modulus) by lia.
  rewrite N.Div0.mod_add. apply N.mod_small. lia.
Qed.

Lemma mul_small a b :
  a < 2 ^ 32 -> b < 2 ^ 32 -> SizeT.mul a b = a * b.
Proof.
  intros Ha Hb. unfold SizeT.mul. apply wrap_small.
  unfold SizeT.modulus. change (2 ^ 64) with (2 ^ 32 * 2 ^ 32). nia.
Qed.

End SizeTFacts.

(** ** The counting loops *)

Section Counting.
Context (t : TreeClassification).

Lemma class_size_snoc (part : list N) (s k : N) :
  class_size t (part ++ [s]) k =
  class_size t part k + (if sample_classID t s =? k then 1 else 0).
Proof.
  unfold class_size. rewrite List.filter_app, length_app. simpl.
  destruct (sample_classID t s =? k); simpl; lia.
Qed.

Lemma class_size_le (part : list N) (k : N) :
  class_size t part k <= N.of_nat (length part).
Proof.
  unfold class_size. pose proof (List.filter_length_le (fun s => sample_classID t s =? k) part).
  lia.
Qed.

Lemma counts_of_nil : counts_of t [] = replicate (length (class_values t)) 0.
Proof.
  unfold counts_of. generalize (length (class_values t)), 0%nat.
  intros n; induction n as [|n IH]; intros start; simpl; [reflexivity|].
  f_equal. apply IH.
Qed.

Lemma counts_of_snoc (part : list N) (s : N) :
  array_incr (counts_of t part) (sample_classID t s) = counts_of t (part ++ [s]).
Proof.
  unfold array_incr, counts_of.
  apply list_eq. intros i.
  rewrite !list_lookup_fmap.
  destruct (decide (i = N.to_nat (sample_classID t s))) as [->|Hne].
  - rewrite list_lookup_alter_eq, list_lookup_fmap.
    destruct (seq 0 (length (class_values t)) !! N.to_nat (sample_classID t s)) as [k|] eqn:Hk;
      simpl; [|reflexivity].
    apply lookup_seq in Hk as [-> _]. simpl.
    rewrite SizeTFacts.incr_wrap, class_size_snoc, N2Nat.id, N.eqb_refl. reflexivity.
  - rewrite list_lookup_alter_ne by congruence. rewrite list_lookup_fmap.
    destruct (seq 0 (length (class_values t)) !! i) as [k|] eqn:Hk; simpl; [|reflexivity].
    apply lookup_seq in Hk as [-> _]. simpl.
    rewrite class_size_snoc.
    destruct (N.eqb_spec (sample_classID t s) (N.of_nat i)) as [Heq|_].
    + exfalso. apply Hne. rewrite Heq. now rewrite Nat2N.id.
    + now rewrite N.add_0_r.
Qed.

Lemma count_node_classes_spec (samples : list N) :
  count_node_classes t samples = counts_of t samples.
Proof.
  unfold count_node_classes. rewrite <- counts_of_nil.
  induction samples as [|s samples IH] using rev_ind; [reflexivity|].
  rewrite fold_left_app. simpl. rewrite IH. apply counts_of_snoc.
Qed.

Lemma left_samples_snoc samples varID threshold s :
  left_samples t (samples ++ [s]) varID threshold =
  left_samples t samples varID threshold
    ++ (if goes_left t varID threshold s then [s] else []).
Proof. unfold left_samples. now rewrite List.filter_app. Qed.

Lemma right_samples_snoc samples varID threshold s :
  right_samples t (samples ++ [s]) varID threshold =
  right_samples t samples varID threshold
    ++ (if goes_left t varID threshold s then [] else [s]).
Proof.
  unfold right_samples. rewrite List.filter_app. simpl.
  now destruct (goes_left t varID threshold s).
Qed.

(** What the counting loop of [findBestSplit] computes. *)
Lemma count_split_spec (samples : list N) (varID : N) (threshold : double) :
  count_split t samples varID threshold =
  mkCounts
    (SizeT.wrap (N.of_nat (length (left_samples t samples varID threshold))))
    (SizeT.wrap (N.of_nat (length (right_samples t samples varID threshold))))
    (counts_of t (left_samples t samples varID threshold))
    (counts_of t (right_samples t samples varID threshold)).
Proof.
  unfold count_split.
  induction samples as [|s samples IH] using rev_ind.
  - simpl. now rewrite counts_of_nil.
  - rewrite fold_left_app. simpl. rewrite IH. simpl.
    rewrite left_samples_snoc, right_samples_snoc.
    fold (goes_left t varID threshold s).
    destruct (goes_left t varID threshold s); simpl;
      rewrite ?app_nil_r, ?length_app; simpl;
      rewrite SizeTFacts.incr_wrap, counts_of_snoc; do 2 f_equal; lia.
Qed.

End Counting.

(** ** Selecting the best split *)

Lemma first_maximum_ext {C : Type} (sc sc' : C -> double) cs r :
  (forall c, sc c = sc' c) -> first_maximum sc cs r -> first_maximum sc' cs r.
Proof.
  intros Hext. destruct r as [c|]; simpl.
  - intros (pre & post & -> & Hgt & Hpre & Hpost).
    exists pre, post. rewrite <- Hext. repeat split; [assumption | |].
    + eapply Forall_impl; [exact Hpre|]. intros c'. simpl. now rewrite <- Hext.
    + eapply Forall_impl; [exact Hpost|]. intros c'. simpl. now rewrite <- Hext.
  - intros H. eapply Forall_impl; [exact H|]. intros c. simpl. now rewrite <- Hext.
Qed.

Lemma improve_fold_first_maximum (sc : N * double -> double) (cs : list (N * double)) :
  exists r, fold_left (improve sc) cs no_best = best_of sc r /\ first_maximum sc cs r.
Proof.
  induction cs as [|x cs IH] using rev_ind.
  - exists None. split; [reflexivity | constructor].
  - destruct IH as (r & Hfold & Hr).
    rewrite fold_left_app, Hfold. simpl. unfold improve, Double.gtb.
    destruct r as [c|]; simpl in *.
    + destruct Hr as (pre & post & -> & Hgt & Hpre & Hpost).
      destruct (PrimFloat.ltb (sc c) (sc x)) eqn:Hx.
      * exists (Some x). split; [reflexivity|].
        exists (pre ++ c :: post), []. repeat split.
        -- eauto using DoubleFacts.ltb_trans.
        -- apply Forall_app. split; [|constructor].
           ++ eapply Forall_impl; [exact Hpre|]. intros c' Hc'. simpl in *.
              destruct (PrimFloat.leb (sc x) (sc c')) eqn:Hle; [|reflexivity].
              rewrite <- Hc'. symmetry.
              eauto using DoubleFacts.ltb_leb, DoubleFacts.ltb_leb_trans.
           ++ now apply DoubleFacts.ltb_not_leb.
           ++ eapply Forall_impl; [exact Hpost|]. intros c' Hc'. simpl in *.
              destruct (PrimFloat.leb (sc x) (sc c')) eqn:Hle; [|reflexivity].
              rewrite <- Hc'. symmetry. eauto using DoubleFacts.ltb_leb_trans.
        -- constructor.
      * exists (Some c). split; [reflexivity|].
        exists pre, (post ++ [x]). repeat split; try assumption.
        -- now rewrite <- app_assoc.
        -- apply Forall_app. split; [assumption|]. now constructor.
    + destruct (PrimFloat.ltb (-1) (sc x)) eqn:Hx.
      * exists (Some x). split; [reflexivity|].
        exists cs, []. repeat split; [assumption | | constructor].
        eapply Forall_impl; [exact Hr|]. intros c' Hc'. simpl in *.
        destruct (PrimFloat.leb (sc x) (sc c')) eqn:Hle; [|reflexivity].
        rewrite <- Hc'. symmetry. eauto using DoubleFacts.ltb_leb_trans.
      * exists None. split; [reflexivity|].
        apply Forall_app. split; [assumption|]. now constructor.
Qed.

Lemma fold_left_fmap {A B S : Type} (f : S -> B -> S) (g : A -> B) (l : list A) (s : S) :
  fold_left f (map g l) s = fold_left (fun s x => f s (g x)) l s.
Proof. revert s. induction l as [|x l IH]; intros s; simpl; [reflexivity | apply IH]. Qed.

Lemma fold_left_ext_in {A S : Type} (f g : S -> A -> S) (l : list A) (s : S) :
  (forall s x, In x l -> f s x = g s x) -> fold_left f l s = fold_left g l s.
Proof.
  revert s. induction l as [|x l IH]; intros s H; simpl; [reflexivity|].
  rewrite H by now left. apply IH. intros s' y Hy. apply H. now right.
Qed.

Section Search.
Context (t : TreeClassification) (samples : list N).

Lemma try_split_value_improve varID best threshold :
  try_split_value t samples varID best threshold =
  if counted_nonempty t samples (varID, threshold)
  then improve (counted_score t samples) best (varID, threshold)
  else best.
Proof.
  unfold try_split_value, counted_nonempty, counted_score, improve. simpl.
  destruct (_ || _); reflexivity.
Qed.

Lemma fold_improve_filter cs best :
  fold_left (fun b c => try_split_value t samples (fst c) b (snd c)) cs best =
  fold_left (improve (counted_score t samples))
            (List.filter (counted_nonempty t samples) cs) best.
Proof.
  revert best. induction cs as [|[v th] cs IH]; intros best; simpl; [reflexivity|].
  rewrite try_split_value_improve.
  destruct (counted_nonempty t samples (v, th)); simpl; apply IH.
Qed.

Lemma fold_try_variable vars best :
  fold_left (try_variable t samples) vars best =
  fold_left (fun b c => try_split_value t samples (fst c) b (snd c))
            (candidates t samples vars) best.
Proof.
  revert best. induction vars as [|v vars IH]; intros best; [reflexivity|].
  unfold candidates in *. simpl. rewrite fold_left_app, <- IH. f_equal.
  unfold try_variable.
  destruct (length (getAllValues (data t) samples v) <? 2)%nat; [reflexivity|].
  now rewrite fold_left_fmap.
Qed.

(** The search, as a selection among the candidates that the loop does not
    skip. *)
Lemma search_counted vars :
  exists r,
    fold_left (try_variable t samples) vars no_best = best_of (counted_score t samples) r
    /\ first_maximum (counted_score t samples)
         (List.filter (counted_nonempty t samples) (candidates t samples vars)) r.
Proof.
  rewrite fold_try_variable, fold_improve_filter.
  apply improve_fold_first_maximum.
Qed.

Lemma counted_nonempty_children c :
  counted_nonempty t samples c = true -> nonempty_children t samples c = true.
Proof.
  unfold counted_nonempty, nonempty_children. rewrite count_split_spec. simpl.
  destruct (left_samples t samples c.1 c.2), (right_samples t samples c.1 c.2);
    simpl; try reflexivity; try discriminate.
  rewrite orb_true_r. discriminate.
Qed.

Lemma empty_child_not_counted c :
  nonempty_children t samples c = false -> counted_nonempty t samples c = false.
Proof.
  unfold counted_nonempty, nonempty_children. rewrite count_split_spec. simpl.
  destruct (left_samples t samples c.1 c.2), (right_samples t samples c.1 c.2);
    simpl; try reflexivity; try discriminate.
  now rewrite orb_true_r.
Qed.

Lemma left_samples_length varID threshold :
  (length (left_samples t samples varID threshold) <= length samples)%nat.
Proof. apply List.filter_length_le. Qed.

Lemma right_samples_length varID threshold :
  (length (right_samples t samples varID threshold) <= length samples)%nat.
Proof. apply List.filter_length_le. Qed.

End Search.

Lemma sum_of_squares_counts (t : TreeClassification) (part : list N) :
  N.of_nat (length part) < 2 ^ 32 ->
  sum_of_squares (counts_of t part) = sum_squared_counts t part.
Proof.
  intros Hlen. unfold sum_of_squares, sum_squared_counts, counts_of.
  rewrite !fold_left_fmap. apply fold_left_ext_in. intros sum k _. f_equal.
  pose proof (class_size_le t part (N.of_nat k)) as Hle.
  assert (class_size t part (N.of_nat k) < 2 ^ 32) as Hk by lia.
  rewrite SizeTFacts.wrap_small.
  - now rewrite SizeTFacts.mul_small.
  - unfold SizeT.modulus. change (2 ^ 64) with (2 ^ 32 * 2 ^ 32). nia.
Qed.

Section SearchBounded.
Context (t : TreeClassification) (samples : list N).
Hypothesis samples_bound : N.of_nat (length samples) < 2 ^ 32.

Lemma wrap_part_length (part : list N) :
  (length part <= length samples)%nat ->
  SizeT.wrap (N.of_nat (length part)) = N.of_nat (length part).
Proof using samples_bound.
  intros H. apply SizeTFacts.wrap_small. unfold SizeT.modulus.
  change (2 ^ 64) with (2 ^ 32 * 2 ^ 32). nia.
Qed.

Lemma counted_score_score c : counted_score t samples c = score t samples c.
Proof using samples_bound.
  unfold counted_score, score, decrease_of. rewrite count_split_spec. simpl.
  pose proof (left_samples_length t samples c.1 c.2).
  pose proof (right_samples_length t samples c.1 c.2).
  rewrite !sum_of_squares_counts by lia.
  now rewrite !wrap_part_length.
Qed.

Lemma counted_nonempty_iff c :
  counted_nonempty t samples c = nonempty_children t samples c.
Proof using samples_bound.
  destruct (nonempty_children t samples c) eqn:Hc.
  - unfold counted_nonempty, nonempty_children in *. rewrite count_split_spec. simpl.
    pose proof (left_samples_length t samples c.1 c.2).
    pose proof (right_samples_length t samples c.1 c.2).
    rewrite !wrap_part_length by assumption.
    destruct (left_samples t samples c.1 c.2), (right_samples t samples c.1 c.2);
      try discriminate. reflexivity.
  - now apply empty_child_not_counted.
Qed.

Lemma search_first_maximum vars :
  exists r,
    fold_left (try_variable t samples) vars no_best = best_of (score t samples) r
    /\ first_maximum (score t samples)
         (List.filter (nonempty_children t samples) (candidates t samples vars)) r.
Proof using samples_bound.
  destruct (search_counted t samples vars) as (r & Hbest & Hr).
  exists r. split.
  - rewrite Hbest. destruct r as [c|]; simpl; [|reflexivity].
    now rewrite counted_score_score.
  - rewrite <- (List.filter_ext _ _ counted_nonempty_iff).
    eapply first_maximum_ext; [|exact Hr]. apply counted_score_score.
Qed.

End SearchBounded.

(** ** Scores are never negative *)

Lemma sum_of_squares_unsigned (counts : list N) : unsigned (sum_of_squares counts).
Proof.
  unfold sum_of_squares. generalize DoubleFacts.unsigned_zero.
  generalize 0%float. induction counts as [|c counts IH]; intros sum Hsum; simpl.
  - exact Hsum.
  - apply IH. apply DoubleFacts.unsigned_add; [exact Hsum|].
    apply DoubleFacts.unsigned_of_size_t.
Qed.

Lemma decrease_of_unsigned (c : SplitCounts) : unsigned (decrease_of c).
Proof.
  unfold decrease_of.
  apply DoubleFacts.unsigned_add; apply DoubleFacts.unsigned_div;
    auto using sum_of_squares_unsigned, DoubleFacts.unsigned_of_size_t.
Qed.

Lemma counted_score_not_negative t samples c :
  PrimFloat.ltb (counted_score t samples c) 0%float = false.
Proof. apply DoubleFacts.unsigned_not_negative, decrease_of_unsigned. Qed.

(** ** [findBestSplit] *)

Lemma findBestSplit_counted (t : TreeClassification) (nodeID : N) (vars : list N) :
  exists r,
    first_maximum (counted_score t (node_samples t nodeID))
      (List.filter (counted_nonempty t (node_samples t nodeID))
                   (candidates t (node_samples t nodeID) vars)) r
    /\ findBestSplit t nodeID vars =
       split_outcome t nodeID (counted_score t (node_samples t nodeID)) r.
Proof.
  destruct (search_counted t (node_samples t nodeID) vars) as (r & Hbest & Hr).
  exists r. split; [exact Hr|].
  unfold findBestSplit, search_best_split. rewrite Hbest.
  destruct r as [c|]; simpl.
  - now rewrite counted_score_not_negative.
  - reflexivity.
Qed.

Lemma store_split_varIDs t nodeID c decrease :
  split_varIDs (store_split t nodeID c decrease) =
  <[N.to_nat nodeID := fst c]> (split_varIDs t).
Proof. unfold store_split. simpl. now destruct (ImportanceMode_eqb _ _). Qed.

Lemma store_split_values t nodeID c decrease :
  split_values (store_split t nodeID c decrease) =
  <[N.to_nat nodeID := snd c]> (split_values t).
Proof. unfold store_split. simpl. now destruct (ImportanceMode_eqb _ _). Qed.

Lemma lookup_insert_inv {A : Type} (l : list A) (i : nat) (x y : A) :
  <[i := x]> l !! i = Some y -> y = x.
Proof.
  intros H. assert (i < length l)%nat as Hi.
  { apply lookup_lt_Some in H. now rewrite length_insert in H. }
  rewrite list_lookup_insert_eq in H by exact Hi. congruence.
Qed.

Lemma filter_nonempty_exists {A : Type} (f : A -> bool) (l : list A) :
  List.filter f l <> [] -> exists x, In x l /\ f x = true.
Proof.
  intros H. destruct (List.filter f l) as [|x l'] eqn:Hf; [congruence|].
  exists x. apply List.filter_In. rewrite Hf. now left.
Qed.

Lemma nonempty_children_parts t samples c :
  nonempty_children t samples c = true ->
  left_samples t samples (fst c) (snd c) <> []
  /\ right_samples t samples (fst c) (snd c) <> [].
Proof.
  unfold nonempty_children.
  destruct (left_samples t samples c.1 c.2), (right_samples t samples c.1 c.2);
    intros H; try discriminate. split; discriminate.
Qed.

(** ** Scores are non-negative numbers *)

Lemma sum_squared_counts_nonneg t part : nonneg (sum_squared_counts t part).
Proof.
  unfold sum_squared_counts. generalize DoubleFacts.nonneg_zero.
  generalize 0%float.
  induction (map N.of_nat (seq 0 (length (class_values t)))) as [|k ks IH];
    intros sum Hsum; simpl; [exact Hsum|].
  apply IH. apply DoubleFacts.nonneg_add; [exact Hsum|].
  apply DoubleFacts.nonneg_of_size_t.
Qed.

Lemma part_size_positive_finite (samples part : list N) :
  N.of_nat (length samples) < 2 ^ 32 ->
  (length part <= length samples)%nat -> part <> [] ->
  positive_finite (Double.of_size_t (N.of_nat (length part))).
Proof.
  intros Hbound Hle Hne. apply DoubleFacts.positive_finite_of_size_t.
  assert (2 ^ 32 < 2 ^ 53) by reflexivity.
  destruct part; [congruence|]. simpl in *. lia.
Qed.

Lemma score_nonneg t samples c :
  N.of_nat (length samples) < 2 ^ 32 ->
  nonempty_children t samples c = true ->
  nonneg (score t samples c).
Proof.
  intros Hbound [HL HR]%nonempty_children_parts. unfold score.
  apply DoubleFacts.nonneg_add; apply DoubleFacts.nonneg_div;
    auto using sum_squared_counts_nonneg.
  - eapply part_size_positive_finite; eauto using left_samples_length.
  - eapply part_size_positive_finite; eauto using right_samples_length.
Qed.

Lemma first_maximum_argmax {C : Type} (sc : C -> double) (cs : list C) (r : option C) :
  Forall (fun c => nonneg (sc c)) cs ->
  first_maximum sc cs r -> first_argmax sc cs r.
Proof.
  intros Hnn. destruct r as [c|]; simpl.
  - intros (pre & post & -> & _ & Hpre & Hpost).
    apply Forall_app in Hnn as [Hnpre Hnn].
    inversion Hnn as [|? ? Hc Hnpost]; subst.
    apply DoubleFacts.nonneg_not_nan in Hc.
    exists pre, post. split; [reflexivity|]. split.
    + rewrite List.Forall_forall in *. intros c' Hc'.
      apply DoubleFacts.not_leb_ltb; auto using DoubleFacts.nonneg_not_nan.
    + rewrite List.Forall_forall in *. intros c' Hc'.
      apply DoubleFacts.not_ltb_leb; auto using DoubleFacts.nonneg_not_nan.
  - intros Hnone. destruct cs as [|c cs]; [reflexivity|].
    inversion Hnn as [|? ? Hc _]; subst. inversion Hnone as [|? ? Hc' _]; subst.
    apply DoubleFacts.nonneg_above_minus_one in Hc. congruence.
Qed.

(** C3. [findBestSplit] gives every candidate threshold with two non-empty
    children the score [(Σ_k L_k²)/|L| + (Σ_k R_k²)/|R|], a non-negative
    number, and selects the candidate with the maximal score, the first one
    seen winning ties: the selected candidate scores strictly more than
    every candidate tried before it and at least as much as every candidate
    tried after it; no split is reported only when there is no such
    candidate. The squares are computed in [size_t], so the node is taken to
    hold fewer than [2^32] samples. *)
Theorem findBestSplit_selects_first_maximum
    (t : TreeClassification) (nodeID : N) (possible_split_varIDs : list N) :
  N.of_nat (length (node_samples t nodeID)) < 2 ^ 32 ->
  exists r,
    first_argmax (score t (node_samples t nodeID))
      (List.filter (nonempty_children t (node_samples t nodeID))
                   (candidates t (node_samples t nodeID) possible_split_varIDs)) r
    /\ search_best_split t nodeID possible_split_varIDs
       = best_of (score t (node_samples t nodeID)) r
    /\ findBestSplit t nodeID possible_split_varIDs
       = split_outcome t nodeID (score t (node_samples t nodeID)) r.
Proof.
  intros Hbound.
  destruct (search_first_maximum t (node_samples t nodeID) Hbound possible_split_varIDs)
    as (r & Hbest & Hr).
  exists r. split; [|split; [exact Hbest|]].
  - apply first_maximum_argmax; [|exact Hr].
    apply List.Forall_forall. intros c [_ Hc]%List.filter_In.
    now apply score_nonneg.
  - unfold findBestSplit, search_best_split. rewrite Hbest.
    destruct r as [c|]; simpl; [|reflexivity].
    rewrite <- (counted_score_score t (node_samples t nodeID) Hbound c).
    now rewrite counted_score_not_negative.
Qed.

Lemma findBestSplit_selects_first_maximum_witness :
  N.of_nat (length (node_samples separable_tree 0)) < 2 ^ 32
  /\ exists r,
       first_argmax (score separable_tree (node_samples separable_tree 0))
         (List.filter (nonempty_children separable_tree (node_samples separable_tree 0))
                      (candidates separable_tree (node_samples separable_tree 0) [0])) r
       /\ search_best_split separable_tree 0 [0]
          = best_of (score separable_tree (node_samples separable_tree 0)) r
       /\ findBestSplit separable_tree 0 [0]
          = split_outcome separable_tree 0
              (score separable_tree (node_samples separable_tree 0)) r.
Proof.
  split; [reflexivity|].
  apply (findBestSplit_selects_first_maximum separable_tree 0 [0]). reflexivity.
Defined.

(** C4. A split that [findBestSplit] stores has no empty child: among the
    node's samples one has a value of the stored split variable [<=] the
    stored threshold and one is routed right; the latter's value is strictly
    greater than the threshold unless it is NaN. *)
Theorem findBestSplit_children_nonempty
    (t t' : TreeClassification) (nodeID : N) (possible_split_varIDs : list N)
    (varID : N) (threshold : double) :
  findBestSplit t nodeID possible_split_varIDs = (false, t') ->
  split_varIDs t' !! N.to_nat nodeID = Some varID ->
  split_values t' !! N.to_nat nodeID = Some threshold ->
  left_samples t (node_samples t nodeID) varID threshold <> []
  /\ right_samples t (node_samples t nodeID) varID threshold <> []
  /\ (exists s, In s (node_samples t nodeID)
                /\ PrimFloat.leb (get (data t) s varID) threshold = true)
  /\ (exists s, In s (node_samples t nodeID)
                /\ PrimFloat.leb (get (data t) s varID) threshold = false
                /\ (Double.isnan (get (data t) s varID) = false ->
                    Double.gtb (get (data t) s varID) threshold = true)).
Proof.
  intros Hfind Hvar Hval.
  destruct (findBestSplit_counted t nodeID possible_split_varIDs) as (r & Hr & Hout).
  rewrite Hout in Hfind. destruct r as [c|]; simpl in Hfind; [|discriminate].
  injection Hfind as <-.
  rewrite store_split_varIDs in Hvar. apply lookup_insert_inv in Hvar.
  rewrite store_split_values in Hval. apply lookup_insert_inv in Hval.
  destruct Hr as (pre & post & Hcs & _).
  assert (In c (List.filter (counted_nonempty t (node_samples t nodeID))
                  (candidates t (node_samples t nodeID) possible_split_varIDs))) as Hin.
  { rewrite Hcs. apply in_or_app. right. now left. }
  apply List.filter_In in Hin as [_ Hc].
  apply counted_nonempty_children, nonempty_children_parts in Hc.
  rewrite <- Hvar, <- Hval in Hc. destruct Hc as [HL HR].
  split; [exact HL|]. split; [exact HR|].
  apply filter_nonempty_exists in HL as (sL & HsL & HgoL).
  apply filter_nonempty_exists in HR as (sR & HsR & HgoR).
  unfold goes_left in *. apply negb_true_iff in HgoR.
  split; [now exists sL|]. exists sR. repeat split; try assumption.
  intros Hnan. apply DoubleFacts.not_leb_ltb; try assumption.
  now apply DoubleFacts.leb_not_nan in HgoL.
Qed.

Lemma findBestSplit_children_nonempty_witness :
  left_samples separable_tree (node_samples separable_tree 0) 0 3%float <> []
  /\ right_samples separable_tree (node_samples separable_tree 0) 0 3%float <> []
  /\ (exists s, In s (node_samples separable_tree 0)
                /\ PrimFloat.leb (get (data separable_tree) s 0) 3%float = true)
  /\ (exists s, In s (node_samples separable_tree 0)
                /\ PrimFloat.leb (get (data separable_tree) s 0) 3%float = false
                /\ (Double.isnan (get (data separable_tree) s 0) = false ->
                    Double.gtb (get (data separable_tree) s 0) 3%float = true)).
Proof.
  apply (findBestSplit_children_nonempty separable_tree
           (snd (findBestSplit separable_tree 0 [0])) 0 [0] 0 3%float);
    reflexivity.
Defined.

(** C4, the claim as written fails on a value that is NaN: at the root of
    [nan_tree] the code stores the threshold 2.0 on variable 0, the right
    child holds the sample whose value is NaN, and no sample of the node has
    a value greater than the threshold. *)
Lemma findBestSplit_children_nonempty_counterexample :
  fst (findBestSplit nan_tree 0 [0]) = false
  /\ split_varIDs (snd (findBestSplit nan_tree 0 [0])) !! 0%nat = Some 0
  /\ split_values (snd (findBestSplit nan_tree 0 [0])) !! 0%nat = Some 2%float
  /\ right_samples nan_tree (node_samples nan_tree 0) 0 2%float = [1]
  /\ ~ (exists s, In s (node_samples nan_tree 0)
                  /\ Double.gtb (get (data nan_tree) s 0) 2%float = true).
Proof.
  split; [reflexivity|]. split; [reflexivity|]. split; [reflexivity|].
  split; [reflexivity|].
  intros (s & Hs & Hgt). simpl in Hs.
  repeat (destruct Hs as [<-|Hs]; [vm_compute in Hgt; discriminate|]). destruct Hs.
Qed.

(** The root of [separable_tree] splits on variable 0 at 3.0, with
    importance [6 - 18/6 = 3]. *)
Example findBestSplit_separable :
  let r := findBestSplit separable_tree 0 [0] in
  fst r = false
  /\ split_varIDs (snd r) = [0]
  /\ split_values (snd r) = [3%float]
  /\ variable_importance (snd r) = [3%float].
Proof. repeat split; reflexivity. Qed.

Example splitNodeInternal_constant :
  (fun r => (fst r, split_values (snd r))) <$> splitNodeInternal (constant_tree 1) 0 [0]
  = Some (true, [7%float]).
Proof. reflexivity. Qed.

(** ** The most frequent value *)

Lemma fold_max_ge (l : class_count_map) (a : N) :
  a <= fold_left (fun m kc => N.max m (snd kc)) l a.
Proof.
  revert a. induction l as [|kc l IH]; intros a; simpl; [lia|].
  specialize (IH (N.max a kc.2)). lia.
Qed.

Lemma fold_max_elem (l : class_count_map) (a : N) (kc : double * N) :
  In kc l -> snd kc <= fold_left (fun m kc => N.max m (snd kc)) l a.
Proof.
  revert a. induction l as [|kc' l IH]; intros a; simpl; [tauto|].
  intros [->|Hin].
  - pose proof (fold_max_ge l (N.max a kc.2)). lia.
  - now apply IH.
Qed.

Lemma fold_max_attained (l : class_count_map) (a : N) :
  fold_left (fun m kc => N.max m (snd kc)) l a = a
  \/ exists kc, In kc l /\ snd kc = fold_left (fun m kc => N.max m (snd kc)) l a.
Proof.
  revert a. induction l as [|kc l IH]; intros a; simpl; [now left|].
  destruct (IH (N.max a kc.2)) as [Heq|(kc' & Hin & Heq)].
  - rewrite Heq. destruct (N.max_spec a kc.2) as [[_ ->]|[_ ->]]; [|now left].
    right. exists kc. split; [now left | reflexivity].
  - right. exists kc'. split; [now right | exact Heq].
Qed.

Lemma max_count_ge (m : class_count_map) (k : double) (c : N) :
  In (k, c) m -> c <= max_count m.
Proof. intros H. apply (fold_max_elem m 0 (k, c) H). Qed.

Lemma max_count_attained (m : class_count_map) :
  m <> [] -> exists k, In (k, max_count m) m.
Proof.
  intros Hne. unfold max_count.
  destruct (fold_max_attained m 0) as [Heq|([k c] & Hin & Heq)].
  - destruct m as [|[k c] m']; [congruence|]. exists k. left.
    pose proof (fold_max_elem ((k, c) :: m') 0 (k, c) (or_introl eq_refl)) as Hle.
    simpl in *. f_equal. lia.
  - exists k. simpl in Heq. now rewrite <- Heq.
Qed.

Lemma major_classes_In (m : class_count_map) (v : double) :
  In v (major_classes m) <-> In (v, max_count m) m.
Proof.
  unfold major_classes. rewrite in_map_iff. split.
  - intros ([k c] & <- & Hin). apply List.filter_In in Hin as [Hin Hc].
    simpl in *. apply N.eqb_eq in Hc. now subst.
  - intros Hin. exists (v, max_count m). split; [reflexivity|].
    apply List.filter_In. split; [exact Hin|]. simpl. apply N.eqb_refl.
Qed.

Lemma major_classes_nonempty (m : class_count_map) :
  m <> [] -> major_classes m <> [].
Proof.
  intros Hne. destruct (max_count_attained m Hne) as [k Hk].
  apply major_classes_In in Hk. intros Heq. now rewrite Heq in Hk.
Qed.

Lemma mostFrequentValue_In (m : class_count_map) (g : mt19937_64) (v : double) :
  mostFrequentValue m g = Some v -> In v (major_classes m).
Proof.
  unfold mostFrequentValue.
  destruct (major_classes m) as [|v1 [|v2 majors]] eqn:Hm; [discriminate | |].
  - intros [= ->]. now left.
  - intros H. apply list_elem_of_In. eapply list_elem_of_lookup_2. exact H.
Qed.

Lemma mostFrequentValue_total (m : class_count_map) (g : mt19937_64) :
  rng_in_range g -> m <> [] -> exists v, mostFrequentValue m g = Some v.
Proof.
  intros Hg Hne. apply major_classes_nonempty in Hne. unfold mostFrequentValue.
  destruct (major_classes m) as [|v1 [|v2 majors]] eqn:Hm; [congruence | eauto |].
  apply lookup_lt_is_Some_2.
  specialize (Hg 0%nat (length (v1 :: v2 :: majors) - 1)%nat). simpl in *. lia.
Qed.

(** The result when only one value has the largest count. *)
Lemma mostFrequentValue_single (k : double) (c : N) (g : mt19937_64) :
  mostFrequentValue [(k, c)] g = Some k.
Proof.
  unfold mostFrequentValue, major_classes, max_count. simpl.
  rewrite N.max_0_l, N.eqb_refl. reflexivity.
Qed.

(** ** [estimate] *)

Lemma incr_count_nonempty (m : class_count_map) (x : double) : incr_count m x <> [].
Proof. destruct m as [|[k c] m]; simpl; [discriminate|]. now destruct (PrimFloat.eqb k x). Qed.

Lemma incr_count_key (m : class_count_map) (x k : double) (c : N) :
  In (k, c) (incr_count m x) -> k = x \/ exists c', In (k, c') m.
Proof.
  induction m as [|[k' c'] m IH]; simpl.
  - intros [[= -> _]|[]]. now left.
  - destruct (PrimFloat.eqb k' x); simpl.
    + intros [[= -> _]|Hin]; right; eauto.
    + intros [[= -> ->]|Hin]; [right; eauto|].
      destruct (IH Hin) as [->|(c'' & Hc)]; [now left | right; eauto].
Qed.

Lemma count_classes_snoc t samples s :
  count_classes t (samples ++ [s]) = incr_count (count_classes t samples) (response t s).
Proof. unfold count_classes. now rewrite fold_left_app. Qed.

Lemma count_classes_key t samples k c :
  In (k, c) (count_classes t samples) -> exists s, In s samples /\ k = response t s.
Proof.
  revert k c. induction samples as [|s samples IH] using rev_ind; intros k c.
  - intros [].
  - rewrite count_classes_snoc. intros [->|(c' & Hin)]%incr_count_key.
    + exists s. split; [apply in_or_app; right; now left | reflexivity].
    + destruct (IH _ _ Hin) as (s' & Hs' & ->).
      exists s'. split; [apply in_or_app; now left | reflexivity].
Qed.

Lemma count_classes_nonempty t samples : samples <> [] -> count_classes t samples <> [].
Proof.
  destruct samples as [|s samples] using rev_ind; [congruence|].
  intros _. rewrite count_classes_snoc. apply incr_count_nonempty.
Qed.

Lemma estimate_occurs t nodeID v :
  estimate t nodeID = Some v ->
  exists s, In s (node_samples t nodeID) /\ v = response t s.
Proof.
  unfold estimate. intros H%mostFrequentValue_In%major_classes_In.
  eapply count_classes_key. exact H.
Qed.

Lemma estimate_total t nodeID :
  rng_in_range (random_number_generator t) -> node_samples t nodeID <> [] ->
  exists v, estimate t nodeID = Some v.
Proof.
  intros Hg Hne. apply mostFrequentValue_total; [exact Hg|].
  now apply count_classes_nonempty.
Qed.

(** On samples that all have the same response the map has one key. *)
Lemma count_classes_same t (samples : list N) (k v : double) (c : N) :
  PrimFloat.eqb k v = true ->
  Forall (fun s => PrimFloat.eqb (response t s) v = true) samples ->
  exists c',
    fold_left (fun m s => incr_count m (response t s)) samples [(k, c)] = [(k, c')].
Proof.
  intros Hk Hall. revert c. induction Hall as [|s samples Hs _ IH]; intros c; simpl.
  - eauto.
  - assert (PrimFloat.eqb k (response t s) = true) as ->.
    { eapply DoubleFacts.eqb_trans; [exact Hk|]. now rewrite DoubleFacts.eqb_sym. }
    apply IH.
Qed.

Lemma estimate_same t nodeID (s0 : N) (rest : list N) (v : double) :
  node_samples t nodeID = s0 :: rest ->
  Forall (fun s => PrimFloat.eqb (response t s) v = true) (s0 :: rest) ->
  estimate t nodeID = Some (response t s0).
Proof.
  intros Hnode Hall. unfold estimate, count_classes. rewrite Hnode. simpl.
  inversion Hall as [|? ? Hs0 Hrest]; subst.
  destruct (count_classes_same t rest (response t s0) v (SizeT.incr 0) Hs0 Hrest)
    as (c' & ->).
  apply mostFrequentValue_single.
Qed.

(** ** The purity loop *)

Lemma purity_loop_value (values : list double) (first : bool) (pv0 pv : double) (pure : bool) :
  purity_loop values first pv0 = (pure, pv) -> values <> [] -> pure = true ->
  In pv values.
Proof.
  revert first pv0. induction values as [|x values IH]; intros first pv0; [congruence|].
  simpl. destruct (negb first && Double.neb x pv0).
  - intros [= <- _] _ ?. discriminate.
  - destruct values as [|y values].
    + simpl. intros [= _ <-] _ _. now left.
    + intros H _ Hp. right. eapply IH; [exact H | discriminate | exact Hp].
Qed.

Lemma purity_loop_same (values : list double) (first : bool) (pv0 v : double) :
  Forall (fun x => PrimFloat.eqb x v = true) values ->
  first = true \/ PrimFloat.eqb pv0 v = true ->
  exists pv, purity_loop values first pv0 = (true, pv).
Proof.
  intros Hall. revert first pv0.
  induction Hall as [|x values Hx _ IH]; intros first pv0 Hfirst; simpl; [eauto|].
  assert (negb first && Double.neb x pv0 = false) as ->.
  { destruct Hfirst as [->|Hpv]; [reflexivity|].
    unfold Double.neb.
    rewrite (DoubleFacts.eqb_trans x v pv0 Hx), andb_false_r; [reflexivity|].
    now rewrite DoubleFacts.eqb_sym. }
  apply IH. now right.
Qed.

(** ** [splitNodeInternal] *)

Lemma findBestSplit_stop_unchanged t nodeID vars t' :
  findBestSplit t nodeID vars = (true, t') -> t' = t.
Proof.
  unfold findBestSplit. destruct (PrimFloat.ltb _ _); [now intros [= <-] | discriminate].
Qed.

Lemma set_split_value_stored (t : TreeClassification) (nodeID : N) (w : double) :
  split_values (set_split_value t nodeID w) = <[N.to_nat nodeID := w]> (split_values t)
  /\ ((N.to_nat nodeID < length (split_values t))%nat ->
      split_values (set_split_value t nodeID w) !! N.to_nat nodeID = Some w).
Proof.
  split; [reflexivity|]. intros Hlt. simpl. now apply list_lookup_insert_eq.
Qed.

(** C5. A node whose samples all have the same response value becomes a leaf
    whose stored value is that response, whether the node is at most
    [min_node_size] large (the estimate is taken) or larger (the purity test
    applies): [split_values[nodeID]] of the tree returned holds a value [w]
    that is [==] to the shared response (and is the response of a sample of
    the node), and nothing else of the tree changes. "The same" is the [==]
    of the code; the node holds a sample. *)
Theorem splitNodeInternal_pure_node
    (t : TreeClassification) (nodeID : N) (possible_split_varIDs : list N)
    (s0 : N) (rest : list N) (v : double) :
  node_samples t nodeID = s0 :: rest ->
  (forall s, In s (node_samples t nodeID) -> PrimFloat.eqb (response t s) v = true) ->
  exists w t',
    splitNodeInternal t nodeID possible_split_varIDs = Some (true, t')
    /\ split_values t' = <[N.to_nat nodeID := w]> (split_values t)
    /\ ((N.to_nat nodeID < length (split_values t))%nat ->
        split_values t' !! N.to_nat nodeID = Some w)
    /\ t' = set_split_value t nodeID w
    /\ PrimFloat.eqb w v = true
    /\ exists s, In s (node_samples t nodeID) /\ w = response t s.
Proof.
  intros Hnode Hall.
  assert (Forall (fun s => PrimFloat.eqb (response t s) v = true) (s0 :: rest)) as HF.
  { apply List.Forall_forall. now rewrite <- Hnode. }
  assert (exists w,
            splitNodeInternal t nodeID possible_split_varIDs
            = Some (true, set_split_value t nodeID w)
            /\ PrimFloat.eqb w v = true
            /\ exists s, In s (node_samples t nodeID) /\ w = response t s)
    as (w & Hsplit & Hw & Hocc).
  { unfold splitNodeInternal.
    destruct (N.of_nat (length (node_samples t nodeID)) <=? min_node_size t).
    - rewrite (estimate_same t nodeID s0 rest v Hnode HF). simpl.
      exists (response t s0). split; [reflexivity|]. split.
      + apply Hall. rewrite Hnode. now left.
      + exists s0. split; [rewrite Hnode; now left | reflexivity].
    - rewrite Hnode.
      assert (Forall (fun x => PrimFloat.eqb x v = true) (map (response t) (s0 :: rest)))
        as HV.
      { apply List.Forall_map. exact HF. }
      destruct (purity_loop_same _ true 0%float v HV (or_introl eq_refl)) as (pv & Hpv).
      rewrite Hpv. exists pv. split; [reflexivity|].
      apply purity_loop_value in Hpv; [|discriminate|reflexivity].
      split.
      + eapply List.Forall_forall in HV; [exact HV | exact Hpv].
      + apply in_map_iff in Hpv as (s & <- & Hs). eauto. }
  exists w, (set_split_value t nodeID w).
  destruct (set_split_value_stored t nodeID w) as [Hstore Hread].
  repeat split; assumption.
Qed.

Lemma splitNodeInternal_pure_node_witness :
  exists w t',
    splitNodeInternal (constant_tree 1) 0 [0] = Some (true, t')
    /\ split_values t' = <[N.to_nat 0 := w]> (split_values (constant_tree 1))
    /\ ((N.to_nat 0 < length (split_values (constant_tree 1)))%nat ->
        split_values t' !! N.to_nat 0 = Some w)
    /\ t' = set_split_value (constant_tree 1) 0 w
    /\ PrimFloat.eqb w 7%float = true
    /\ exists s, In s (node_samples (constant_tree 1) 0)
                 /\ w = response (constant_tree 1) s.
Proof.
  apply (splitNodeInternal_pure_node (constant_tree 1) 0 [0] 0 [1; 2; 3; 4] 7%float).
  - reflexivity.
  - intros s Hs. simpl in Hs.
    repeat (destruct Hs as [<-|Hs]; [reflexivity|]). destruct Hs.
Defined.

Lemma no_candidate_no_split t nodeID vars :
  (forall c, In c (candidates t (node_samples t nodeID) vars) ->
             nonempty_children t (node_samples t nodeID) c = false) ->
  findBestSplit t nodeID vars = (true, t).
Proof.
  intros Hno.
  destruct (findBestSplit_counted t nodeID vars) as (r & Hr & ->).
  destruct r as [c|]; [|reflexivity]. exfalso.
  destruct Hr as (pre & post & Hcs & _).
  assert (In c (List.filter (counted_nonempty t (node_samples t nodeID))
                  (candidates t (node_samples t nodeID) vars))) as Hin.
  { rewrite Hcs. apply in_or_app. right. now left. }
  apply List.filter_In in Hin as [Hin Hc].
  apply counted_nonempty_children in Hc. rewrite (Hno c Hin) in Hc. discriminate.
Qed.

Lemma candidates_In t samples vars c :
  In c (candidates t samples vars) ->
  In (fst c) vars
  /\ ~ (length (getAllValues (data t) samples (fst c)) < 2)%nat
  /\ In (snd c) (getAllValues (data t) samples (fst c)).
Proof.
  unfold candidates. rewrite in_flat_map. intros (v & Hv & Hc).
  destruct (Nat.ltb_spec (length (getAllValues (data t) samples v)) 2); [destruct Hc|].
  apply in_map_iff in Hc as (th & <- & Hth). simpl. repeat split; try assumption. lia.
Qed.

(** ** The class counts of [estimate] against the votes of the node *)

Lemma votes_for_snoc t samples s x :
  votes_for t (samples ++ [s]) x =
  (votes_for t samples x + (if PrimFloat.eqb (response t s) x then 1 else 0))%nat.
Proof.
  unfold votes_for. rewrite List.filter_app, length_app. simpl.
  now destruct (PrimFloat.eqb (response t s) x).
Qed.

Lemma eqb_compat_r (x k k' : double) :
  PrimFloat.eqb k k' = true -> PrimFloat.eqb x k = PrimFloat.eqb x k'.
Proof.
  intros Hk. destruct (PrimFloat.eqb x k) eqn:H1, (PrimFloat.eqb x k') eqn:H2;
    try reflexivity.
  - rewrite (DoubleFacts.eqb_trans x k k' H1 Hk) in H2. discriminate.
  - rewrite DoubleFacts.eqb_sym in Hk.
    rewrite (DoubleFacts.eqb_trans x k' k H2 Hk) in H1. discriminate.
Qed.

Lemma votes_for_compat t samples k k' :
  PrimFloat.eqb k k' = true -> votes_for t samples k = votes_for t samples k'.
Proof.
  intros Hk. unfold votes_for. f_equal. apply List.filter_ext.
  intros s. now apply eqb_compat_r.
Qed.

Lemma votes_for_none t samples x :
  (forall s, In s samples -> PrimFloat.eqb (response t s) x = false) ->
  votes_for t samples x = 0%nat.
Proof.
  intros H. unfold votes_for. induction samples as [|s samples IH]; [reflexivity|].
  simpl. rewrite (H s) by now left. apply IH. intros s' Hs'. apply H. now right.
Qed.

Lemma incr_count_keys_kept (m : class_count_map) (x k : double) (c : N) :
  In (k, c) m -> exists c', In (k, c') (incr_count m x).
Proof.
  induction m as [|[k' c'] m IH]; [intros []|]. simpl.
  destruct (PrimFloat.eqb k' x); simpl.
  - intros [[= -> ->]|Hin]; eauto.
  - intros [[= -> ->]|Hin]; [eauto|]. destruct (IH Hin) as (c'' & Hc). eauto.
Qed.

Lemma incr_count_hit (m : class_count_map) (x : double) :
  Double.isnan x = false ->
  exists k c, In (k, c) (incr_count m x) /\ PrimFloat.eqb k x = true.
Proof.
  intros Hx. induction m as [|[k' c'] m IH]; simpl.
  - exists x, (SizeT.incr 0). split; [now left | now apply DoubleFacts.eqb_refl].
  - destruct (PrimFloat.eqb k' x) eqn:Hk.
    + exists k', (SizeT.incr c'). split; [now left | exact Hk].
    + destruct IH as (k & c & Hin & Heq). exists k, c. split; [now right | exact Heq].
Qed.

Lemma incr_count_distinct (m : class_count_map) (x : double) :
  keys_distinct m -> keys_distinct (incr_count m x).
Proof.
  induction m as [|[k c] m IH]; simpl; [intros _; split; [intros ? ? []|exact I]|].
  intros [Hk Hd]. destruct (PrimFloat.eqb k x) eqn:Hkx; simpl.
  - split; assumption.
  - split; [|now apply IH].
    intros k' c' [->|(c'' & Hin)]%incr_count_key; [exact Hkx | eauto].
Qed.

(** Every entry of the map after [++class_count[x]]: an entry whose key is
    [== x] had its count incremented or is new; the others are untouched. *)
Lemma incr_count_entry (m : class_count_map) (x k : double) (c : N) :
  Double.isnan x = false ->
  keys_distinct m ->
  In (k, c) (incr_count m x) ->
  (PrimFloat.eqb k x = true
   /\ ((exists c0, In (k, c0) m /\ c = SizeT.incr c0)
       \/ ((forall k' c', In (k', c') m -> PrimFloat.eqb k' x = false)
           /\ k = x /\ c = SizeT.incr 0)))
  \/ (PrimFloat.eqb k x = false /\ In (k, c) m).
Proof.
  intros Hx. induction m as [|[k0 c0] m IH]; simpl.
  - intros _ [[= <- <-]|[]].
    left. split; [now apply DoubleFacts.eqb_refl|]. right. repeat split. intros ? ? [].
  - intros [Hk0 Hd]. destruct (PrimFloat.eqb k0 x) eqn:Hk0x; simpl.
    + intros [[= <- <-]|Hin].
      * left. split; [exact Hk0x|]. left. eauto.
      * right. split; [|now right].
        destruct (PrimFloat.eqb k x) eqn:Hkx; [|reflexivity].
        rewrite <- (Hk0 k c Hin). symmetry.
        eapply DoubleFacts.eqb_trans; [exact Hk0x|]. now rewrite DoubleFacts.eqb_sym.
    + intros [[= <- <-]|Hin]; [right; split; [exact Hk0x | now left]|].
      destruct (IH Hd Hin) as [(Hkx & [(c1 & Hc1 & ->)|(Hnone & -> & ->)])|(Hkx & Hc)].
      * left. split; [exact Hkx|]. left. exists c1. split; [now right | reflexivity].
      * left. split; [exact Hkx|]. right. repeat split.
        intros k' c' [[= <- <-]|Hin']; [exact Hk0x | eauto].
      * right. split; [exact Hkx | now right].
Qed.

Section Votes.
Context (t : TreeClassification).

Lemma count_classes_votes (samples : list N) :
  (forall s, In s samples -> Double.isnan (response t s) = false) ->
  counts_votes t (count_classes t samples) samples.
Proof.
  induction samples as [|s samples IH] using rev_ind; intros Hnan.
  - split; [exact I|]. split; [intros ? ? [] | intros ? []].
  - assert (Double.isnan (response t s) = false) as Hs.
    { apply Hnan, in_or_app. right. now left. }
    destruct IH as (Hd & Hentries & Hcover).
    { intros s' Hs'. apply Hnan, in_or_app. now left. }
    rewrite count_classes_snoc. split; [now apply incr_count_distinct|]. split.
    + intros k c Hin. rewrite votes_for_snoc.
      destruct (incr_count_entry _ _ _ _ Hs Hd Hin)
        as [(Hkx & [(c0 & Hc0 & ->)|(Hnone & -> & ->)])|(Hkx & Hc)].
      * destruct (Hentries k c0 Hc0) as ((s' & Hs' & ->) & ->).
        rewrite DoubleFacts.eqb_sym, Hkx. split.
        -- exists s'. split; [apply in_or_app; now left | reflexivity].
        -- rewrite SizeTFacts.incr_wrap. f_equal. lia.
      * rewrite Hkx. split.
        -- exists s. split; [apply in_or_app; right; now left | reflexivity].
        -- rewrite votes_for_none; [reflexivity|].
           intros s' Hs'. destruct (Hcover s' Hs') as (k' & c' & Hin' & Heq').
           destruct (PrimFloat.eqb (response t s') (response t s)) eqn:Hss; [|reflexivity].
           rewrite <- (Hnone k' c' Hin'). symmetry.
           eapply DoubleFacts.eqb_trans; eassumption.
      * destruct (Hentries k c Hc) as ((s' & Hs' & ->) & ->).
        rewrite DoubleFacts.eqb_sym, Hkx, Nat.add_0_r. split; [|reflexivity].
        exists s'. split; [apply in_or_app; now left | reflexivity].
    + intros s' [Hs'|[<-|[]]]%in_app_or.
      * destruct (Hcover s' Hs') as (k & c & Hin & Heq).
        destruct (incr_count_keys_kept _ (response t s) _ _ Hin) as (c' & Hc').
        eauto.
      * now apply incr_count_hit.
Qed.

End Votes.

Lemma mostFrequentValue_drawn (m : class_count_map) (g : mt19937_64) :
  mostFrequentValue m g
  = major_classes m !! drawn_index g (length (major_classes m)).
Proof.
  unfold mostFrequentValue, drawn_index.
  destruct (major_classes m) as [|v1 [|v2 majors]]; reflexivity.
Qed.

Lemma votes_for_le t samples x : (votes_for t samples x <= length samples)%nat.
Proof. apply List.filter_length_le. Qed.

Lemma wrap_votes t samples x :
  N.of_nat (length samples) < SizeT.modulus ->
  SizeT.wrap (N.of_nat (votes_for t samples x)) = N.of_nat (votes_for t samples x).
Proof.
  intros Hlen. apply SizeTFacts.wrap_small.
  pose proof (votes_for_le t samples x). lia.
Qed.

(** The tied maxima of the map are the responses with the most votes. *)
Lemma major_classes_votes t samples :
  (forall s, In s samples -> Double.isnan (response t s) = false) ->
  N.of_nat (length samples) < SizeT.modulus ->
  (forall x, In x (major_classes (count_classes t samples)) ->
     (exists s, In s samples /\ x = response t s)
     /\ forall s, In s samples ->
          (votes_for t samples (response t s) <= votes_for t samples x)%nat)
  /\ (forall s, In s samples ->
        (forall s', In s' samples ->
           (votes_for t samples (response t s') <= votes_for t samples (response t s))%nat) ->
        exists x, In x (major_classes (count_classes t samples))
                  /\ PrimFloat.eqb x (response t s) = true).
Proof.
  intros Hnan Hlen.
  destruct (count_classes_votes t samples Hnan) as (_ & Hentries & Hcover).
  set (m := count_classes t samples) in *.
  split.
  - intros x Hx%major_classes_In.
    destruct (Hentries _ _ Hx) as (Hocc & Hmax). split; [exact Hocc|].
    rewrite wrap_votes in Hmax by exact Hlen.
    intros s Hs. destruct (Hcover s Hs) as (k & c & Hin & Heq).
    destruct (Hentries _ _ Hin) as (_ & Hc). rewrite wrap_votes in Hc by exact Hlen.
    pose proof (max_count_ge m k c Hin).
    rewrite <- (votes_for_compat t samples k (response t s) Heq). lia.
  - intros s Hs Hbest. destruct (Hcover s Hs) as (k & c & Hin & Heq).
    exists k. split; [|exact Heq]. apply major_classes_In.
    destruct (Hentries _ _ Hin) as (_ & Hc). rewrite wrap_votes in Hc by exact Hlen.
    assert (m <> []) as Hne by (intros Hm; now rewrite Hm in Hin).
    destruct (max_count_attained m Hne) as (k2 & Hk2).
    destruct (Hentries _ _ Hk2) as ((s2 & Hs2 & ->) & Hmax).
    rewrite wrap_votes in Hmax by exact Hlen.
    pose proof (max_count_ge m k c Hin).
    pose proof (Hbest s2 Hs2).
    rewrite (votes_for_compat t samples k (response t s) Heq) in Hc.
    replace (max_count m) with c by lia. exact Hin.
Qed.

Lemma major_classes_distinct (m : class_count_map) :
  keys_distinct m ->
  forall i j x y,
    major_classes m !! i = Some x -> major_classes m !! j = Some y ->
    PrimFloat.eqb x y = true -> i = j.
Proof.
  unfold major_classes. generalize (fun kc : double * N => snd kc =? max_count m).
  intros p. induction m as [|[k c] m IH]; simpl; [intros _ i j x y Hi; discriminate|].
  intros [Hk Hd].
  assert (forall y j, map fst (List.filter p m) !! j = Some y -> PrimFloat.eqb k y = false)
    as Hrest.
  { intros y j Hy. apply list_elem_of_lookup_2, list_elem_of_In, in_map_iff in Hy
      as ([k' c'] & <- & [Hin _]%List.filter_In). eauto. }
  destruct (p (k, c)); [|now apply IH].
  intros [|i] [|j] x y; simpl.
  - reflexivity.
  - intros [= <-] Hy Heq. rewrite (Hrest y j Hy) in Heq. discriminate.
  - intros Hx [= <-] Heq. rewrite DoubleFacts.eqb_sym, (Hrest x i Hx) in Heq. discriminate.
  - intros Hx Hy Heq. f_equal. now apply (IH Hd i j x y).
Qed.

Lemma with_random_number_generator_same (t : TreeClassification) :
  with_random_number_generator t (random_number_generator t) = t.
Proof. now destruct t. Qed.

Lemma estimate_with_random_number_generator (t : TreeClassification) (g : mt19937_64)
    (nodeID : N) :
  estimate (with_random_number_generator t g) nodeID
  = mostFrequentValue (count_classes t (node_samples t nodeID)) g.
Proof. reflexivity. Qed.

(** C6. A node with at most [min_node_size] samples becomes a leaf whatever
    the candidate variables are (the splitter is not consulted: neither
    [split_varIDs] nor [variable_importance] is written). The value read back
    from [split_values[nodeID]] is the majority response of the node, with
    ties broken by the tree's random number generator: there is a list
    [majors] of the tied maxima, fixed by the node alone (its entries are
    pairwise different responses of the node with the most votes, and every
    response with the most votes is [==] to one of them), such that for
    every generator [g] given to the tree the stored value is the entry of
    [majors] at the index drawn from [g] (index 0 when there is no tie). The
    responses of the node are taken not to be NaN and the node to hold fewer
    than [2^64] samples. *)
Theorem splitNodeInternal_small_node (t : TreeClassification) (nodeID : N) :
  N.of_nat (length (node_samples t nodeID)) <= min_node_size t ->
  node_samples t nodeID <> [] ->
  (forall s, In s (node_samples t nodeID) -> Double.isnan (response t s) = false) ->
  N.of_nat (length (node_samples t nodeID)) < SizeT.modulus ->
  exists majors,
    (forall i j x y,
       majors !! i = Some x -> majors !! j = Some y -> PrimFloat.eqb x y = true -> i = j)
    /\ (forall x, In x majors ->
          (exists s, In s (node_samples t nodeID) /\ x = response t s)
          /\ forall s, In s (node_samples t nodeID) ->
               (votes_for t (node_samples t nodeID) (response t s)
                <= votes_for t (node_samples t nodeID) x)%nat)
    /\ (forall s, In s (node_samples t nodeID) ->
          (forall s', In s' (node_samples t nodeID) ->
             (votes_for t (node_samples t nodeID) (response t s')
              <= votes_for t (node_samples t nodeID) (response t s))%nat) ->
          exists x, In x majors /\ PrimFloat.eqb x (response t s) = true)
    /\ forall g, rng_in_range g ->
         exists w,
           majors !! drawn_index g (length majors) = Some w
           /\ forall possible_split_varIDs,
                exists t',
                  splitNodeInternal (with_random_number_generator t g) nodeID
                                    possible_split_varIDs
                  = Some (true, t')
                  /\ split_values t' = <[N.to_nat nodeID := w]> (split_values t)
                  /\ ((N.to_nat nodeID < length (split_values t))%nat ->
                      split_values t' !! N.to_nat nodeID = Some w)
                  /\ split_varIDs t' = split_varIDs t
                  /\ variable_importance t' = variable_importance t.
Proof.
  intros Hsize Hne Hnan Hlen.
  exists (major_classes (count_classes t (node_samples t nodeID))).
  split; [|split; [|split]].
  - apply major_classes_distinct.
    now destruct (count_classes_votes t (node_samples t nodeID) Hnan) as (Hd & _).
  - apply major_classes_votes; assumption.
  - apply major_classes_votes; assumption.
  - intros g Hg.
    destruct (mostFrequentValue_total (count_classes t (node_samples t nodeID)) g Hg)
      as (w & Hw); [now apply count_classes_nonempty|].
    exists w. split; [now rewrite <- mostFrequentValue_drawn|].
    intros vars. exists (set_split_value (with_random_number_generator t g) nodeID w).
    split.
    + unfold splitNodeInternal.
      change (node_samples (with_random_number_generator t g) nodeID)
        with (node_samples t nodeID).
      change (min_node_size (with_random_number_generator t g)) with (min_node_size t).
      apply N.leb_le in Hsize.
      rewrite Hsize, estimate_with_random_number_generator, Hw. reflexivity.
    + split; [reflexivity|]. split; [|split; reflexivity].
      intros Hlt. simpl. now apply list_lookup_insert_eq.
Qed.

Lemma splitNodeInternal_small_node_witness :
  exists majors,
    (forall i j x y,
       majors !! i = Some x -> majors !! j = Some y -> PrimFloat.eqb x y = true -> i = j)
    /\ (forall x, In x majors ->
          (exists s, In s (node_samples tied_tree 0) /\ x = response tied_tree s)
          /\ forall s, In s (node_samples tied_tree 0) ->
               (votes_for tied_tree (node_samples tied_tree 0) (response tied_tree s)
                <= votes_for tied_tree (node_samples tied_tree 0) x)%nat)
    /\ (forall s, In s (node_samples tied_tree 0) ->
          (forall s', In s' (node_samples tied_tree 0) ->
             (votes_for tied_tree (node_samples tied_tree 0) (response tied_tree s')
              <= votes_for tied_tree (node_samples tied_tree 0) (response tied_tree s))%nat) ->
          exists x, In x majors /\ PrimFloat.eqb x (response tied_tree s) = true)
    /\ forall g, rng_in_range g ->
         exists w,
           majors !! drawn_index g (length majors) = Some w
           /\ forall possible_split_varIDs,
                exists t',
                  splitNodeInternal (with_random_number_generator tied_tree g) 0
                                    possible_split_varIDs
                  = Some (true, t')
                  /\ split_values t' = <[N.to_nat 0 := w]> (split_values tied_tree)
                  /\ ((N.to_nat 0 < length (split_values tied_tree))%nat ->
                      split_values t' !! N.to_nat 0 = Some w)
                  /\ split_varIDs t' = split_varIDs tied_tree
                  /\ variable_importance t' = variable_importance tied_tree.
Proof.
  apply (splitNodeInternal_small_node tied_tree 0).
  - discriminate.
  - discriminate.
  - intros s Hs. simpl in Hs.
    repeat (destruct Hs as [<-|Hs]; [reflexivity|]). destruct Hs.
  - reflexivity.
Defined.

(** ** A node without a valid split *)

(** When the purity loop finds the node pure, every value is [==] to the
    pure value (the values not being NaN). *)
Lemma purity_loop_all_same (values : list double) (first : bool) (pv0 pv : double) :
  Forall (fun x => Double.isnan x = false) values ->
  (first = false -> Double.isnan pv0 = false) ->
  purity_loop values first pv0 = (true, pv) ->
  (first = false -> PrimFloat.eqb pv0 pv = true)
  /\ Forall (fun x => PrimFloat.eqb x pv = true) values.
Proof.
  revert first pv0. induction values as [|x values IH]; intros first pv0 Hnan H0; simpl.
  - intros [= <-]. split; [|constructor].
    intros Hf. apply DoubleFacts.eqb_refl. now apply H0.
  - apply List.Forall_cons_iff in Hnan as [Hx Hnan].
    destruct (negb first && Double.neb x pv0) eqn:Hc; [discriminate|].
    intros Hloop. destruct (IH false x Hnan (fun _ => Hx) Hloop) as [Hxpv Hall].
    specialize (Hxpv eq_refl). split; [|constructor; assumption].
    intros ->. simpl in Hc. unfold Double.neb in Hc. apply negb_false_iff in Hc.
    eapply DoubleFacts.eqb_trans; [|exact Hxpv]. now rewrite DoubleFacts.eqb_sym.
Qed.

Lemma estimate_majority t nodeID w :
  (forall s, In s (node_samples t nodeID) -> Double.isnan (response t s) = false) ->
  N.of_nat (length (node_samples t nodeID)) < SizeT.modulus ->
  estimate t nodeID = Some w ->
  forall s, In s (node_samples t nodeID) ->
    (votes_for t (node_samples t nodeID) (response t s)
     <= votes_for t (node_samples t nodeID) w)%nat.
Proof.
  intros Hnan Hlen Hest%mostFrequentValue_In.
  destruct (major_classes_votes t (node_samples t nodeID) Hnan Hlen) as [Hmajor _].
  now destruct (Hmajor w Hest).
Qed.

(** C7. When no valid split exists at a node (every candidate variable has
    fewer than two distinct values over the node's samples, or each of its
    thresholds leaves a child empty), [findBestSplit] reports no split and
    leaves the tree as it is, and [splitNodeInternal] returns a leaf, not an
    error. The value read back from [split_values[nodeID]] is the
    majority-class estimate: a response of the node that has at least as
    many votes among the node's samples as any other, and it is what
    [estimate] returns whenever the splitter was reached; nothing else of the
    tree changes. The responses of the node are taken not to be NaN and the
    node to hold fewer than [2^64] samples. *)
Theorem splitNodeInternal_no_valid_split
    (t : TreeClassification) (nodeID : N) (possible_split_varIDs : list N) :
  (forall varID, In varID possible_split_varIDs ->
     (length (getAllValues (data t) (node_samples t nodeID) varID) < 2)%nat
     \/ forall threshold,
          In threshold (getAllValues (data t) (node_samples t nodeID) varID) ->
          nonempty_children t (node_samples t nodeID) (varID, threshold) = false) ->
  node_samples t nodeID <> [] ->
  rng_in_range (random_number_generator t) ->
  (forall s, In s (node_samples t nodeID) -> Double.isnan (response t s) = false) ->
  N.of_nat (length (node_samples t nodeID)) < SizeT.modulus ->
  findBestSplit t nodeID possible_split_varIDs = (true, t)
  /\ exists w t',
       splitNodeInternal t nodeID possible_split_varIDs = Some (true, t')
       /\ split_values t' = <[N.to_nat nodeID := w]> (split_values t)
       /\ ((N.to_nat nodeID < length (split_values t))%nat ->
           split_values t' !! N.to_nat nodeID = Some w)
       /\ t' = set_split_value t nodeID w
       /\ (exists s, In s (node_samples t nodeID) /\ w = response t s)
       /\ (forall s, In s (node_samples t nodeID) ->
             (votes_for t (node_samples t nodeID) (response t s)
              <= votes_for t (node_samples t nodeID) w)%nat)
       /\ ((N.of_nat (length (node_samples t nodeID)) <=? min_node_size t) = false ->
           fst (purity_loop (map (response t) (node_samples t nodeID)) true 0%float) = false ->
           estimate t nodeID = Some w).
Proof.
  intros Hno Hne Hg Hnan Hlen.
  assert (findBestSplit t nodeID possible_split_varIDs = (true, t)) as Hfind.
  { apply no_candidate_no_split. intros [v th] (Hv & Hl & Hth)%candidates_In.
    simpl in *. destruct (Hno v Hv) as [Hlt|Hall]; [contradiction | now apply Hall]. }
  split; [exact Hfind|].
  destruct (estimate_total t nodeID Hg Hne) as (v & Hest).
  pose proof (estimate_occurs t nodeID v Hest) as Hocc.
  pose proof (estimate_majority t nodeID v Hnan Hlen Hest) as Hmost.
  assert (exists w,
            splitNodeInternal t nodeID possible_split_varIDs
            = Some (true, set_split_value t nodeID w)
            /\ (exists s, In s (node_samples t nodeID) /\ w = response t s)
            /\ (forall s, In s (node_samples t nodeID) ->
                  (votes_for t (node_samples t nodeID) (response t s)
                   <= votes_for t (node_samples t nodeID) w)%nat)
            /\ ((N.of_nat (length (node_samples t nodeID)) <=? min_node_size t) = false ->
                fst (purity_loop (map (response t) (node_samples t nodeID)) true 0%float)
                = false ->
                estimate t nodeID = Some w))
    as (w & Hsplit & Hw & Hvotes & Hreached).
  { unfold splitNodeInternal.
    destruct (N.of_nat (length (node_samples t nodeID)) <=? min_node_size t).
    - rewrite Hest. simpl. exists v.
      split; [reflexivity|]. split; [exact Hocc|]. split; [exact Hmost | discriminate].
    - destruct (purity_loop _ _ _) as [pure pv] eqn:Hpure. destruct pure.
      + exists pv. split; [reflexivity|].
        assert (Forall (fun x => PrimFloat.eqb x pv = true)
                       (map (response t) (node_samples t nodeID))) as Hsame.
        { apply (purity_loop_all_same _ true 0%float pv); [|discriminate|exact Hpure].
          apply List.Forall_map, List.Forall_forall. exact Hnan. }
        split; [|split; [|discriminate]].
        * apply purity_loop_value in Hpure; [| |reflexivity].
          2:{ destruct (node_samples t nodeID);
                [exfalso; apply Hne; reflexivity | discriminate]. }
          apply in_map_iff in Hpure as (s & <- & Hs). eauto.
        * intros s Hs.
          rewrite (votes_for_compat t (node_samples t nodeID) (response t s) pv);
            [lia|].
          eapply List.Forall_forall in Hsame; [exact Hsame|]. now apply in_map.
      + rewrite Hfind, Hest. simpl. exists v.
        split; [reflexivity|]. split; [exact Hocc|]. split; [exact Hmost | reflexivity]. }
  exists w, (set_split_value t nodeID w).
  destruct (set_split_value_stored t nodeID w) as [Hstore Hread].
  repeat split; assumption.
Qed.

Lemma splitNodeInternal_no_valid_split_witness :
  findBestSplit unsplittable_tree 0 [0] = (true, unsplittable_tree)
  /\ exists w t',
       splitNodeInternal unsplittable_tree 0 [0] = Some (true, t')
       /\ split_values t' = <[N.to_nat 0 := w]> (split_values unsplittable_tree)
       /\ ((N.to_nat 0 < length (split_values unsplittable_tree))%nat ->
           split_values t' !! N.to_nat 0 = Some w)
       /\ t' = set_split_value unsplittable_tree 0 w
       /\ (exists s, In s (node_samples unsplittable_tree 0)
                     /\ w = response unsplittable_tree s)
       /\ (forall s, In s (node_samples unsplittable_tree 0) ->
             (votes_for unsplittable_tree (node_samples unsplittable_tree 0)
                        (response unsplittable_tree s)
              <= votes_for unsplittable_tree (node_samples unsplittable_tree 0) w)%nat)
       /\ ((N.of_nat (length (node_samples unsplittable_tree 0))
            <=? min_node_size unsplittable_tree) = false ->
           fst (purity_loop (map (response unsplittable_tree)
                                 (node_samples unsplittable_tree 0)) true 0%float) = false ->
           estimate unsplittable_tree 0 = Some w).
Proof.
  apply (splitNodeInternal_no_valid_split unsplittable_tree 0 [0]).
  - intros varID [<-|[]]. left. vm_compute. lia.
  - discriminate.
  - intros lo hi Hle. simpl. lia.
  - intros s Hs. simpl in Hs.
    repeat (destruct Hs as [<-|Hs]; [reflexivity|]). destruct Hs.
  - reflexivity.
Defined.

(** ** Gini importance *)

Lemma skip_fold_spec (varID : N) (no_split : list N) (a : N) :
  N.of_nat (length (List.filter (fun skip => skip <=? varID) no_split)) <= a ->
  a < SizeT.modulus ->
  fold_left (fun tempvarID skip => if skip <=? varID then SizeT.decr tempvarID else tempvarID)
            no_split a
  = a - N.of_nat (length (List.filter (fun skip => skip <=? varID) no_split)).
Proof.
  revert a. induction no_split as [|skip l IH]; intros a Hle Ha; simpl in *.
  - lia.
  - destruct (skip <=? varID); simpl in *.
    + rewrite SizeTFacts.decr_pos by lia. rewrite IH by lia. lia.
    + now apply IH.
Qed.

Lemma below_length (varID : N) (l : list N) :
  List.NoDup l -> (forall x, In x l -> x < varID) -> N.of_nat (length l) <= varID.
Proof.
  intros Hnd Hlt.
  assert (incl l (map N.of_nat (seq 0 (N.to_nat varID)))) as Hincl.
  { intros x Hx. apply in_map_iff. exists (N.to_nat x). split; [apply N2Nat.id|].
    apply in_seq. specialize (Hlt x Hx). lia. }
  apply NoDup_incl_length in Hincl; [|exact Hnd].
  rewrite length_map, length_seq in Hincl. lia.
Qed.

Lemma skip_no_split_index (no_split : list N) (varID : N) :
  List.NoDup no_split -> ~ In varID no_split -> varID < SizeT.modulus ->
  skip_no_split no_split varID = importance_index no_split varID.
Proof.
  intros Hnd Hnot Hvar. unfold skip_no_split, importance_index.
  assert (List.filter (fun skip => skip <=? varID) no_split
          = List.filter (fun skip => skip <? varID) no_split) as Heq.
  { apply List.filter_ext_in. intros skip Hskip.
    destruct (N.leb_spec skip varID), (N.ltb_spec skip varID); try reflexivity; try lia.
    exfalso. apply Hnot. replace varID with skip by lia. exact Hskip. }
  rewrite skip_fold_spec; [now rewrite Heq | rewrite Heq | exact Hvar].
  apply below_length.
  - now apply List.NoDup_filter.
  - intros x [_ Hx%N.ltb_lt]%List.filter_In. exact Hx.
Qed.

Lemma addGiniImportance_index t nodeID varID decrease :
  List.NoDup (no_split_variables t) ->
  ~ In varID (no_split_variables t) ->
  varID < SizeT.modulus ->
  N.of_nat (length (node_samples t nodeID)) < 2 ^ 32 ->
  variable_importance (addGiniImportance t nodeID varID decrease)
  = alter (fun x => PrimFloat.add x (gini_importance t (node_samples t nodeID) decrease))
          (N.to_nat (importance_index (no_split_variables t) varID))
          (variable_importance t).
Proof.
  intros Hnd Hnot Hvar Hlen. unfold addGiniImportance, gini_importance. simpl.
  rewrite skip_no_split_index by assumption.
  now rewrite count_node_classes_spec, sum_of_squares_counts.
Qed.

(** C8. In GINI mode, a successful split of a node on the variable [v*] with
    best score [Δ] calls [addGiniImportance], which adds
    [Δ − (Σ_k count_k²)/|samples(n)|] (the counts taken over the node's
    samples) to the importance entry at index [v*] minus the number of
    no-split variables less than [v*], and leaves the other entries alone.
    The candidate variables are not no-split variables; the no-split
    variables are a set; the node holds fewer than [2^32] samples. *)
Theorem findBestSplit_adds_gini_importance
    (t t' : TreeClassification) (nodeID : N) (possible_split_varIDs : list N) :
  importance_mode t = IMP_GINI ->
  findBestSplit t nodeID possible_split_varIDs = (false, t') ->
  List.NoDup (no_split_variables t) ->
  (forall v, In v possible_split_varIDs ->
             ~ In v (no_split_variables t) /\ v < SizeT.modulus) ->
  N.of_nat (length (node_samples t nodeID)) < 2 ^ 32 ->
  exists c,
    search_best_split t nodeID possible_split_varIDs
    = mkBest (snd c) (fst c) (score t (node_samples t nodeID) c)
    /\ In (fst c) possible_split_varIDs
    /\ t' = addGiniImportance
              (set_split_value (set_split_varID t nodeID (fst c)) nodeID (snd c))
              nodeID (fst c) (score t (node_samples t nodeID) c)
    /\ variable_importance t'
       = alter (fun x => PrimFloat.add x
                           (gini_importance t (node_samples t nodeID)
                                            (score t (node_samples t nodeID) c)))
               (N.to_nat (importance_index (no_split_variables t) (fst c)))
               (variable_importance t).
Proof.
  intros Hmode Hfind Hnd Hvars Hlen.
  destruct (search_first_maximum t (node_samples t nodeID) Hlen possible_split_varIDs)
    as (r & Hbest & Hr).
  fold (search_best_split t nodeID possible_split_varIDs) in Hbest.
  unfold findBestSplit in Hfind. rewrite Hbest in Hfind.
  destruct r as [c|]; simpl in Hfind; [|discriminate].
  destruct (PrimFloat.ltb _ _); [discriminate|].
  rewrite Hmode in Hfind. simpl in Hfind. injection Hfind as <-.
  destruct Hr as (pre & post & Hcs & _).
  assert (In c (candidates t (node_samples t nodeID) possible_split_varIDs)) as Hin.
  { eapply (proj1 (List.filter_In _ _ _)). rewrite Hcs. apply in_or_app. right. now left. }
  apply candidates_In in Hin as (Hv & _).
  destruct (Hvars _ Hv) as (Hnot & Hlt).
  exists c. split; [exact Hbest|]. split; [exact Hv|]. split; [reflexivity|].
  now rewrite addGiniImportance_index.
Qed.

Lemma findBestSplit_adds_gini_importance_witness :
  exists c,
    search_best_split separable_tree 0 [0]
    = mkBest (snd c) (fst c) (score separable_tree (node_samples separable_tree 0) c)
    /\ In (fst c) [0]
    /\ snd (findBestSplit separable_tree 0 [0])
       = addGiniImportance
           (set_split_value (set_split_varID separable_tree 0 (fst c)) 0 (snd c))
           0 (fst c) (score separable_tree (node_samples separable_tree 0) c)
    /\ variable_importance (snd (findBestSplit separable_tree 0 [0]))
       = alter (fun x => PrimFloat.add x
                           (gini_importance separable_tree (node_samples separable_tree 0)
                              (score separable_tree (node_samples separable_tree 0) c)))
               (N.to_nat (importance_index (no_split_variables separable_tree) (fst c)))
               (variable_importance separable_tree).
Proof.
  apply (findBestSplit_adds_gini_importance separable_tree _ 0 [0]).
  - reflexivity.
  - reflexivity.
  - constructor; [simpl; tauto | constructor].
  - intros v [<-|[]]. split; [|reflexivity]. simpl. intros [H|[]]. discriminate.
  - reflexivity.
Defined.

(** ** Loading a forest *)

(** [--varID] on a [size_t]: the number one less, modulo [2^64]. *)
Lemma decr_predecessor (v : N) :
  SizeT.decr v < 2 ^ 64 /\ (SizeT.decr v + 1) mod 2 ^ 64 = v mod 2 ^ 64.
Proof.
  unfold SizeT.decr, SizeT.wrap. change SizeT.modulus with (2 ^ 64).
  split; [apply N.mod_lt; discriminate|].
  rewrite N.Div0.add_mod_idemp_l.
  replace (v + 2 ^ 64 - 1 + 1) with (v + 1 * 2 ^ 64) by lia.
  apply N.Div0.mod_add.
Qed.

Lemma load_tree_arrays f infile (sts : list SavedTree) :
  Forall2
    (fun st lt =>
       child_nodeIDs lt = saved_child_nodeIDs st
       /\ split_values lt = saved_split_values st
       /\ Forall2
            (fun v v' =>
               if (Forest.num_variables f <? num_variables_saved infile)
                  && (Forest.dependent_varID f <=? v)
               then v' < 2 ^ 64 /\ (v' + 1) mod 2 ^ 64 = v mod 2 ^ 64
               else v' = v)
            (saved_split_varIDs st) (split_varIDs lt))
    sts (map (Forest.load_tree f infile) sts).
Proof.
  induction sts as [|st sts IH]; simpl; constructor; [|exact IH].
  split; [reflexivity|]. split; [reflexivity|].
  simpl. unfold Forest.adjust_varIDs.
  destruct (Forest.num_variables f <? num_variables_saved infile); simpl.
  - induction (saved_split_varIDs st) as [|v vs IHv]; simpl; constructor; [|exact IHv].
    destruct (Forest.dependent_varID f <=? v); [apply decr_predecessor | reflexivity].
  - induction (saved_split_varIDs st) as [|v vs IHv]; simpl; constructor; auto.
Qed.

(** C9. [loadFromFileInternal] raises an error exactly when the stored
    tree-type tag is not the classification tag. Otherwise it loads: the
    class values are the stored ones, the trees read are appended, and each
    of them has the stored child and split-value arrays unchanged and the
    stored split-variable IDs, where an ID [v] is replaced by its
    predecessor [v'] (the [size_t] with [v' + 1 = v] modulo [2^64]) if and
    only if the saved variable count exceeds the current one and the ID is
    at least the dependent variable index, and is unchanged otherwise. *)
Theorem loadFromFileInternal_reconciles
    (f : Forest.ForestClassification) (infile : SavedForest) :
  ((exists what, Forest.loadFromFileInternal f infile = runtime_error what)
   <-> treetype infile <> TREE_CLASSIFICATION)
  /\ ((exists f', Forest.loadFromFileInternal f infile = Ok f')
      <-> treetype infile = TREE_CLASSIFICATION)
  /\ forall f', Forest.loadFromFileInternal f infile = Ok f' ->
       Forest.class_values f' = saved_class_values infile
       /\ exists loaded,
            Forest.trees f' = Forest.trees f ++ loaded
            /\ Forall2
                 (fun st lt =>
                    child_nodeIDs lt = saved_child_nodeIDs st
                    /\ split_values lt = saved_split_values st
                    /\ Forall2
                         (fun v v' =>
                            if (Forest.num_variables f <? num_variables_saved infile)
                               && (Forest.dependent_varID f <=? v)
                            then v' < 2 ^ 64 /\ (v' + 1) mod 2 ^ 64 = v mod 2 ^ 64
                            else v' = v)
                         (saved_split_varIDs st) (split_varIDs lt))
                 (take (N.to_nat (Forest.num_trees f)) (saved_trees infile)) loaded.
Proof.
  unfold Forest.loadFromFileInternal.
  destruct (N.eqb_spec (treetype infile) TREE_CLASSIFICATION) as [Heq|Hne]; simpl.
  - split; [|split].
    + split; [intros (what & H); discriminate | intros H; contradiction].
    + split; [intros _; exact Heq | intros _; eauto].
    + intros f' [= <-]. simpl. split; [reflexivity|].
      eexists. split; [reflexivity|]. apply load_tree_arrays.
  - split; [|split].
    + split; [intros _; exact Hne | intros _; eauto].
    + split; [intros (f' & H); discriminate | intros H; contradiction].
    + intros f' H. discriminate.
Qed.

Example loadFromFileInternal_dropped_column :
  match Forest.loadFromFileInternal (empty_forest 2 2) (saved_forest TREE_CLASSIFICATION) with
  | Ok f' => map split_varIDs (Forest.trees f') = [[1; 0; 0]; [0]]
  | runtime_error _ => False
  end.
Proof. reflexivity. Qed.

Example loadFromFileInternal_same_columns :
  match Forest.loadFromFileInternal (empty_forest 2 3) (saved_forest TREE_CLASSIFICATION) with
  | Ok f' => map split_varIDs (Forest.trees f') = [[2; 0; 0]; [0]]
  | runtime_error _ => False
  end.
Proof. reflexivity. Qed.

Example loadFromFileInternal_wrong_treetype :
  Forest.loadFromFileInternal (empty_forest 2 2) (saved_forest 3)
  = runtime_error "Wrong treetype. Loaded file is not a classification forest.".
Proof. reflexivity. Qed.

(** ** The OOB prediction error *)

Lemma count_tree_votes_length class_counts tree :
  length (Forest.count_tree_votes class_counts tree) = length class_counts.
Proof.
  unfold Forest.count_tree_votes.
  generalize (take (N.to_nat (getNumSamplesOob tree))
                (zip (getOobSampleIDs tree) (default [] (getPredictions tree !! 0%nat)))).
  intros votes. revert class_counts.
  induction votes as [|[s v] votes IH]; intros cc; simpl; [reflexivity|].
  rewrite IH. apply length_alter.
Qed.

Lemma count_oob_votes_length f :
  length (Forest.count_oob_votes f) = N.to_nat (Forest.num_samples f).
Proof.
  unfold Forest.count_oob_votes.
  generalize (take (N.to_nat (Forest.num_trees f)) (Forest.trees f)).
  intros trees.
  assert (forall cc, length (fold_left Forest.count_tree_votes trees cc) = length cc) as H.
  { induction trees as [|tree trees IH]; intros cc; simpl; [reflexivity|].
    rewrite IH. apply count_tree_votes_length. }
  rewrite H. apply length_replicate.
Qed.

(** The error that the code reports is a fraction of all the samples. *)
Lemma computePredictionErrorInternal_denominator f f' :
  Forest.computePredictionErrorInternal f = Some f' ->
  exists tally,
    Forest.overall_prediction_error f'
    = PrimFloat.div
        (Double.of_size_t (Forest.num_missclassifications tally))
        (Double.of_size_t (N.of_nat (length (Forest.predictions f)
                                     + N.to_nat (Forest.num_samples f))))
    /\ length (Forest.predictions f')
       = (length (Forest.predictions f) + N.to_nat (Forest.num_samples f))%nat.
Proof.
  unfold Forest.computePredictionErrorInternal.
  destruct (mapM _ _) as [votes|] eqn:Hvotes; simpl; [|discriminate].
  intros [= <-]. simpl.
  apply length_mapM in Hvotes. rewrite count_oob_votes_length in Hvotes.
  rewrite length_app, <- Hvotes. eauto.
Qed.

(** C1 (the code departs from it). On [one_tree_forest] one sample is defined
    and it is misclassified, so the error over the defined samples is 1; the
    code divides the single misclassification by the number of all the
    samples, [predictions.size()], and reports 0.5. The confusion matrix
    counts the defined sample only. *)
Theorem computePredictionErrorInternal_divides_by_all_samples :
  exists f',
    Forest.computePredictionErrorInternal one_tree_forest = Some f'
    /\ defined_samples one_tree_forest = [0]
    /\ misclassified_samples one_tree_forest f' = [0]
    /\ oob_error one_tree_forest f' = 1%float
    /\ Forest.overall_prediction_error f' = 0.5%float
    /\ PrimFloat.eqb (Forest.overall_prediction_error f') (oob_error one_tree_forest f') = false
    /\ Forest.predictions f' = [[1%float]; [Double.NAN]]
    /\ Forest.classification_table f' = [((0%float, 1%float), 1)].
Proof. eexists. repeat split; reflexivity. Qed.

(** ** The class set *)

Lemma find_index_le (class_values : list double) (value : double) :
  (Forest.find_index class_values value <= length class_values)%nat.
Proof.
  induction class_values as [|c cs IH]; simpl; [lia|].
  destruct (PrimFloat.eqb c value); lia.
Qed.

Lemma find_index_found (class_values : list double) (value : double) :
  (Forest.find_index class_values value < length class_values)%nat ->
  exists c, In c class_values /\ PrimFloat.eqb c value = true.
Proof.
  induction class_values as [|c cs IH]; simpl; [lia|].
  destruct (PrimFloat.eqb c value) eqn:Hc.
  - intros _. exists c. split; [now left | exact Hc].
  - intros H. destruct IH as (c' & Hin & Heq); [lia|].
    exists c'. split; [now right | exact Heq].
Qed.

(** After the loop over the first [n] rows, every one of these rows has its
    response ([==], or the very same number when it is NaN) in the class
    set, and the class set has at most [n] more elements than before. *)
Lemma create_classes_cover (data : Data) (dependent_varID : N) (n : nat)
    (st : list double * list N) :
  N.of_nat (length (fst st) + n) < UInt.modulus ->
  let st' := fold_left (Forest.add_class data dependent_varID) (seq 0 n) st in
  (length (fst st') <= length (fst st) + n)%nat
  /\ (forall c, In c (fst st) -> In c (fst st'))
  /\ forall i, (i < n)%nat ->
       exists c, In c (fst st')
                 /\ (c = get data (N.of_nat i) dependent_varID
                     \/ PrimFloat.eqb c (get data (N.of_nat i) dependent_varID) = true).
Proof.
  induction n as [|n IH]; intros Hbound; cbv zeta.
  - simpl. split; [lia|]. split; [auto|]. intros i Hi. lia.
  - rewrite seq_S, fold_left_app. simpl.
    destruct IH as (Hlen & Hmono & Hcover); [lia|].
    set (st1 := fold_left (Forest.add_class data dependent_varID) (seq 0 n) st) in *.
    set (value := get data (N.of_nat n) dependent_varID).
    pose proof (find_index_le (fst st1) value) as Hle.
    unfold Forest.add_class. fold value. simpl.
    assert (UInt.wrap (N.of_nat (Forest.find_index (fst st1) value))
            = N.of_nat (Forest.find_index (fst st1) value)) as ->.
    { apply N.mod_small. lia. }
    destruct (N.eqb_spec (N.of_nat (Forest.find_index (fst st1) value))
                         (N.of_nat (length (fst st1)))) as [Heq|Hne].
    + split; [rewrite length_app; simpl; lia|].
      split; [intros c Hc; apply in_or_app; left; auto|].
      intros i Hi. destruct (decide (i = n)) as [->|Hin].
      * exists value. split; [apply in_or_app; right; now left | now left].
      * destruct (Hcover i ltac:(lia)) as (c & Hc & Hv).
        exists c. split; [apply in_or_app; now left | exact Hv].
    + split; [lia|]. split; [exact Hmono|].
      intros i Hi. destruct (decide (i = n)) as [->|Hin].
      * destruct (find_index_found (fst st1) value) as (c & Hc & Hv); [lia|].
        exists c. split; [exact Hc | now right].
      * apply Hcover. lia.
Qed.

Lemma initInternal_class_values_cover (f : Forest.ForestClassification) (i : N) :
  Forest.prediction_mode f = false ->
  Forest.class_values f = [] ->
  Forest.num_samples f < UInt.modulus ->
  i < Forest.num_samples f ->
  exists c, In c (Forest.class_values (Forest.initInternal f))
            /\ (c = get (Forest.data f) i (Forest.dependent_varID f)
                \/ PrimFloat.eqb c (get (Forest.data f) i (Forest.dependent_varID f)) = true).
Proof.
  intros Hmode Hempty Hbound Hi. unfold Forest.initInternal. rewrite Hmode. simpl.
  unfold Forest.create_classes. rewrite Hempty.
  destruct (create_classes_cover (Forest.data f) (Forest.dependent_varID f)
              (N.to_nat (Forest.num_samples f)) ([], Forest.response_classIDs f))
    as (_ & _ & Hcover).
  { simpl. lia. }
  specialize (Hcover (N.to_nat i) ltac:(lia)). now rewrite N2Nat.id in Hcover.
Qed.

(** C10. A node that [splitNodeInternal] finalizes as a leaf (by node size,
    by purity, or for want of a valid split) stores as its value the
    response of one of the node's own samples, the tree being otherwise
    unchanged. Hence the value belongs to the class set: when the tree's
    class values are those that [initInternal] created from the rows of the
    data set, and the sample is one of these rows, a class value is [==] to
    the stored value (or is the very same number, for a NaN). *)
Theorem splitNodeInternal_leaf_value_occurs
    (t t' : TreeClassification) (nodeID : N) (possible_split_varIDs : list N) :
  splitNodeInternal t nodeID possible_split_varIDs = Some (true, t') ->
  exists s,
    In s (node_samples t nodeID)
    /\ t' = set_split_value t nodeID (response t s)
    /\ split_values t' = <[N.to_nat nodeID := response t s]> (split_values t)
    /\ forall f : Forest.ForestClassification,
         Forest.prediction_mode f = false ->
         Forest.class_values f = [] ->
         Forest.num_samples f < UInt.modulus ->
         Forest.data f = data t ->
         Forest.dependent_varID f = dependent_varID t ->
         class_values t = Forest.class_values (Forest.initInternal f) ->
         s < Forest.num_samples f ->
         exists c, In c (class_values t)
                   /\ (c = response t s \/ PrimFloat.eqb c (response t s) = true).
Proof.
  intros Hsplit.
  assert (exists s, In s (node_samples t nodeID)
                    /\ t' = set_split_value t nodeID (response t s)) as (s & Hs & ->).
  { unfold splitNodeInternal in Hsplit.
    destruct (N.of_nat (length (node_samples t nodeID)) <=? min_node_size t) eqn:Hsize.
    - destruct (estimate t nodeID) as [v|] eqn:Hest; simpl in Hsplit; [|discriminate].
      injection Hsplit as <-. apply estimate_occurs in Hest as (s & Hs & ->). eauto.
    - destruct (purity_loop _ _ _) as [pure pv] eqn:Hpure. destruct pure.
      + injection Hsplit as <-.
        assert (node_samples t nodeID <> []) as Hne.
        { intros Heq. rewrite Heq in Hsize. simpl in Hsize.
          apply N.leb_gt in Hsize. lia. }
        apply purity_loop_value in Hpure;
          [|now destruct (node_samples t nodeID)|reflexivity].
        apply in_map_iff in Hpure as (s & <- & Hs). eauto.
      + destruct (findBestSplit t nodeID possible_split_varIDs) as [stop t1] eqn:Hfind.
        destruct stop; [|discriminate].
        apply findBestSplit_stop_unchanged in Hfind as ->.
        destruct (estimate t nodeID) as [v|] eqn:Hest; simpl in Hsplit; [|discriminate].
        injection Hsplit as <-. apply estimate_occurs in Hest as (s & Hs & ->). eauto. }
  exists s. split; [exact Hs|]. split; [reflexivity|]. split; [reflexivity|].
  intros f Hmode Hempty Hbound Hdata Hdep Hclasses Hrow.
  rewrite Hclasses. unfold response. rewrite <- Hdata, <- Hdep.
  now apply initInternal_class_values_cover.
Qed.

Lemma splitNodeInternal_leaf_value_occurs_witness :
  exists s,
    In s (node_samples unsplittable_tree 0)
    /\ snd (default (true, unsplittable_tree) (splitNodeInternal unsplittable_tree 0 [0]))
       = set_split_value unsplittable_tree 0 (response unsplittable_tree s)
    /\ split_values
         (snd (default (true, unsplittable_tree) (splitNodeInternal unsplittable_tree 0 [0])))
       = <[N.to_nat 0 := response unsplittable_tree s]> (split_values unsplittable_tree)
    /\ forall f : Forest.ForestClassification,
         Forest.prediction_mode f = false ->
         Forest.class_values f = [] ->
         Forest.num_samples f < UInt.modulus ->
         Forest.data f = data unsplittable_tree ->
         Forest.dependent_varID f = dependent_varID unsplittable_tree ->
         class_values unsplittable_tree = Forest.class_values (Forest.initInternal f) ->
         s < Forest.num_samples f ->
         exists c, In c (class_values unsplittable_tree)
                   /\ (c = response unsplittable_tree s
                       \/ PrimFloat.eqb c (response unsplittable_tree s) = true).
Proof.
  apply (splitNodeInternal_leaf_value_occurs unsplittable_tree _ 0 [0]).
  reflexivity.
Defined.

Example initInternal_classes :
  Forest.class_values (Forest.initInternal (fresh_forest unsplittable_data 4 2))
  = class_values unsplittable_tree
  /\ Forest.response_classIDs (Forest.initInternal (fresh_forest unsplittable_data 4 2))
     = response_classIDs unsplittable_tree.
Proof. split; reflexivity. Qed.

Example initInternal_defaults :
  Forest.mtry (Forest.initInternal (fresh_forest separable_data 6 10)) = 3
  /\ Forest.min_node_size (Forest.initInternal (fresh_forest separable_data 6 10)) = 1.
Proof. split; reflexivity. Qed.

(** * Further properties of the code *)

(** ** [initInternal]: the class tables *)

Lemma find_index_lookup (class_values : list double) (value : double) :
  (Forest.find_index class_values value < length class_values)%nat ->
  exists c, class_values !! Forest.find_index class_values value = Some c
            /\ PrimFloat.eqb c value = true.
Proof.
  induction class_values as [|c cs IH]; simpl; [lia|].
  destruct (PrimFloat.eqb c value) eqn:Hc.
  - intros _. exists c. split; [reflexivity | exact Hc].
  - intros H. apply IH. lia.
Qed.

Lemma find_index_missing (class_values : list double) (value c : double) :
  Forest.find_index class_values value = length class_values ->
  In c class_values -> PrimFloat.eqb c value = false.
Proof.
  induction class_values as [|c' cs IH]; simpl; [intros _ []|].
  destruct (PrimFloat.eqb c' value) eqn:Hc; [discriminate|].
  intros [= H] [<-|Hin]; [exact Hc | now apply IH].
Qed.

(** What the loop of [initInternal] has built after [n] rows, starting from
    empty tables. *)
Lemma create_classes_tables (data : Data) (dependent_varID : N) (n : nat) :
  N.of_nat n < UInt.modulus ->
  let st := fold_left (Forest.add_class data dependent_varID) (seq 0 n) ([], []) in
  (length (fst st) <= n)%nat
  /\ length (snd st) = n
  /\ (forall j k c1 c2, fst st !! j = Some c1 -> fst st !! k = Some c2 ->
        PrimFloat.eqb c1 c2 = true -> j = k)
  /\ forall i, (i < n)%nat ->
       exists id c,
         snd st !! i = Some id
         /\ fst st !! N.to_nat id = Some c
         /\ (c = get data (N.of_nat i) dependent_varID
             \/ PrimFloat.eqb c (get data (N.of_nat i) dependent_varID) = true).
Proof.
  induction n as [|n IH]; intros Hbound; cbv zeta.
  - simpl. split; [lia|]. split; [reflexivity|].
    split; [intros j k c1 c2 H; destruct j; discriminate|]. intros i Hi. lia.
  - rewrite seq_S, fold_left_app. simpl.
    destruct IH as (Hlen & Hrc & Hdist & Hrows); [lia|].
    set (st := fold_left (Forest.add_class data dependent_varID) (seq 0 n) ([], [])) in *.
    set (value := get data (N.of_nat n) dependent_varID).
    pose proof (find_index_le (fst st) value) as Hle.
    unfold Forest.add_class. fold value. simpl.
    assert (UInt.wrap (N.of_nat (Forest.find_index (fst st) value))
            = N.of_nat (Forest.find_index (fst st) value)) as ->.
    { apply N.mod_small. lia. }
    assert (forall i, (i < n)%nat ->
              forall cv' : list double,
                (forall j c, fst st !! j = Some c -> cv' !! j = Some c) ->
              exists id c,
                (snd st ++ [N.of_nat (Forest.find_index (fst st) value)]) !! i = Some id
                /\ cv' !! N.to_nat id = Some c
                /\ (c = get data (N.of_nat i) dependent_varID
                    \/ PrimFloat.eqb c (get data (N.of_nat i) dependent_varID) = true))
      as Hold.
    { intros i Hi cv' Hcv'. destruct (Hrows i Hi) as (id & c & Hid & Hc & Hv).
      exists id, c. split; [|split; [now apply Hcv' | exact Hv]].
      rewrite lookup_app_l by lia. exact Hid. }
    destruct (N.eqb_spec (N.of_nat (Forest.find_index (fst st) value))
                         (N.of_nat (length (fst st)))) as [Heq|Hne].
    + apply Nat2N.inj in Heq.
      split; [rewrite length_app; simpl; lia|].
      split; [rewrite length_app; simpl; lia|]. split.
      * intros j k c1 c2 Hj Hk Hjk.
        assert (forall i c, (fst st ++ [value]) !! i = Some c ->
                  (fst st !! i = Some c /\ (i < length (fst st))%nat)
                  \/ (i = length (fst st) /\ c = value)) as Hcases.
        { intros i c Hi. destruct (decide (i < length (fst st))%nat) as [Hlt|Hge].
          - rewrite lookup_app_l in Hi by exact Hlt. left. split; [exact Hi | exact Hlt].
          - rewrite lookup_app_r in Hi by lia.
            destruct (i - length (fst st))%nat as [|m] eqn:Hm; simpl in Hi; [|discriminate].
            right. split; [lia | congruence]. }
        destruct (Hcases _ _ Hj) as [[Hj' Hjl]|[-> ->]],
                 (Hcases _ _ Hk) as [[Hk' Hkl]|[-> ->]].
        -- eauto.
        -- exfalso. apply list_elem_of_lookup_2, list_elem_of_In in Hj'.
           rewrite (find_index_missing _ _ _ Heq Hj') in Hjk. discriminate.
        -- exfalso. apply list_elem_of_lookup_2, list_elem_of_In in Hk'.
           rewrite DoubleFacts.eqb_sym in Hjk.
           rewrite (find_index_missing _ _ _ Heq Hk') in Hjk. discriminate.
        -- reflexivity.
      * intros i Hi. destruct (decide (i = n)) as [->|Hin].
        -- exists (N.of_nat (length (fst st))), value.
           rewrite Heq, lookup_app_r by lia. rewrite Hrc, Nat.sub_diag. simpl.
           split; [reflexivity|]. split; [|now left].
           rewrite Nat2N.id, lookup_app_r by lia. now rewrite Nat.sub_diag.
        -- apply Hold; [lia|]. intros j c Hj.
           rewrite lookup_app_l; [exact Hj|]. now apply lookup_lt_Some in Hj.
    + assert (Forest.find_index (fst st) value < length (fst st))%nat as Hfound.
      { assert (Forest.find_index (fst st) value <> length (fst st)) by congruence. lia. }
      split; [lia|]. split; [rewrite length_app; simpl; lia|]. split; [exact Hdist|].
      intros i Hi. destruct (decide (i = n)) as [->|Hin].
      * destruct (find_index_lookup _ _ Hfound) as (c & Hc & Hv).
        exists (N.of_nat (Forest.find_index (fst st) value)), c.
        rewrite lookup_app_r by lia. rewrite Hrc, Nat.sub_diag. simpl.
        split; [reflexivity|]. rewrite Nat2N.id. split; [exact Hc | now right].
      * apply Hold; [lia | auto].
Qed.

Lemma create_classes_from_rows (data : Data) (dependent_varID : N) (n : nat) (c : double) :
  In c (fst (fold_left (Forest.add_class data dependent_varID) (seq 0 n) ([], []))) ->
  exists i, (i < n)%nat /\ c = get data (N.of_nat i) dependent_varID.
Proof.
  induction n as [|n IH]; [intros []|].
  rewrite seq_S, fold_left_app. simpl. unfold Forest.add_class at 1. simpl.
  destruct (_ =? _).
  - intros [Hin|[<-|[]]]%in_app_or.
    + destruct (IH Hin) as (i & Hi & ->). exists i. split; [lia | reflexivity].
    + exists n. split; [lia | reflexivity].
  - intros Hin. destruct (IH Hin) as (i & Hi & ->). exists i. split; [lia | reflexivity].
Qed.

Lemma initInternal_tables (f : Forest.ForestClassification) :
  Forest.prediction_mode f = false ->
  Forest.class_values f = [] ->
  Forest.response_classIDs f = [] ->
  Forest.class_values (Forest.initInternal f)
  = fst (fold_left (Forest.add_class (Forest.data f) (Forest.dependent_varID f))
                   (seq 0 (N.to_nat (Forest.num_samples f))) ([], []))
  /\ Forest.response_classIDs (Forest.initInternal f)
     = snd (fold_left (Forest.add_class (Forest.data f) (Forest.dependent_varID f))
                      (seq 0 (N.to_nat (Forest.num_samples f))) ([], [])).
Proof.
  intros Hmode Hcv Hrc. unfold Forest.initInternal, Forest.create_classes.
  rewrite Hmode, Hcv, Hrc. split; reflexivity.
Qed.

(** X1. After [initInternal] (not in prediction mode, the class tables empty
    before, fewer than [2^32] rows) there is one class ID per row, and the
    class ID of a row is the index in [class_values] of a value [==] to the
    row's response (the response itself when it was the first of its class or
    is NaN): every class ID is a valid index of the class tables. *)
Theorem initInternal_class_ids (f : Forest.ForestClassification) :
  Forest.prediction_mode f = false ->
  Forest.class_values f = [] ->
  Forest.response_classIDs f = [] ->
  Forest.num_samples f < UInt.modulus ->
  length (Forest.response_classIDs (Forest.initInternal f))
  = N.to_nat (Forest.num_samples f)
  /\ forall i, i < Forest.num_samples f ->
       exists id c,
         Forest.response_classIDs (Forest.initInternal f) !! N.to_nat i = Some id
         /\ id < N.of_nat (length (Forest.class_values (Forest.initInternal f)))
         /\ Forest.class_values (Forest.initInternal f) !! N.to_nat id = Some c
         /\ (c = get (Forest.data f) i (Forest.dependent_varID f)
             \/ PrimFloat.eqb c (get (Forest.data f) i (Forest.dependent_varID f)) = true).
Proof.
  intros Hmode Hcv Hrc Hbound.
  destruct (initInternal_tables f Hmode Hcv Hrc) as [-> ->].
  destruct (create_classes_tables (Forest.data f) (Forest.dependent_varID f)
              (N.to_nat (Forest.num_samples f))) as (_ & Hlen & _ & Hrows); [lia|].
  split; [exact Hlen|]. intros i Hi.
  destruct (Hrows (N.to_nat i) ltac:(lia)) as (id & c & Hid & Hc & Hv).
  rewrite N2Nat.id in Hv. exists id, c. repeat split; try assumption.
  apply lookup_lt_Some in Hc. lia.
Qed.

Lemma initInternal_class_ids_witness :
  length (Forest.response_classIDs (Forest.initInternal (fresh_forest unsplittable_data 4 2)))
  = N.to_nat (Forest.num_samples (fresh_forest unsplittable_data 4 2))
  /\ forall i, i < Forest.num_samples (fresh_forest unsplittable_data 4 2) ->
       exists id c,
         Forest.response_classIDs (Forest.initInternal (fresh_forest unsplittable_data 4 2))
           !! N.to_nat i = Some id
         /\ id < N.of_nat (length (Forest.class_values
                                     (Forest.initInternal (fresh_forest unsplittable_data 4 2))))
         /\ Forest.class_values (Forest.initInternal (fresh_forest unsplittable_data 4 2))
              !! N.to_nat id = Some c
         /\ (c = get (Forest.data (fresh_forest unsplittable_data 4 2)) i
                     (Forest.dependent_varID (fresh_forest unsplittable_data 4 2))
             \/ PrimFloat.eqb c
                  (get (Forest.data (fresh_forest unsplittable_data 4 2)) i
                       (Forest.dependent_varID (fresh_forest unsplittable_data 4 2))) = true).
Proof.
  apply (initInternal_class_ids (fresh_forest unsplittable_data 4 2)); reflexivity.
Defined.

(** X2. The class values that [initInternal] creates are the distinct
    responses of the rows: no two of them are [==], and each is the response
    of a row. *)
Theorem initInternal_class_values_distinct (f : Forest.ForestClassification) :
  Forest.prediction_mode f = false ->
  Forest.class_values f = [] ->
  Forest.response_classIDs f = [] ->
  Forest.num_samples f < UInt.modulus ->
  (forall j k c1 c2,
     Forest.class_values (Forest.initInternal f) !! j = Some c1 ->
     Forest.class_values (Forest.initInternal f) !! k = Some c2 ->
     PrimFloat.eqb c1 c2 = true -> j = k)
  /\ (forall c, In c (Forest.class_values (Forest.initInternal f)) ->
        exists i, i < Forest.num_samples f
                  /\ c = get (Forest.data f) i (Forest.dependent_varID f))
  /\ (length (Forest.class_values (Forest.initInternal f))
      <= N.to_nat (Forest.num_samples f))%nat.
Proof.
  intros Hmode Hcv Hrc Hbound.
  destruct (initInternal_tables f Hmode Hcv Hrc) as [-> _].
  destruct (create_classes_tables (Forest.data f) (Forest.dependent_varID f)
              (N.to_nat (Forest.num_samples f))) as (Hlen & _ & Hdist & _); [lia|].
  split; [exact Hdist|]. split; [|exact Hlen].
  intros c (i & Hi & ->)%create_classes_from_rows.
  exists (N.of_nat i). split; [lia | reflexivity].
Qed.

Lemma initInternal_class_values_distinct_witness :
  (forall j k c1 c2,
     Forest.class_values (Forest.initInternal (fresh_forest separable_data 6 2)) !! j = Some c1 ->
     Forest.class_values (Forest.initInternal (fresh_forest separable_data 6 2)) !! k = Some c2 ->
     PrimFloat.eqb c1 c2 = true -> j = k)
  /\ (forall c, In c (Forest.class_values (Forest.initInternal (fresh_forest separable_data 6 2))) ->
        exists i, i < Forest.num_samples (fresh_forest separable_data 6 2)
                  /\ c = get (Forest.data (fresh_forest separable_data 6 2)) i
                             (Forest.dependent_varID (fresh_forest separable_data 6 2)))
  /\ (length (Forest.class_values (Forest.initInternal (fresh_forest separable_data 6 2)))
      <= N.to_nat (Forest.num_samples (fresh_forest separable_data 6 2)))%nat.
Proof.
  apply (initInternal_class_values_distinct (fresh_forest separable_data 6 2)); reflexivity.
Defined.

(** ** The counting loop of [findBestSplit]: totals *)

Lemma sum_counts_indicator (c : N) (start len : nat) :
  sum_counts (map (fun k => if c =? N.of_nat k then 1 else 0) (seq start len))
  = if (N.of_nat start <=? c) && (c <? N.of_nat (start + len)) then 1 else 0.
Proof.
  revert start. induction len as [|len IH]; intros start; simpl.
  - rewrite Nat.add_0_r.
    destruct (N.leb_spec (N.of_nat start) c), (N.ltb_spec c (N.of_nat start));
      simpl; try reflexivity; lia.
  - rewrite IH.
    destruct (N.eqb_spec c (N.of_nat start)), (N.leb_spec (N.of_nat (S start)) c),
             (N.ltb_spec c (N.of_nat (S start + len))),
             (N.leb_spec (N.of_nat start) c),
             (N.ltb_spec c (N.of_nat (start + S len))); simpl; try reflexivity; lia.
Qed.

Lemma sum_counts_add (g h : nat -> N) (l : list nat) :
  sum_counts (map (fun k => g k + h k) l) = sum_counts (map g l) + sum_counts (map h l).
Proof. induction l as [|k l IH]; simpl; [reflexivity|]. rewrite IH. lia. Qed.

Lemma class_sizes_total (t : TreeClassification) (part : list N) :
  (forall s, In s part -> sample_classID t s < N.of_nat (length (class_values t))) ->
  sum_counts (map (fun k => class_size t part (N.of_nat k))
                  (seq 0 (length (class_values t))))
  = N.of_nat (length part).
Proof.
  induction part as [|s part IH] using rev_ind; intros Hids.
  - simpl. induction (seq 0 (length (class_values t))) as [|k l IHl]; simpl; [reflexivity|].
    now rewrite IHl.
  - erewrite map_ext; [|intros k; apply class_size_snoc].
    rewrite sum_counts_add, IH, sum_counts_indicator, length_app.
    + specialize (Hids s ltac:(apply in_or_app; right; now left)).
      destruct (N.leb_spec (N.of_nat 0) (sample_classID t s)),
               (N.ltb_spec (sample_classID t s) (N.of_nat (0 + length (class_values t))));
        simpl in *; lia.
    + intros s' Hs'. apply Hids, in_or_app. now left.
Qed.

Lemma sum_counts_counts_of (t : TreeClassification) (part : list N) :
  (forall s, In s part -> sample_classID t s < N.of_nat (length (class_values t))) ->
  N.of_nat (length part) < SizeT.modulus ->
  sum_counts (counts_of t part) = N.of_nat (length part).
Proof.
  intros Hids Hlen. rewrite <- (class_sizes_total t part Hids). unfold counts_of.
  f_equal. apply map_ext. intros k. apply SizeTFacts.wrap_small.
  pose proof (class_size_le t part (N.of_nat k)). lia.
Qed.

Lemma left_right_length (t : TreeClassification) (samples : list N) varID threshold :
  (length (left_samples t samples varID threshold)
   + length (right_samples t samples varID threshold) = length samples)%nat.
Proof.
  unfold left_samples, right_samples.
  induction samples as [|s samples IH]; simpl; [reflexivity|].
  destruct (goes_left t varID threshold s); simpl; lia.
Qed.

(** X3. The counting loop of [findBestSplit] accounts for every sample once:
    when the class IDs of the node's samples are valid indexes of the class
    counts, the left class counts sum to [n_left], the right ones to
    [n_right], and [n_left + n_right] is the size of the node. *)
Theorem count_split_totals
    (t : TreeClassification) (samples : list N) (varID : N) (split_value : double) :
  (forall s, In s samples -> sample_classID t s < N.of_nat (length (class_values t))) ->
  N.of_nat (length samples) < SizeT.modulus ->
  sum_counts (class_counts_left (count_split t samples varID split_value))
  = n_left (count_split t samples varID split_value)
  /\ sum_counts (class_counts_right (count_split t samples varID split_value))
     = n_right (count_split t samples varID split_value)
  /\ n_left (count_split t samples varID split_value)
     + n_right (count_split t samples varID split_value)
     = N.of_nat (length samples).
Proof.
  intros Hids Hlen. rewrite count_split_spec. simpl.
  pose proof (left_right_length t samples varID split_value) as Hsum.
  assert (forall part : list N, (length part <= length samples)%nat ->
            SizeT.wrap (N.of_nat (length part)) = N.of_nat (length part)) as Hwrap.
  { intros part Hle. apply SizeTFacts.wrap_small. lia. }
  rewrite !Hwrap by lia.
  split; [|split; [|lia]].
  - apply sum_counts_counts_of; [|lia].
    intros s [Hs _]%List.filter_In. now apply Hids.
  - apply sum_counts_counts_of; [|lia].
    intros s [Hs _]%List.filter_In. now apply Hids.
Qed.

Lemma count_split_totals_witness :
  sum_counts (class_counts_left (count_split separable_tree [0; 1; 2; 3; 4; 5] 0 2%float))
  = n_left (count_split separable_tree [0; 1; 2; 3; 4; 5] 0 2%float)
  /\ sum_counts (class_counts_right (count_split separable_tree [0; 1; 2; 3; 4; 5] 0 2%float))
     = n_right (count_split separable_tree [0; 1; 2; 3; 4; 5] 0 2%float)
  /\ n_left (count_split separable_tree [0; 1; 2; 3; 4; 5] 0 2%float)
     + n_right (count_split separable_tree [0; 1; 2; 3; 4; 5] 0 2%float)
     = N.of_nat (length [0; 1; 2; 3; 4; 5]).
Proof.
  apply (count_split_totals separable_tree [0; 1; 2; 3; 4; 5] 0 2%float).
  - intros s Hs. simpl in Hs.
    repeat (destruct Hs as [<-|Hs]; [reflexivity|]). destruct Hs.
  - reflexivity.
Defined.

(** ** What [splitNodeInternal] writes *)

Lemma set_split_value_writes t nodeID v : writes_only_node t (set_split_value t nodeID v) nodeID.
Proof.
  unfold writes_only_node. simpl. repeat split; try reflexivity.
  - apply length_insert.
  - now apply list_lookup_insert_ne.
Qed.

Lemma store_split_writes t nodeID c decrease :
  writes_only_node t (store_split t nodeID c decrease) nodeID.
Proof.
  unfold writes_only_node, store_split. simpl.
  destruct (ImportanceMode_eqb (importance_mode t) IMP_GINI); simpl;
    repeat split; try reflexivity;
    try apply length_insert; try (now apply list_lookup_insert_ne).
  apply length_alter.
Qed.

Lemma splitNodeInternal_outcomes t nodeID vars leaf t' :
  splitNodeInternal t nodeID vars = Some (leaf, t') ->
  (leaf = true /\ exists w, t' = set_split_value t nodeID w)
  \/ (leaf = false
      /\ (N.of_nat (length (node_samples t nodeID)) <=? min_node_size t) = false
      /\ fst (purity_loop (map (response t) (node_samples t nodeID)) true 0%float) = false
      /\ findBestSplit t nodeID vars = (false, t')).
Proof.
  unfold splitNodeInternal.
  destruct (N.of_nat (length (node_samples t nodeID)) <=? min_node_size t).
  - destruct (estimate t nodeID) as [v|]; simpl; [|discriminate].
    intros [= <- <-]. left. eauto.
  - destruct (purity_loop _ _ _) as [pure pv]. destruct pure.
    + intros [= <- <-]. left. eauto.
    + destruct (findBestSplit t nodeID vars) as [stop t1] eqn:Hfind. destruct stop.
      * apply findBestSplit_stop_unchanged in Hfind as ->.
        destruct (estimate t nodeID) as [v|]; simpl; [|discriminate].
        intros [= <- <-]. left. eauto.
      * intros [= <- <-]. right. repeat split; reflexivity.
Qed.

(** X4. [splitNodeInternal] writes nothing but the entries of its node: in
    every outcome the data, the samples, the children, the class tables and
    the settings are the same, no array changes its length, and the split
    variables and split values of the other nodes are the same. A leaf
    changes neither [split_varIDs] nor [variable_importance], and outside
    GINI mode [variable_importance] is never changed. *)
Theorem splitNodeInternal_writes_only_node
    (t t' : TreeClassification) (nodeID : N) (possible_split_varIDs : list N)
    (leaf : bool) :
  splitNodeInternal t nodeID possible_split_varIDs = Some (leaf, t') ->
  writes_only_node t t' nodeID
  /\ (leaf = true ->
      split_varIDs t' = split_varIDs t /\ variable_importance t' = variable_importance t)
  /\ (importance_mode t <> IMP_GINI -> variable_importance t' = variable_importance t).
Proof.
  intros [(-> & w & ->)|(-> & _ & _ & Hfind)]%splitNodeInternal_outcomes.
  - split; [apply set_split_value_writes|]. split; [intros _; split|]; reflexivity.
  - destruct (findBestSplit_counted t nodeID possible_split_varIDs) as (r & _ & Hout).
    rewrite Hout in Hfind. destruct r as [c|]; simpl in Hfind; [|discriminate].
    injection Hfind as <-.
    split; [apply store_split_writes|]. split; [discriminate|].
    intros Hmode. unfold store_split. simpl.
    destruct (importance_mode t); [reflexivity | congruence].
Qed.

Lemma splitNodeInternal_writes_only_node_witness :
  writes_only_node separable_tree
    (snd (default (true, separable_tree) (splitNodeInternal separable_tree 0 [0]))) 0
  /\ (false = true ->
      split_varIDs (snd (default (true, separable_tree) (splitNodeInternal separable_tree 0 [0])))
      = split_varIDs separable_tree
      /\ variable_importance
           (snd (default (true, separable_tree) (splitNodeInternal separable_tree 0 [0])))
         = variable_importance separable_tree)
  /\ (importance_mode separable_tree <> IMP_GINI ->
      variable_importance
        (snd (default (true, separable_tree) (splitNodeInternal separable_tree 0 [0])))
      = variable_importance separable_tree).
Proof.
  apply (splitNodeInternal_writes_only_node separable_tree _ 0 [0] false). reflexivity.
Defined.

Lemma purity_loop_impure (values : list double) (first : bool) (pv0 pv : double) :
  purity_loop values first pv0 = (false, pv) ->
  exists x y, In x values
              /\ (In y values \/ (first = false /\ y = pv0))
              /\ Double.neb x y = true.
Proof.
  revert first pv0. induction values as [|x values IH]; intros first pv0; simpl;
    [discriminate|].
  destruct (negb first && Double.neb x pv0) eqn:Hc.
  - intros _. apply andb_true_iff in Hc as [Hf Hx]. apply negb_true_iff in Hf.
    exists x, pv0. split; [now left|]. split; [now right | exact Hx].
  - intros H. destruct (IH _ _ H) as (x' & y' & Hx' & Hy' & Hne).
    exists x', y'. split; [now right|]. split; [|exact Hne].
    left. destruct Hy' as [Hy'|[_ ->]]; [now right | now left].
Qed.

(** X5. A node that [splitNodeInternal] does not finalize (it is to be split)
    has more than [min_node_size] samples, two of which have different
    responses, and its split is the one that [findBestSplit] stored: a pure
    node and a node of at most [min_node_size] samples are never split. *)
Theorem splitNodeInternal_internal_node
    (t t' : TreeClassification) (nodeID : N) (possible_split_varIDs : list N) :
  splitNodeInternal t nodeID possible_split_varIDs = Some (false, t') ->
  min_node_size t < N.of_nat (length (node_samples t nodeID))
  /\ (exists s1 s2,
        In s1 (node_samples t nodeID) /\ In s2 (node_samples t nodeID)
        /\ Double.neb (response t s1) (response t s2) = true)
  /\ findBestSplit t nodeID possible_split_varIDs = (false, t').
Proof.
  intros [(Hleaf & _)|(_ & Hsize & Hpure & Hfind)]%splitNodeInternal_outcomes;
    [discriminate|].
  split; [now apply N.leb_gt|]. split; [|exact Hfind].
  destruct (purity_loop _ _ _) as [pure pv] eqn:Hloop. simpl in Hpure. subst pure.
  apply purity_loop_impure in Hloop as (x & y & Hx & [Hy|[Habs _]] & Hne);
    [|discriminate].
  apply in_map_iff in Hx as (s1 & <- & Hs1). apply in_map_iff in Hy as (s2 & <- & Hs2).
  eauto.
Qed.

Lemma splitNodeInternal_internal_node_witness :
  min_node_size separable_tree < N.of_nat (length (node_samples separable_tree 0))
  /\ (exists s1 s2,
        In s1 (node_samples separable_tree 0) /\ In s2 (node_samples separable_tree 0)
        /\ Double.neb (response separable_tree s1) (response separable_tree s2) = true)
  /\ findBestSplit separable_tree 0 [0]
     = (false, snd (default (true, separable_tree) (splitNodeInternal separable_tree 0 [0]))).
Proof.
  apply (splitNodeInternal_internal_node separable_tree _ 0 [0]). reflexivity.
Defined.

Lemma findBestSplit_stored_candidate t t' nodeID vars varID threshold :
  findBestSplit t nodeID vars = (false, t') ->
  split_varIDs t' !! N.to_nat nodeID = Some varID ->
  split_values t' !! N.to_nat nodeID = Some threshold ->
  In (varID, threshold) (candidates t (node_samples t nodeID) vars)
  /\ nonempty_children t (node_samples t nodeID) (varID, threshold) = true.
Proof.
  intros Hfind Hvar Hval.
  destruct (findBestSplit_counted t nodeID vars) as (r & Hr & Hout).
  rewrite Hout in Hfind. destruct r as [c|]; simpl in Hfind; [|discriminate].
  injection Hfind as <-.
  rewrite store_split_varIDs in Hvar. apply lookup_insert_inv in Hvar.
  rewrite store_split_values in Hval. apply lookup_insert_inv in Hval.
  destruct Hr as (pre & post & Hcs & _).
  assert (In c (List.filter (counted_nonempty t (node_samples t nodeID))
                  (candidates t (node_samples t nodeID) vars))) as Hin.
  { rewrite Hcs. apply in_or_app. right. now left. }
  apply List.filter_In in Hin as [Hin Hc]. destruct c as [v th]. simpl in *. subst.
  split; [exact Hin | now apply counted_nonempty_children].
Qed.

(** X6. The split that [findBestSplit] stores divides the node's samples
    into two parts by the test [value <= split_value]: every sample is in
    exactly one part, the sizes add up to the size of the node, and each
    part is strictly smaller than the node. *)
Theorem findBestSplit_children_smaller
    (t t' : TreeClassification) (nodeID : N) (possible_split_varIDs : list N)
    (varID : N) (threshold : double) :
  findBestSplit t nodeID possible_split_varIDs = (false, t') ->
  split_varIDs t' !! N.to_nat nodeID = Some varID ->
  split_values t' !! N.to_nat nodeID = Some threshold ->
  (length (left_samples t (node_samples t nodeID) varID threshold)
   + length (right_samples t (node_samples t nodeID) varID threshold)
   = length (node_samples t nodeID))%nat
  /\ (0 < length (left_samples t (node_samples t nodeID) varID threshold)
      < length (node_samples t nodeID))%nat
  /\ (0 < length (right_samples t (node_samples t nodeID) varID threshold)
      < length (node_samples t nodeID))%nat
  /\ forall s, In s (node_samples t nodeID) ->
       (In s (left_samples t (node_samples t nodeID) varID threshold)
        /\ ~ In s (right_samples t (node_samples t nodeID) varID threshold))
       \/ (In s (right_samples t (node_samples t nodeID) varID threshold)
           /\ ~ In s (left_samples t (node_samples t nodeID) varID threshold)).
Proof.
  intros Hfind Hvar Hval.
  destruct (findBestSplit_stored_candidate _ _ _ _ _ _ Hfind Hvar Hval) as [_ Hne].
  apply nonempty_children_parts in Hne as [HL HR]. simpl in HL, HR.
  pose proof (left_right_length t (node_samples t nodeID) varID threshold) as Hsum.
  assert (0 < length (left_samples t (node_samples t nodeID) varID threshold))%nat as HL'.
  { destruct (left_samples t (node_samples t nodeID) varID threshold);
      [congruence | simpl; lia]. }
  assert (0 < length (right_samples t (node_samples t nodeID) varID threshold))%nat as HR'.
  { destruct (right_samples t (node_samples t nodeID) varID threshold);
      [congruence | simpl; lia]. }
  split; [exact Hsum|]. split; [lia|]. split; [lia|].
  intros s Hs. unfold left_samples, right_samples.
  rewrite !List.filter_In.
  destruct (goes_left t varID threshold s); simpl; [left | right];
    (split; [tauto | intros [_ H]; simpl in H; discriminate]).
Qed.

Lemma findBestSplit_children_smaller_witness :
  (length (left_samples separable_tree (node_samples separable_tree 0) 0 3%float)
   + length (right_samples separable_tree (node_samples separable_tree 0) 0 3%float)
   = length (node_samples separable_tree 0))%nat
  /\ (0 < length (left_samples separable_tree (node_samples separable_tree 0) 0 3%float)
      < length (node_samples separable_tree 0))%nat
  /\ (0 < length (right_samples separable_tree (node_samples separable_tree 0) 0 3%float)
      < length (node_samples separable_tree 0))%nat
  /\ forall s, In s (node_samples separable_tree 0) ->
       (In s (left_samples separable_tree (node_samples separable_tree 0) 0 3%float)
        /\ ~ In s (right_samples separable_tree (node_samples separable_tree 0) 0 3%float))
       \/ (In s (right_samples separable_tree (node_samples separable_tree 0) 0 3%float)
           /\ ~ In s (left_samples separable_tree (node_samples separable_tree 0) 0 3%float)).
Proof.
  apply (findBestSplit_children_smaller separable_tree
           (snd (findBestSplit separable_tree 0 [0])) 0 [0] 0 3%float);
    reflexivity.
Defined.

(** ** The index of a variable in [variable_importance] *)

Lemma range_length (a b : N) (l : list N) :
  List.NoDup l -> (forall x, In x l -> a <= x < b) -> N.of_nat (length l) <= b - a.
Proof.
  intros Hnd Hin.
  assert (incl l (map (fun k => a + N.of_nat k) (seq 0 (N.to_nat (b - a))))) as Hincl.
  { intros x Hx. apply in_map_iff. exists (N.to_nat (x - a)).
    specialize (Hin x Hx). split; [lia|]. apply in_seq. lia. }
  apply NoDup_incl_length in Hincl; [|exact Hnd].
  rewrite length_map, length_seq in Hincl. lia.
Qed.

Lemma filter_split_length (v : N) (l : list N) :
  ~ In v l ->
  (length (List.filter (fun x => N.ltb x v) l) + length (List.filter (fun x => N.ltb v x) l)
   = length l)%nat.
Proof.
  induction l as [|x l IH]; simpl; [reflexivity|]. intros Hnot.
  assert (x <> v) by tauto. assert (~ In v l) as Hl by tauto. specialize (IH Hl).
  destruct (N.ltb_spec x v), (N.ltb_spec v x); simpl; lia.
Qed.

Lemma filter_between_length (v1 v2 : N) (l : list N) :
  v1 < v2 -> ~ In v1 l ->
  (length (List.filter (fun x => N.ltb x v2) l)
   = length (List.filter (fun x => N.ltb x v1) l)
     + length (List.filter (fun x => N.ltb v1 x && N.ltb x v2) l))%nat.
Proof.
  intros Hlt. induction l as [|x l IH]; simpl; [reflexivity|]. intros Hnot.
  assert (x <> v1) by tauto. assert (~ In v1 l) as Hl by tauto. specialize (IH Hl).
  destruct (N.ltb_spec x v2), (N.ltb_spec x v1), (N.ltb_spec v1 x); simpl; lia.
Qed.

(** X7. The importance update of [addGiniImportance] lands on an entry of
    [variable_importance]: with [P] variables, no-split variables that are
    distinct and below [P], a split variable below [P] that is not one of
    them, and one importance entry per other variable, the index computed
    is below the length of [variable_importance], and that entry, and only
    that entry, receives the addition of
    [decrease - sum_node / |samples|]. *)
Theorem addGiniImportance_in_bounds
    (t : TreeClassification) (nodeID varID : N) (decrease : double) (P : N) :
  List.NoDup (no_split_variables t) ->
  (forall skip, In skip (no_split_variables t) -> skip < P) ->
  ~ In varID (no_split_variables t) ->
  varID < P -> P <= SizeT.modulus ->
  N.of_nat (length (variable_importance t))
  = P - N.of_nat (length (no_split_variables t)) ->
  exists old,
    variable_importance t !! N.to_nat (skip_no_split (no_split_variables t) varID) = Some old
    /\ variable_importance (addGiniImportance t nodeID varID decrease)
       = <[N.to_nat (skip_no_split (no_split_variables t) varID)
           := PrimFloat.add old
                (PrimFloat.sub decrease
                   (PrimFloat.div
                      (sum_of_squares (count_node_classes t (node_samples t nodeID)))
                      (Double.of_size_t (N.of_nat (length (node_samples t nodeID))))))]>
           (variable_importance t).
Proof.
  intros Hnd Hbelow Hnot HvarP HP Hlen.
  rewrite skip_no_split_index by (try assumption; lia).
  unfold importance_index.
  pose proof (filter_split_length varID (no_split_variables t) Hnot) as Hsplit.
  assert (N.of_nat (length (List.filter (fun x => varID <? x) (no_split_variables t)))
          <= P - (varID + 1)) as Hgt.
  { apply range_length; [now apply List.NoDup_filter|].
    intros x [Hx Hlt%N.ltb_lt]%List.filter_In. specialize (Hbelow x Hx). lia. }
  assert (N.of_nat (length (List.filter (fun x => x <? varID) (no_split_variables t)))
          <= varID) as Hlt.
  { apply below_length; [now apply List.NoDup_filter|].
    intros x [_ Hx%N.ltb_lt]%List.filter_In. exact Hx. }
  set (idx := N.to_nat (varID - N.of_nat (length (List.filter (fun skip => skip <? varID)
                                                   (no_split_variables t))))).
  assert (idx < length (variable_importance t))%nat as Hidx by (subst idx; lia).
  destruct (lookup_lt_is_Some_2 _ _ Hidx) as (old & Hold).
  exists old. split; [exact Hold|].
  unfold addGiniImportance. simpl.
  rewrite skip_no_split_index by (try assumption; lia). fold idx.
  unfold importance_index. fold idx.
  apply list_eq. intros j. destruct (decide (j = idx)) as [->|Hne].
  - rewrite list_lookup_alter_eq, list_lookup_insert_eq by exact Hidx.
    rewrite Hold. reflexivity.
  - rewrite list_lookup_alter_ne, list_lookup_insert_ne by congruence. reflexivity.
Qed.

Lemma addGiniImportance_in_bounds_witness :
  exists old,
    variable_importance separable_tree
      !! N.to_nat (skip_no_split (no_split_variables separable_tree) 0) = Some old
    /\ variable_importance (addGiniImportance separable_tree 0 0 6%float)
       = <[N.to_nat (skip_no_split (no_split_variables separable_tree) 0)
           := PrimFloat.add old
                (PrimFloat.sub 6%float
                   (PrimFloat.div
                      (sum_of_squares
                         (count_node_classes separable_tree (node_samples separable_tree 0)))
                      (Double.of_size_t
                         (N.of_nat (length (node_samples separable_tree 0))))))]>
           (variable_importance separable_tree).
Proof.
  apply (addGiniImportance_in_bounds separable_tree 0 0 6%float 2).
  - constructor; [simpl; tauto | constructor].
  - intros skip [<-|[]]. reflexivity.
  - simpl. intros [H|[]]. discriminate.
  - reflexivity.
  - discriminate.
  - reflexivity.
Defined.

(** X8. The index that [addGiniImportance] computes keeps the order of the
    variables: of two variables that are not no-split variables, the one
    with the smaller ID gets the smaller index, so two different split
    variables are never credited to the same importance entry. *)
Theorem skip_no_split_increasing (no_split : list N) (v1 v2 : N) :
  List.NoDup no_split ->
  ~ In v1 no_split -> ~ In v2 no_split ->
  v1 < v2 -> v2 < SizeT.modulus ->
  skip_no_split no_split v1 < skip_no_split no_split v2.
Proof.
  intros Hnd H1 H2 Hlt Hmod.
  rewrite !skip_no_split_index by (try assumption; lia). unfold importance_index.
  pose proof (filter_between_length v1 v2 no_split Hlt H1) as Hbetween.
  assert (N.of_nat (length (List.filter (fun x => (v1 <? x) && (x <? v2)) no_split))
          <= v2 - (v1 + 1)) as Hmid.
  { apply range_length; [now apply List.NoDup_filter|].
    intros x [_ [Ha%N.ltb_lt Hb%N.ltb_lt]%andb_true_iff]%List.filter_In. lia. }
  assert (N.of_nat (length (List.filter (fun x => x <? v1) no_split)) <= v1) as Hlow.
  { apply below_length; [now apply List.NoDup_filter|].
    intros x [_ Hx%N.ltb_lt]%List.filter_In. exact Hx. }
  lia.
Qed.

Lemma skip_no_split_increasing_witness :
  skip_no_split [1; 3] 0 < skip_no_split [1; 3] 2
  /\ skip_no_split [1; 3] 2 < skip_no_split [1; 3] 4.
Proof.
  split.
  - apply (skip_no_split_increasing [1; 3] 0 2); try reflexivity.
    + repeat constructor; simpl; intuition discriminate.
    + simpl. intuition discriminate.
    + simpl. intuition discriminate.
  - apply (skip_no_split_increasing [1; 3] 2 4); try reflexivity.
    + repeat constructor; simpl; intuition discriminate.
    + simpl. intuition discriminate.
    + simpl. intuition discriminate.
Defined.

(** ** The votes of [computePredictionErrorInternal] *)

Lemma count_values_key (values : list double) (m0 : class_count_map) (k : double) (c : N) :
  In (k, c) (fold_left incr_count values m0) ->
  In k values \/ exists c', In (k, c') m0.
Proof.
  revert m0. induction values as [|v values IH]; intros m0; simpl; [eauto|].
  intros [Hin|(c' & [->|(c'' & Hc)]%incr_count_key)]%IH; eauto.
Qed.

Lemma count_values_nonempty (values : list double) (m0 : class_count_map) :
  values <> [] -> fold_left incr_count values m0 <> [].
Proof.
  destruct values as [|v values] using rev_ind; [congruence|]. intros _.
  rewrite fold_left_app. simpl. apply incr_count_nonempty.
Qed.

Lemma vote_pairs_lookup (pairs : list (N * double)) (cc : list class_count_map) (i : nat) :
  fold_left (fun cc '(sampleID, value) =>
               alter (fun m => incr_count m value) (N.to_nat sampleID) cc) pairs cc !! i
  = (fun m => fold_left incr_count
                (map snd (List.filter (fun sv => fst sv =? N.of_nat i) pairs)) m)
      <$> cc !! i.
Proof.
  revert cc. induction pairs as [|[s v] pairs IH]; intros cc; simpl.
  - now destruct (cc !! i).
  - rewrite IH. destruct (N.eqb_spec s (N.of_nat i)) as [->|Hne]; simpl.
    + rewrite Nat2N.id, list_lookup_alter_eq. now destruct (cc !! i).
    + rewrite list_lookup_alter_ne; [reflexivity|]. intros <-. apply Hne.
      now rewrite N2Nat.id.
Qed.

Lemma count_oob_votes_lookup (f : Forest.ForestClassification) (i : nat) :
  (i < N.to_nat (Forest.num_samples f))%nat ->
  Forest.count_oob_votes f !! i
  = Some (fold_left incr_count (oob_votes f (N.of_nat i)) []).
Proof.
  intros Hi. unfold Forest.count_oob_votes, oob_votes.
  assert (forall trees cc,
            fold_left Forest.count_tree_votes trees cc !! i
            = (fun m => fold_left incr_count
                 (flat_map
                    (fun tree =>
                       map snd
                         (List.filter (fun sv => fst sv =? N.of_nat i)
                            (take (N.to_nat (getNumSamplesOob tree))
                               (zip (getOobSampleIDs tree)
                                    (default [] (getPredictions tree !! 0%nat))))))
                    trees) m) <$> cc !! i) as H.
  { induction trees as [|tree trees IH]; intros cc; cbn [fold_left flat_map].
    - now destruct (cc !! i).
    - rewrite IH. unfold Forest.count_tree_votes. rewrite vote_pairs_lookup.
      destruct (cc !! i); simpl; [|reflexivity]. now rewrite fold_left_app. }
  rewrite H, lookup_replicate_2 by exact Hi. reflexivity.
Qed.

Lemma majority_vote_value (g : mt19937_64) (values : list double) (p : list double) :
  Forest.majority_vote g (fold_left incr_count values []) = Some p ->
  (values = [] /\ p = [Double.NAN])
  \/ (exists v, In v values /\ p = [v]).
Proof.
  unfold Forest.majority_vote.
  destruct (fold_left incr_count values []) as [|kc m] eqn:Hm.
  - intros [= <-]. left. split; [|reflexivity].
    destruct values as [|v values]; [reflexivity|].
    exfalso. eapply (count_values_nonempty (v :: values) []); [discriminate | exact Hm].
  - destruct (mostFrequentValue (kc :: m) g) as [v|] eqn:Hv; simpl; [|discriminate].
    intros [= <-]. right. exists v. split; [|reflexivity].
    apply mostFrequentValue_In, major_classes_In in Hv. rewrite <- Hm in Hv.
    apply count_values_key in Hv as [Hin|(c' & [])]. exact Hin.
Qed.

(** X9. [computePredictionErrorInternal] appends one prediction per sample: a
    sample that is out of bag for no tree gets NaN, and a sample with OOB
    votes gets one of the values that a tree for which it is out of bag
    predicted for it. *)
Theorem computePredictionErrorInternal_predictions
    (f f' : Forest.ForestClassification) :
  Forest.computePredictionErrorInternal f = Some f' ->
  exists votes,
    Forest.predictions f' = Forest.predictions f ++ votes
    /\ length votes = N.to_nat (Forest.num_samples f)
    /\ forall i, i < Forest.num_samples f ->
         (oob_votes f i = [] /\ votes !! N.to_nat i = Some [Double.NAN])
         \/ (exists v, In v (oob_votes f i) /\ votes !! N.to_nat i = Some [v]).
Proof.
  unfold Forest.computePredictionErrorInternal.
  destruct (mapM _ _) as [votes|] eqn:Hvotes; simpl; [|discriminate].
  intros [= <-]. simpl. exists votes. split; [reflexivity|].
  pose proof (length_mapM _ _ _ Hvotes) as Hlen.
  rewrite count_oob_votes_length in Hlen. split; [now symmetry|].
  intros i Hi. apply mapM_Some in Hvotes.
  pose proof (count_oob_votes_lookup f (N.to_nat i) ltac:(lia)) as Hcc.
  rewrite N2Nat.id in Hcc.
  destruct (Forall2_lookup_l _ _ _ _ _ Hvotes Hcc) as (p & Hp & Hmaj).
  apply majority_vote_value in Hmaj as [[Hnone ->]|(v & Hv & ->)].
  - left. split; assumption.
  - right. exists v. split; assumption.
Qed.

Lemma computePredictionErrorInternal_predictions_witness :
  exists votes,
    Forest.predictions
      (default one_tree_forest (Forest.computePredictionErrorInternal one_tree_forest))
    = Forest.predictions one_tree_forest ++ votes
    /\ length votes = N.to_nat (Forest.num_samples one_tree_forest)
    /\ forall i, i < Forest.num_samples one_tree_forest ->
         (oob_votes one_tree_forest i = [] /\ votes !! N.to_nat i = Some [Double.NAN])
         \/ (exists v, In v (oob_votes one_tree_forest i) /\ votes !! N.to_nat i = Some [v]).
Proof.
  apply (computePredictionErrorInternal_predictions one_tree_forest). reflexivity.
Defined.

(** ** The tallies of [computePredictionErrorInternal] *)

Lemma table_incr_total (tbl : table) (key : double * double) :
  table_total tbl + 1 < SizeT.modulus ->
  table_total (table_incr tbl key) = table_total tbl + 1.
Proof.
  unfold table_total. induction tbl as [|[k c] tbl IH]; simpl; intros Hlt.
  - reflexivity.
  - destruct (pair_equiv k key); simpl.
    + unfold SizeT.incr. rewrite SizeTFacts.wrap_small by lia. lia.
    + rewrite IH by lia. lia.
Qed.

Lemma defined_predictions_length (predictions : list (list double)) :
  (length (defined_predictions predictions) <= length predictions)%nat.
Proof. apply List.filter_length_le. Qed.

Lemma compare_prediction_table (f : Forest.ForestClassification) (acc : Forest.Tally)
    (i : nat) (p : list double) :
  Forest.tally_table (Forest.compare_prediction f acc i p)
  = if negb (Double.isnan (first_value p))
    then table_incr (Forest.tally_table acc)
           (get (Forest.data f) (N.of_nat i) (Forest.dependent_varID f), first_value p)
    else Forest.tally_table acc.
Proof.
  unfold Forest.compare_prediction, first_value.
  now destruct (negb (Double.isnan (default 0%float (p !! 0%nat)))).
Qed.

Lemma compare_predictions_total (f : Forest.ForestClassification) (acc : Forest.Tally)
    (i : nat) (predictions : list (list double)) :
  table_total (Forest.tally_table acc) + N.of_nat (length predictions) < SizeT.modulus ->
  table_total (Forest.tally_table (Forest.compare_predictions f acc i predictions))
  = table_total (Forest.tally_table acc)
    + N.of_nat (length (defined_predictions predictions)).
Proof.
  revert acc i. induction predictions as [|p predictions IH]; intros acc i Hlt.
  - simpl. lia.
  - pose proof (defined_predictions_length predictions) as Hle.
    cbn [Forest.compare_predictions length] in *.
    unfold defined_predictions in *. cbn [List.filter].
    assert (table_total (Forest.tally_table (Forest.compare_prediction f acc i p))
            = table_total (Forest.tally_table acc)
              + (if negb (Double.isnan (first_value p)) then 1 else 0)) as Hstep.
    { rewrite compare_prediction_table.
      destruct (negb (Double.isnan (first_value p))); [|lia].
      apply table_incr_total. lia. }
    rewrite IH; rewrite Hstep;
      destruct (negb (Double.isnan (first_value p))); cbn [length]; lia.
Qed.

(** X10. The confusion table counts each prediction that is not NaN exactly
    once: after [computePredictionErrorInternal] the counts of the table
    have grown, in total, by the number of predictions that are not NaN (as
    long as the total stays below [2^64]). *)
Theorem computePredictionErrorInternal_table_total
    (f f' : Forest.ForestClassification) :
  Forest.computePredictionErrorInternal f = Some f' ->
  table_total (Forest.classification_table f)
  + N.of_nat (length (Forest.predictions f)) + Forest.num_samples f < SizeT.modulus ->
  table_total (Forest.classification_table f')
  = table_total (Forest.classification_table f)
    + N.of_nat (length (defined_predictions (Forest.predictions f'))).
Proof.
  unfold Forest.computePredictionErrorInternal.
  destruct (mapM _ _) as [votes|] eqn:Hvotes; simpl; [|discriminate].
  intros [= <-] Hlt. simpl.
  apply length_mapM in Hvotes. rewrite count_oob_votes_length in Hvotes.
  rewrite compare_predictions_total; [reflexivity|].
  simpl. rewrite length_app. lia.
Qed.

Lemma computePredictionErrorInternal_table_total_witness :
  table_total (Forest.classification_table
                 (default one_tree_forest
                          (Forest.computePredictionErrorInternal one_tree_forest)))
  = table_total (Forest.classification_table one_tree_forest)
    + N.of_nat (length (defined_predictions
                          (Forest.predictions
                             (default one_tree_forest
                                (Forest.computePredictionErrorInternal one_tree_forest))))).
Proof.
  apply (computePredictionErrorInternal_table_total one_tree_forest); reflexivity.
Defined.

Lemma div_zero_positive_finite (y : double) :
  positive_finite y -> PrimFloat.div 0%float y = 0%float.
Proof.
  unfold positive_finite. intros Hy. apply Prim2SF_inj. rewrite div_spec.
  change (Prim2SF 0%float) with (S754_zero false).
  destruct (Prim2SF y) as [s|s| |[] m e]; try contradiction. reflexivity.
Qed.

Lemma compare_predictions_all_correct (f : Forest.ForestClassification)
    (acc : Forest.Tally) (i : nat) (predictions : list (list double)) :
  (forall j p, predictions !! j = Some p ->
     Double.isnan (first_value p) = false ->
     PrimFloat.eqb (first_value p)
       (get (Forest.data f) (N.of_nat (i + j)) (Forest.dependent_varID f)) = true) ->
  Forest.num_missclassifications (Forest.compare_predictions f acc i predictions)
  = Forest.num_missclassifications acc.
Proof.
  revert acc i. induction predictions as [|p predictions IH]; intros acc i Hall; simpl.
  - reflexivity.
  - rewrite IH.
    + unfold Forest.compare_prediction. fold (first_value p).
      destruct (Double.isnan (first_value p)) eqn:Hnan; simpl; [reflexivity|].
      specialize (Hall 0%nat p eq_refl Hnan). rewrite Nat.add_0_r in Hall.
      unfold Double.neb. now rewrite Hall.
    + intros j q Hq Hnan. specialize (Hall (S j) q Hq Hnan).
      now replace (S i + j)%nat with (i + S j)%nat by lia.
Qed.

(** X11. When every prediction that is not NaN is [==] to the response of
    its sample, [computePredictionErrorInternal] reports the error [0]
    (there being at least one prediction and fewer than [2^53]). *)
Theorem computePredictionErrorInternal_no_error
    (f f' : Forest.ForestClassification) :
  Forest.computePredictionErrorInternal f = Some f' ->
  (forall i p, Forest.predictions f' !! i = Some p ->
     Double.isnan (first_value p) = false ->
     PrimFloat.eqb (first_value p)
       (get (Forest.data f) (N.of_nat i) (Forest.dependent_varID f)) = true) ->
  0 < N.of_nat (length (Forest.predictions f')) < 2 ^ 53 ->
  Forest.overall_prediction_error f' = 0%float.
Proof.
  unfold Forest.computePredictionErrorInternal.
  destruct (mapM _ _) as [votes|] eqn:Hvotes; simpl; [|discriminate].
  intros [= <-]. simpl. intros Hall Hlen.
  rewrite compare_predictions_all_correct by exact Hall. simpl.
  apply div_zero_positive_finite. now apply DoubleFacts.positive_finite_of_size_t.
Qed.

Lemma computePredictionErrorInternal_no_error_witness :
  Forest.overall_prediction_error
    (default same_class_forest (Forest.computePredictionErrorInternal same_class_forest))
  = 0%float.
Proof.
  apply (computePredictionErrorInternal_no_error same_class_forest).
  - reflexivity.
  - intros i p Hi Hnan. vm_compute in Hi.
    destruct i as [|[|i]]; [| |discriminate]; injection Hi as <-.
    + reflexivity.
    + vm_compute in Hnan. discriminate.
  - vm_compute. split; reflexivity.
Defined.

(** X12. For a data set without samples and no earlier predictions (the
    forest holding its [num_trees] trees, none of which has an out-of-bag
    sample), [computePredictionErrorInternal] divides zero by zero: the
    error it reports is NaN, and neither the predictions nor the confusion
    table change. *)
Theorem computePredictionErrorInternal_no_samples (f : Forest.ForestClassification) :
  Forest.num_samples f = 0 ->
  Forest.predictions f = [] ->
  (N.to_nat (Forest.num_trees f) <= length (Forest.trees f))%nat ->
  Forall (fun tree => getNumSamplesOob tree = 0) (Forest.trees f) ->
  exists f',
    Forest.computePredictionErrorInternal f = Some f'
    /\ Double.isnan (Forest.overall_prediction_error f') = true
    /\ Forest.predictions f' = []
    /\ Forest.classification_table f' = Forest.classification_table f.
Proof.
  intros Hn Hp _ _. unfold Forest.computePredictionErrorInternal.
  assert (Forest.count_oob_votes f = []) as ->.
  { apply length_zero_iff_nil. rewrite count_oob_votes_length, Hn. reflexivity. }
  simpl. rewrite Hp. simpl. eexists. split; [reflexivity|]. simpl.
  repeat split; reflexivity.
Qed.

Lemma computePredictionErrorInternal_no_samples_witness :
  exists f',
    Forest.computePredictionErrorInternal no_sample_forest = Some f'
    /\ Double.isnan (Forest.overall_prediction_error f') = true
    /\ Forest.predictions f' = []
    /\ Forest.classification_table f' = Forest.classification_table no_sample_forest.
Proof.
  apply (computePredictionErrorInternal_no_samples no_sample_forest).
  - reflexivity.
  - reflexivity.
  - simpl. lia.
  - repeat constructor.
Defined.

(** ** The majority vote of [predictInternal] *)

Lemma seq_lookup_values {A : Type} (d : A) (l : list A) :
  map (fun i => default d (l !! i)) (seq 0 (length l)) = l.
Proof.
  induction l as [|x l IH] using rev_ind; [reflexivity|].
  rewrite length_app, Nat.add_comm. cbn [length Nat.add]. rewrite seq_S, map_app.
  cbn [map Nat.add]. f_equal.
  - rewrite <- IH at 2. apply map_ext_in. intros i Hi%in_seq.
    rewrite lookup_app_l by lia. reflexivity.
  - rewrite lookup_app_r by lia. now rewrite Nat.sub_diag.
Qed.

Lemma filter_map_length {A B : Type} (p : B -> bool) (g : A -> B) (l : list A) :
  length (List.filter p (map g l)) = length (List.filter (fun a => p (g a)) l).
Proof.
  induction l as [|a l IH]; simpl; [reflexivity|].
  destruct (p (g a)); simpl; now rewrite IH.
Qed.

(** The tied maxima of the map counted from a list of values are values of
    the list with the most votes. The values are read as the responses of
    the rows of a data set, so that the lemma on [count_classes] applies. *)
Lemma value_votes_major (values : list double) (x : double) :
  (forall v, In v values -> Double.isnan v = false) ->
  N.of_nat (length values) < SizeT.modulus ->
  In x (major_classes (fold_left incr_count values [])) ->
  In x values
  /\ forall v, In v values -> (value_votes values v <= value_votes values x)%nat.
Proof.
  intros Hnan Hlen Hx.
  set (t := mkTree (mkData (fun row _ => default 0%float (values !! N.to_nat row)))
                   0 0 IMP_NONE [] first_draw [] [] [] [] [] [] 0 [] [] []).
  set (samples := map N.of_nat (seq 0 (length values))).
  assert (map (response t) samples = values) as Hmap.
  { subst samples. rewrite map_map. rewrite <- (seq_lookup_values 0%float values) at 2.
    apply map_ext. intros i. unfold response. simpl. now rewrite Nat2N.id. }
  assert (count_classes t samples = fold_left incr_count values []) as Hcount.
  { unfold count_classes. rewrite <- (fold_left_fmap incr_count (response t)).
    now rewrite Hmap. }
  assert (forall y, votes_for t samples y = value_votes values y) as Hvotes.
  { intros y. unfold votes_for, value_votes. rewrite <- Hmap.
    symmetry. apply (filter_map_length (fun v => PrimFloat.eqb v y)). }
  assert (forall v, In v values <-> exists s, In s samples /\ v = response t s) as Hin.
  { intros v. rewrite <- Hmap at 1. rewrite in_map_iff. split.
    - intros (s & <- & Hs). eauto.
    - intros (s & Hs & ->). eauto. }
  destruct (major_classes_votes t samples) as [Hmajor _].
  { intros s Hs. apply Hnan, Hin. eauto. }
  { subst samples. now rewrite length_map, length_seq. }
  rewrite Hcount in Hmajor. destruct (Hmajor x Hx) as [Hocc Hmost].
  split; [now apply Hin|].
  intros v (s & Hs & ->)%Hin. rewrite <- !Hvotes. now apply Hmost.
Qed.

Lemma value_votes_any (values : list double) (w : double) :
  (forall v, In v values -> (value_votes values v <= value_votes values w)%nat) ->
  forall x, (value_votes values x <= value_votes values w)%nat.
Proof.
  intros Hmost x. unfold value_votes at 1.
  destruct (List.filter (fun v => PrimFloat.eqb v x) values) as [|v rest] eqn:Hfilter;
    [simpl; lia|].
  assert (In v (List.filter (fun v => PrimFloat.eqb v x) values)) as Hv
    by (rewrite Hfilter; now left).
  apply List.filter_In in Hv as [Hv Hvx]. rewrite <- Hfilter.
  change (value_votes values x <= value_votes values w)%nat.
  replace (value_votes values x) with (value_votes values v); [now apply Hmost|].
  unfold value_votes. f_equal. apply List.filter_ext. intros u. now apply eqb_compat_r.
Qed.

Lemma predict_sample_votes (f : Forest.ForestClassification) (sample_idx : nat) :
  predict_sample f sample_idx
  = (v ← mostFrequentValue (fold_left incr_count (tree_votes f sample_idx) [])
                            (Forest.random_number_generator f); Some [v]).
Proof. unfold predict_sample, tree_votes. now rewrite fold_left_fmap. Qed.

Lemma tree_votes_length (f : Forest.ForestClassification) (sample_idx : nat) :
  Forest.num_trees f < SizeT.modulus ->
  N.of_nat (length (tree_votes f sample_idx)) < SizeT.modulus.
Proof.
  intros Hlt. unfold tree_votes. rewrite length_map, length_take. lia.
Qed.

Lemma predictInternal_votes (f f' : Forest.ForestClassification) :
  predictInternal f = Some f' ->
  exists tree0 votes,
    Forest.trees f !! 0%nat = Some tree0
    /\ Forest.predictions f' = Forest.predictions f ++ votes
    /\ length votes = length (default [] (getPredictions tree0 !! 0%nat))
    /\ forall i p, votes !! i = Some p -> predict_sample f i = Some p.
Proof.
  unfold predictInternal.
  destruct (Forest.trees f !! 0%nat) as [tree0|]; simpl; [|discriminate].
  destruct (mapM _ _) as [votes|] eqn:Hvotes; simpl; [|discriminate].
  intros [= <-]. simpl. exists tree0, votes. split; [reflexivity|]. split; [reflexivity|].
  pose proof (length_mapM _ _ _ Hvotes) as Hlen. rewrite length_seq in Hlen.
  split; [now symmetry|].
  intros i p Hp. apply mapM_Some in Hvotes.
  destruct (Forall2_lookup_r _ _ _ _ _ Hvotes Hp) as (j & Hj & Hpred).
  apply lookup_seq in Hj as [-> _]. exact Hpred.
Qed.

(** X13. [predictInternal] (with at least one tree and a random number
    generator that draws within its range) appends one prediction for each
    sample of the prediction run, as many as [trees[0]] has predicted; each
    is a single value, one of the values that the trees predicted for that
    sample. Nothing else of the forest changes. *)
Theorem predictInternal_predictions
    (f : Forest.ForestClassification) (tree0 : TreeClassification) :
  rng_in_range (Forest.random_number_generator f) ->
  0 < Forest.num_trees f ->
  Forest.trees f !! 0%nat = Some tree0 ->
  exists f' votes,
    predictInternal f = Some f'
    /\ Forest.predictions f' = Forest.predictions f ++ votes
    /\ length votes = length (default [] (getPredictions tree0 !! 0%nat))
    /\ (forall i, (i < length votes)%nat ->
          exists v, votes !! i = Some [v] /\ In v (tree_votes f i))
    /\ Forest.trees f' = Forest.trees f
    /\ Forest.class_values f' = Forest.class_values f
    /\ Forest.classification_table f' = Forest.classification_table f.
Proof.
  intros Hg Hn Htree0.
  assert (forall i, exists v,
            predict_sample f i = Some [v] /\ In v (tree_votes f i)) as Hsample.
  { intros i. rewrite predict_sample_votes.
    destruct (mostFrequentValue_total (fold_left incr_count (tree_votes f i) [])
                (Forest.random_number_generator f) Hg) as (v & Hv).
    { apply count_values_nonempty. unfold tree_votes.
      destruct (Forest.trees f) as [|tr trs]; [discriminate|].
      destruct (N.to_nat (Forest.num_trees f)) as [|n] eqn:Hnat; [lia|]. discriminate. }
    exists v. rewrite Hv. split; [reflexivity|].
    apply mostFrequentValue_In, major_classes_In, count_values_key in Hv
      as [Hin|(c' & [])]. exact Hin. }
  destruct (mapM (predict_sample f)
              (seq 0 (length (default [] (getPredictions tree0 !! 0%nat)))))
    as [votes|] eqn:Hvotes.
  - assert (predictInternal f
            = Some (Forest.mkForest (Forest.num_trees f) (Forest.num_samples f)
                      (Forest.num_variables f) (Forest.mtry f) (Forest.min_node_size f)
                      (Forest.prediction_mode f) (Forest.dependent_varID f)
                      (Forest.data f) (Forest.random_number_generator f)
                      (Forest.trees f) (Forest.class_values f)
                      (Forest.response_classIDs f) (Forest.predictions f ++ votes)
                      (Forest.classification_table f)
                      (Forest.overall_prediction_error f))) as Hrun.
    { unfold predictInternal. rewrite Htree0. simpl. rewrite Hvotes. reflexivity. }
    eexists. exists votes. split; [exact Hrun|]. simpl.
    destruct (predictInternal_votes _ _ Hrun) as (tree0' & votes' & Ht & Happ & Hlen & Hp).
    simpl in Happ. apply app_inv_head in Happ as <-.
    rewrite Htree0 in Ht. injection Ht as <-.
    split; [reflexivity|]. split; [exact Hlen|]. split; [|repeat split].
    intros i Hi. destruct (lookup_lt_is_Some_2 _ _ Hi) as (p & Hpi).
    destruct (Hsample i) as (v & Hv & Hin). rewrite (Hp i p Hpi) in Hv.
    injection Hv as ->. eauto.
  - exfalso. assert (is_Some (mapM (predict_sample f)
                        (seq 0 (length (default [] (getPredictions tree0 !! 0%nat))))))
      as [votes Hsome].
    { apply mapM_is_Some, Forall_forall. intros i _.
      destruct (Hsample i) as (v & Hv & _). simpl. rewrite Hv. eauto. }
    congruence.
Qed.

Lemma predictInternal_predictions_witness :
  exists f' votes,
    predictInternal three_tree_forest = Some f'
    /\ Forest.predictions f' = Forest.predictions three_tree_forest ++ votes
    /\ length votes = length (default [] (getPredictions (voting_tree [0; 1]%float) !! 0%nat))
    /\ (forall i, (i < length votes)%nat ->
          exists v, votes !! i = Some [v] /\ In v (tree_votes three_tree_forest i))
    /\ Forest.trees f' = Forest.trees three_tree_forest
    /\ Forest.class_values f' = Forest.class_values three_tree_forest
    /\ Forest.classification_table f' = Forest.classification_table three_tree_forest.
Proof.
  apply (predictInternal_predictions three_tree_forest (voting_tree [0; 1]%float)).
  - intros lo hi Hle. simpl. lia.
  - reflexivity.
  - reflexivity.
Defined.

(** X14. The value that [predictInternal] predicts for a sample is a majority
    vote of the trees: no value has more votes among the trees' predictions
    for that sample than the predicted one (the trees' predictions for the
    sample not being NaN, and fewer than [2^64] trees). *)
Theorem predictInternal_majority
    (f f' : Forest.ForestClassification) (i : nat) (v : double) :
  predictInternal f = Some f' ->
  Forest.num_trees f < SizeT.modulus ->
  (forall x, In x (tree_votes f i) -> Double.isnan x = false) ->
  Forest.predictions f' !! (length (Forest.predictions f) + i)%nat = Some [v] ->
  In v (tree_votes f i)
  /\ forall x, (value_votes (tree_votes f i) x <= value_votes (tree_votes f i) v)%nat.
Proof.
  intros Hrun Hn Hnan Hv.
  destruct (predictInternal_votes _ _ Hrun) as (tree0 & votes & _ & Happ & _ & Hp).
  rewrite Happ, lookup_app_r in Hv by lia.
  replace (length (Forest.predictions f) + i - length (Forest.predictions f))%nat
    with i in Hv by lia.
  apply Hp in Hv. rewrite predict_sample_votes in Hv.
  destruct (mostFrequentValue _ _) as [w|] eqn:Hw; simpl in Hv; [|discriminate].
  injection Hv as ->.
  apply mostFrequentValue_In in Hw.
  destruct (value_votes_major _ _ Hnan (tree_votes_length f i Hn) Hw) as [Hin Hmost].
  split; [exact Hin | now apply value_votes_any].
Qed.

Lemma predictInternal_majority_witness :
  In 1%float (tree_votes three_tree_forest 0)
  /\ forall x, (value_votes (tree_votes three_tree_forest 0) x
                <= value_votes (tree_votes three_tree_forest 0) 1%float)%nat.
Proof.
  apply (predictInternal_majority three_tree_forest
           (default three_tree_forest (predictInternal three_tree_forest)) 0 1%float).
  - reflexivity.
  - reflexivity.
  - intros x Hx. vm_compute in Hx.
    repeat (destruct Hx as [<-|Hx]; [reflexivity|]). destruct Hx.
  - reflexivity.
Defined.

(** ** The accuracy of a tree on its out-of-bag samples *)

Lemma count_missclassifications_all_correct (t : TreeClassification)
    (predictions : list double) (i : nat) (acc : N) :
  (forall j v, predictions !! j = Some v ->
     PrimFloat.eqb v (response t (default 0 (oob_sampleIDs t !! (i + j)%nat))) = true) ->
  count_missclassifications t i predictions acc = acc.
Proof.
  revert i acc. induction predictions as [|v predictions IH]; intros i acc Hall;
    [reflexivity|].
  cbn [count_missclassifications].
  pose proof (Hall 0%nat v eq_refl) as Hv. rewrite Nat.add_0_r in Hv.
  unfold Double.neb. rewrite Hv. cbn [negb]. apply IH.
  intros j w Hw. specialize (Hall (S j) w Hw).
  now replace (S i + j)%nat with (i + S j)%nat by lia.
Qed.

(** X15. A tree all of whose out-of-bag predictions are [==] to the response
    of the sample they are for has the accuracy [1.0] (there being at least
    one prediction and fewer than [2^53]). *)
Theorem computePredictionAccuracyInternal_all_correct
    (t : TreeClassification) (predictions0 : list double) :
  predictions t !! 0%nat = Some predictions0 ->
  0 < N.of_nat (length predictions0) < 2 ^ 53 ->
  (forall i v, predictions0 !! i = Some v ->
     PrimFloat.eqb v (response t (default 0 (oob_sampleIDs t !! i))) = true) ->
  computePredictionAccuracyInternal t = 1%float.
Proof.
  intros Hp Hlen Hall. unfold computePredictionAccuracyInternal. rewrite Hp.
  cbn [default]. rewrite count_missclassifications_all_correct by exact Hall.
  change (Double.of_size_t 0) with 0%float.
  rewrite div_zero_positive_finite by now apply DoubleFacts.positive_finite_of_size_t.
  reflexivity.
Qed.

Lemma computePredictionAccuracyInternal_all_correct_witness :
  computePredictionAccuracyInternal same_class_tree = 1%float.
Proof.
  apply (computePredictionAccuracyInternal_all_correct same_class_tree [0%float]).
  - reflexivity.
  - vm_compute. split; reflexivity.
  - intros i v Hi. destruct i as [|i]; [|discriminate]. injection Hi as <-. reflexivity.
Defined.

(** X16. A tree without out-of-bag predictions has no accuracy:
    [computePredictionAccuracyInternal] divides zero by zero and returns
    NaN. *)
Theorem computePredictionAccuracyInternal_no_predictions (t : TreeClassification) :
  predictions t !! 0%nat = Some [] ->
  Double.isnan (computePredictionAccuracyInternal t) = true.
Proof.
  intros Hp. unfold computePredictionAccuracyInternal. rewrite Hp. reflexivity.
Qed.

Lemma computePredictionAccuracyInternal_no_predictions_witness :
  Double.isnan (computePredictionAccuracyInternal (voting_tree [])) = true.
Proof.
  apply (computePredictionAccuracyInternal_no_predictions (voting_tree [])). reflexivity.
Defined.

(** ** Variable IDs of a forest loaded for data without the dependent column *)

(** X17. The variable IDs that [loadFromFileInternal] adjusts name the same
    columns as before: when the data set is the saved one without the
    column of the dependent variable, reading the adjusted ID of a split
    variable (which is not the dependent variable) gives the value that the
    saved ID gives in the full data set. *)
Theorem adjust_varIDs_same_columns
    (f : Forest.ForestClassification) (num_variables_saved : N)
    (full : Data) (split_varIDs : list N) :
  Forest.num_variables f < num_variables_saved ->
  Forest.data f = drop_column full (Forest.dependent_varID f) ->
  Forall (fun varID => varID <> Forest.dependent_varID f /\ varID < SizeT.modulus)
         split_varIDs ->
  Forall2 (fun varID varID' => forall row, get (Forest.data f) row varID' = get full row varID)
          split_varIDs (Forest.adjust_varIDs f num_variables_saved split_varIDs).
Proof.
  intros Hsaved Hdata Hids. unfold Forest.adjust_varIDs.
  apply N.ltb_lt in Hsaved. rewrite Hsaved, Hdata.
  induction Hids as [|varID varIDs [Hne Hlt] _ IH]; simpl; constructor; [|exact IH].
  intros row.
  destruct (N.leb_spec (Forest.dependent_varID f) varID) as [Hle|Hgt].
  - rewrite SizeTFacts.decr_pos by lia.
    destruct (N.ltb_spec (varID - 1) (Forest.dependent_varID f)); [lia|].
    f_equal. lia.
  - destruct (N.ltb_spec varID (Forest.dependent_varID f)); [reflexivity | lia].
Qed.

Lemma adjust_varIDs_same_columns_witness :
  Forall2 (fun varID varID' =>
             forall row,
               get (Forest.data (Forest.mkForest 2 2 2 1 1 true 1
                                   (drop_column separable_data 1) first_draw []
                                   [] [] [] [] 0%float)) row varID'
               = get separable_data row varID)
          [2; 0]
          (Forest.adjust_varIDs (Forest.mkForest 2 2 2 1 1 true 1
                                   (drop_column separable_data 1) first_draw []
                                   [] [] [] [] 0%float) 3 [2; 0]).
Proof.
  apply (adjust_varIDs_same_columns
           (Forest.mkForest 2 2 2 1 1 true 1 (drop_column separable_data 1) first_draw []
              [] [] [] [] 0%float) 3 separable_data [2; 0]).
  - reflexivity.
  - reflexivity.
  - repeat constructor; discriminate.
Defined.

(** ** Saving and loading the header of a forest *)

(** X18. A file that [saveToFileInternal] has written is accepted by
    [loadFromFileInternal] (the tree type read is the one written), the
    class values loaded are the ones saved, and when the loading forest has
    as many variables as the saved one the trees are loaded as they are in
    the file, no variable ID being changed. *)
Theorem saveToFileInternal_loadFromFileInternal
    (saved f : Forest.ForestClassification) (outfile : list SavedTree) :
  exists f',
    Forest.loadFromFileInternal f (saveToFileInternal saved outfile) = Ok f'
    /\ Forest.class_values f' = Forest.class_values saved
    /\ (Forest.num_variables saved <= Forest.num_variables f ->
        Forest.trees f'
        = Forest.trees f
          ++ map (fun st => loaded_tree (saved_child_nodeIDs st) (saved_split_varIDs st)
                              (saved_split_values st) (Forest.class_values saved)
                              (Forest.response_classIDs f))
                 (take (N.to_nat (Forest.num_trees f)) outfile)).
Proof.
  unfold Forest.loadFromFileInternal, saveToFileInternal. simpl.
  eexists. split; [reflexivity|]. simpl. split; [reflexivity|].
  intros Hle. f_equal. apply map_ext. intros st.
  unfold Forest.load_tree, Forest.adjust_varIDs. simpl.
  destruct (N.ltb_spec (Forest.num_variables f) (Forest.num_variables saved)); [lia|].
  reflexivity.
Qed.

(** ** The prediction of a leaf *)

Lemma splitNodeInternal_leaf_sample t t' nodeID vars :
  splitNodeInternal t nodeID vars = Some (true, t') ->
  exists s, In s (node_samples t nodeID) /\ t' = set_split_value t nodeID (response t s).
Proof.
  unfold splitNodeInternal.
  destruct (N.of_nat (length (node_samples t nodeID)) <=? min_node_size t) eqn:Hsize.
  - destruct (estimate t nodeID) as [v|] eqn:Hest; simpl; [|discriminate].
    intros [= <-]. apply estimate_occurs in Hest as (s & Hs & ->). eauto.
  - destruct (purity_loop _ _ _) as [pure pv] eqn:Hpure. destruct pure.
    + intros [= <-].
      assert (node_samples t nodeID <> []) as Hne.
      { intros Heq. rewrite Heq in Hsize. simpl in Hsize. apply N.leb_gt in Hsize. lia. }
      apply purity_loop_value in Hpure;
        [|now destruct (node_samples t nodeID)|reflexivity].
      apply in_map_iff in Hpure as (s & <- & Hs). eauto.
    + destruct (findBestSplit t nodeID vars) as [stop t1] eqn:Hfind.
      destruct stop; [|discriminate].
      apply findBestSplit_stop_unchanged in Hfind as ->.
      destruct (estimate t nodeID) as [v|] eqn:Hest; simpl; [|discriminate].
      intros [= <-]. apply estimate_occurs in Hest as (s & Hs & ->). eauto.
Qed.

(** X19. What [addPrediction] records for a sample that ends in a leaf made
    by [splitNodeInternal] is the response of one of the training samples of
    that leaf; the predictions for the other samples are not touched. *)
Theorem addPrediction_leaf_response
    (t t' : TreeClassification) (nodeID sampleID : N) (possible_split_varIDs : list N)
    (predictions0 : list double) :
  splitNodeInternal t nodeID possible_split_varIDs = Some (true, t') ->
  (N.to_nat nodeID < length (split_values t))%nat ->
  predictions t !! 0%nat = Some predictions0 ->
  (N.to_nat sampleID < length predictions0)%nat ->
  exists s,
    In s (node_samples t nodeID)
    /\ tree_prediction (addPrediction t' nodeID sampleID) (N.to_nat sampleID) = response t s
    /\ forall j, j <> N.to_nat sampleID ->
         tree_prediction (addPrediction t' nodeID sampleID) j = tree_prediction t j.
Proof.
  intros (s & Hs & ->)%splitNodeInternal_leaf_sample Hnode Hp Hsample.
  exists s. split; [exact Hs|].
  unfold tree_prediction, getPredictions.
  destruct (predictions t) as [|p rest] eqn:Hpred; [discriminate|].
  injection Hp as ->.
  unfold addPrediction, set_split_value, with_split_values.
  cbn [predictions split_values]. rewrite Hpred.
  rewrite list_lookup_insert_eq by exact Hnode.
  cbn [alter list_alter lookup list_lookup default]. unfold id.
  split.
  - now rewrite list_lookup_insert_eq by exact Hsample.
  - intros j Hj. now rewrite list_lookup_insert_ne by congruence.
Qed.

Lemma addPrediction_leaf_response_witness :
  exists s,
    In s (node_samples leaf_tree 0)
    /\ tree_prediction
         (addPrediction (snd (default (true, leaf_tree)
                                      (splitNodeInternal leaf_tree 0 [0]))) 0 0)
         (N.to_nat 0)
       = response leaf_tree s
    /\ forall j, j <> N.to_nat 0 ->
         tree_prediction
           (addPrediction (snd (default (true, leaf_tree)
                                        (splitNodeInternal leaf_tree 0 [0]))) 0 0) j
         = tree_prediction leaf_tree j.
Proof.
  apply (addPrediction_leaf_response leaf_tree _ 0 0 [0]
           (default [] (predictions leaf_tree !! 0%nat))).
  - reflexivity.
  - vm_compute. lia.
  - reflexivity.
  - vm_compute. lia.
Defined.
